(** * WordGame: turn/combat engine, tile containers, tile pool and opponent
    word search, embedded from the JavaScript sources.

    JavaScript numbers that the engine uses as counters, indices and health
    are modelled as [nat] or [Z]; the values returned by relic capabilities
    are modelled as exact rationals [Q] so that [Math.floor] keeps its
    meaning.  [Math.random] is modelled by an explicit source of naturals:
    [Math.floor(Math.random() * n)] is [r mod n] for the next natural [r].
    Rendering, animation and positions are left out: they never feed back
    into the state modelled here. *)

From Stdlib Require Import ZArith QArith Qround Ascii String Lia Lra Lqa Sorted.
From stdpp Require Import base option list strings gmap.

Local Open Scope Z_scope.
Local Open Scope nat_scope.

(** ** Letters and words *)

(** [String.prototype.toUpperCase] / [toLowerCase] on a one-character string,
    for the ASCII letters the tile alphabet is made of. *)
Definition toUpperCase (c : ascii) : ascii :=
  let n := nat_of_ascii c in
  if (97 <=? n) && (n <=? 122) then ascii_of_nat (n - 32) else c.

Definition toLowerCase (c : ascii) : ascii :=
  let n := nat_of_ascii c in
  if (65 <=? n) && (n <=? 90) then ascii_of_nat (n + 32) else c.

Fixpoint chars (s : string) : list ascii :=
  match s with
  | EmptyString => []
  | String c s' => c :: chars s'
  end.

Fixpoint join (l : list ascii) : string :=
  match l with
  | [] => EmptyString
  | c :: l' => String c (join l')
  end.

Definition strToUpperCase (s : string) : string := join (map toUpperCase (chars s)).
Definition strToLowerCase (s : string) : string := join (map toLowerCase (chars s)).

(** ** config.js *)

Module CONFIG.
Definition RACK_CAPACITY : nat := 7.
Definition LANE_COUNT : nat := 3.
Definition LANE_MAX_TILES : nat := 12.
Definition STARTING_HEALTH : Z := 30.
Definition MULLIGAN_COUNT : Z := 3.
Definition MIN_WORD_LENGTH : nat := 2.

Module AI.
Definition MIN_TILES : nat := 3.
Definition MAX_TILES : nat := 7.
End AI.

Record DifficultySettings := { dictDivisor : nat }.

(** [Object.values(CONFIG.DIFFICULTY)], in declaration order; the
    [tileProb] field only drives the random tile count. *)
Definition DIFFICULTY_VERY_EASY := {| dictDivisor := 128 |}.
Definition DIFFICULTY_EASY := {| dictDivisor := 32 |}.
Definition DIFFICULTY_MEDIUM := {| dictDivisor := 16 |}.
Definition DIFFICULTY_HARD := {| dictDivisor := 4 |}.
Definition DIFFICULTY_VERY_HARD := {| dictDivisor := 1 |}.
Definition DIFFICULTY : list DifficultySettings :=
  [DIFFICULTY_VERY_EASY; DIFFICULTY_EASY; DIFFICULTY_MEDIUM;
   DIFFICULTY_HARD; DIFFICULTY_VERY_HARD].
End CONFIG.

(** ** entities/tile.js *)

Inductive TileType := MAIN | STEEL | ICE | FLOWER | GOLD.

Inductive Power := shield | heal | meteor.

Record Tile := mkTile { letter : ascii; type : TileType }.

Global Instance TileType_eq_dec : EqDecision TileType.
Proof. solve_decision. Defined.

Global Instance Power_eq_dec : EqDecision Power.
Proof. solve_decision. Defined.

Global Instance Tile_eq_dec : EqDecision Tile.
Proof. solve_decision. Defined.

(** [new Tile(letter, type)]: the constructor upper-cases the letter. *)
Definition newTile (l : ascii) (ty : TileType) : Tile :=
  {| letter := toUpperCase l; type := ty |}.

(** [Tile.getPower]: [CONFIG.TILE_POWERS[this.type]]. *)
Definition getPower (t : Tile) : option Power :=
  match type t with
  | ICE => Some shield
  | FLOWER => Some heal
  | GOLD => Some meteor
  | _ => None
  end.

Definition setType (ty : TileType) (t : Tile) : Tile :=
  {| letter := letter t; type := ty |}.

(** ** entities/tile_container.js *)

Record TileContainer := mkContainer {
  tiles : list Tile;
  maxTiles : nat;
  gapIndex : Z
}.

Module TileContainer.
Definition new (maxTiles : nat) : TileContainer :=
  {| tiles := []; maxTiles := maxTiles; gapIndex := (-1)%Z |}.

Definition setTiles (ts : list Tile) (c : TileContainer) : TileContainer :=
  {| tiles := ts; maxTiles := maxTiles c; gapIndex := gapIndex c |}.

Definition isFull (c : TileContainer) : bool :=
  maxTiles c <=? length (tiles c).

Definition isEmpty (c : TileContainer) : bool :=
  length (tiles c) =? 0.

Definition getLetters (c : TileContainer) : list ascii :=
  map letter (tiles c).

(** [addTile(tile)]: push at the end unless full. *)
Definition addTile (t : Tile) (c : TileContainer) : bool * TileContainer :=
  if maxTiles c <=? length (tiles c) then (false, c)
  else (true, setTiles (tiles c ++ [t]) c).

(** [tiles.splice(i, 0, t)] *)
Definition splice_in (i : nat) (t : Tile) (l : list Tile) : list Tile :=
  take i l ++ t :: drop i l.

Definition clampIndex (index : Z) (c : TileContainer) : Z :=
  Z.max 0 (Z.min index (Z.of_nat (length (tiles c)))).

(** [insertTileAt(tile, index)] *)
Definition insertTileAt (t : Tile) (index : Z) (c : TileContainer)
  : bool * TileContainer :=
  if maxTiles c <=? length (tiles c) then (false, c)
  else
    let clampedIndex := clampIndex index c in
    (true, {| tiles := splice_in (Z.to_nat clampedIndex) t (tiles c);
              maxTiles := maxTiles c;
              gapIndex := (-1)%Z |}).

(** [removeTile(index)]: [null] out of range, else [splice(index, 1)[0]]. *)
Definition removeTile (index : Z) (c : TileContainer)
  : option Tile * TileContainer :=
  if ((index <? 0)%Z || (Z.of_nat (length (tiles c)) <=? index)%Z)%bool
  then (None, c)
  else (tiles c !! Z.to_nat index,
        setTiles (delete (Z.to_nat index) (tiles c)) c).

(** [clear()]: returns the removed tiles. *)
Definition clear (c : TileContainer) : list Tile * TileContainer :=
  (tiles c, {| tiles := []; maxTiles := maxTiles c; gapIndex := (-1)%Z |}).

End TileContainer.

(** ** Array idioms shared by several files *)

(** [[a[i], a[j]] = [a[j], a[i]]] *)
Definition swap {A} (i j : nat) (l : list A) : list A :=
  match l !! i, l !! j with
  | Some x, Some y => <[j := x]> (<[i := y]> l)
  | _, _ => l
  end.

(** The Fisher-Yates loop [for (i = n; i > 0; i--) { j = floor(random() * (i + 1)); swap }],
    entered at [i]; it is started at [length - 1]. *)
Fixpoint shuffleFrom {A} (i : nat) (rng : nat -> nat) (l : list A) : list A :=
  match i with
  | 0 => l
  | S i' =>
    let j := rng 0 mod (i + 1) in
    shuffleFrom i' (fun n => rng (S n)) (swap i j l)
  end.

Definition shuffleArray {A} (rng : nat -> nat) (l : list A) : list A :=
  shuffleFrom (length l - 1) rng l.

(** ** systems/tile_set.js *)

(** An element of [persistentTiles] / [remainingTiles]: either a bare letter
    string ([td_power = None]) or an object [{letter, power}]. *)
Record TileData := mkTileData { td_letter : ascii; td_power : option Power }.

Record TileSet := mkTileSet {
  persistentTiles : list TileData;
  remainingTiles : list TileData
}.

Module TileSet.
Definition getTileTypeForPower (p : Power) : TileType :=
  match p with
  | shield => ICE
  | heal => FLOWER
  | meteor => GOLD
  end.

Definition getPowerForTileType (ty : TileType) : option Power :=
  match ty with
  | ICE => Some shield
  | FLOWER => Some heal
  | GOLD => Some meteor
  | _ => None
  end.

Definition createTileFromData (d : TileData) : Tile :=
  match td_power d with
  | Some p => newTile (td_letter d) (getTileTypeForPower p)
  | None => newTile (td_letter d) MAIN
  end.

Definition setRemaining (r : list TileData) (ts : TileSet) : TileSet :=
  {| persistentTiles := persistentTiles ts; remainingTiles := r |}.

(** The predicate of [remainingTiles.findIndex] in [drawTile]. *)
Definition matchesLetter (l : ascii) (d : TileData) : bool :=
  bool_decide (toUpperCase (td_letter d) = toUpperCase l).

(** [Array.prototype.findIndex]: first index satisfying [p]. *)
Fixpoint findIndex {A} (p : A -> bool) (l : list A) : option nat :=
  match l with
  | [] => None
  | x :: l' => if p x then Some 0 else S <$> findIndex p l'
  end.

(** [drawTile(specificLetter = null)]; [r] is the next random natural,
    used only by the random draw. *)
Definition drawTile (specificLetter : option ascii) (r : nat) (ts : TileSet)
  : option Tile * TileSet :=
  match remainingTiles ts with
  | [] => (None, ts)
  | _ :: _ =>
    match specificLetter with
    | Some l =>
      match findIndex (matchesLetter l) (remainingTiles ts) with
      | None => (None, ts)
      | Some index =>
        (createTileFromData <$> remainingTiles ts !! index,
         setRemaining (delete index (remainingTiles ts)) ts)
      end
    | None =>
      let index := r mod length (remainingTiles ts) in
      (createTileFromData <$> remainingTiles ts !! index,
       setRemaining (delete index (remainingTiles ts)) ts)
    end
  end.

(** [returnTile(tile)]: back to the draw pile, keeping the power of a
    powered tile type. *)
Definition returnTile (t : Tile) (ts : TileSet) : TileSet :=
  setRemaining
    (remainingTiles ts ++ [{| td_letter := letter t;
                              td_power := getPowerForTileType (type t) |}])
    ts.

Definition returnTiles (l : list Tile) (ts : TileSet) : TileSet :=
  fold_left (fun acc t => returnTile t acc) l ts.

Definition getRemainingCount (ts : TileSet) : nat := length (remainingTiles ts).
(** [CONFIG.LETTER_DISTRIBUTION], in key order. *)
Definition LETTER_DISTRIBUTION : list (ascii * nat) :=
  [("a", 9); ("b", 2); ("c", 2); ("d", 4); ("e", 12); ("f", 2); ("g", 3);
   ("h", 2); ("i", 9); ("j", 1); ("k", 1); ("l", 4); ("m", 2); ("n", 6);
   ("o", 8); ("p", 2); ("q", 1); ("r", 6); ("s", 4); ("t", 6); ("u", 4);
   ("v", 2); ("w", 2); ("x", 1); ("y", 2); ("z", 1)]%char.

(** [shuffle()] *)
Definition shuffle (rng : nat -> nat) (ts : TileSet) : TileSet :=
  setRemaining (shuffleArray rng (remainingTiles ts)) ts.

(** [reset()]: copy the persistent collection and shuffle it. *)
Definition reset (rng : nat -> nat) (ts : TileSet) : TileSet :=
  shuffle rng (setRemaining (persistentTiles ts) ts).

(** [initializePersistentCollection()] on a new object. *)
Definition initializePersistentCollection (rng : nat -> nat) : TileSet :=
  reset rng
    {| persistentTiles :=
         flat_map (fun '(l, count) =>
                     replicate count {| td_letter := toUpperCase l; td_power := None |})
                  LETTER_DISTRIBUTION;
       remainingTiles := [] |}.

(** [new TileSet()] *)
Definition new (rng : nat -> nat) : TileSet := initializePersistentCollection rng.

(** [canDrawLetter(letter)] *)
Definition canDrawLetter (l : ascii) (ts : TileSet) : bool :=
  existsb (matchesLetter l) (remainingTiles ts).

(** [addPoweredTiles(letterDataList)] *)
Definition addPoweredTiles (letterDataList : list (ascii * Power)) (ts : TileSet)
  : TileSet :=
  fold_left
    (fun acc '(l, p) =>
       {| persistentTiles :=
            persistentTiles acc ++ [{| td_letter := toUpperCase l; td_power := Some p |}];
          remainingTiles := remainingTiles acc |})
    letterDataList ts.

Definition getTotalCount (ts : TileSet) : nat := length (persistentTiles ts).

Definition isPowered (d : TileData) : bool :=
  match td_power d with Some _ => true | None => false end.

(** [getPoweredTileCount()] *)
Definition getPoweredTileCount (ts : TileSet) : nat :=
  length (filter (fun d => isPowered d = true) (persistentTiles ts)).

(** [getPoweredTileBreakdown()]: the counts for shield, heal and meteor. *)
Definition getPoweredTileBreakdown (ts : TileSet) : nat * nat * nat :=
  fold_left
    (fun '(s, h, m) d =>
       match td_power d with
       | Some shield => (s + 1, h, m)
       | Some heal => (s, h + 1, m)
       | Some meteor => (s, h, m + 1)
       | None => (s, h, m)
       end)
    (persistentTiles ts) (0, 0, 0).

(** [getRandomUnupgradedTiles(count)] *)
Definition getRandomUnupgradedTiles (rng : nat -> nat) (count : nat) (ts : TileSet)
  : list ascii :=
  let unupgraded :=
    map (fun d => toUpperCase (td_letter d))
        (filter (fun d => isPowered d = false) (persistentTiles ts)) in
  take count (shuffleArray rng unupgraded).
End TileSet.

(** ** Players *)

(** [playerNumber]: 1 is the human side, 2 the scripted opponent. *)
Inductive Player := P1 | P2.

Global Instance Player_eq_dec : EqDecision Player.
Proof. solve_decision. Defined.

Definition opponent (p : Player) : Player :=
  match p with P1 => P2 | P2 => P1 end.

Definition perPlayer {A} (x1 x2 : A) (p : Player) : A :=
  match p with P1 => x1 | P2 => x2 end.

(** ** systems/relics.js *)

(** A relic with the capabilities the board and the opponent consult.  The
    capabilities the engine never calls ([getWordHealthPercentDamage],
    [getWordIsUnblockable], [getWordAcceptedHealing], [getWordReplacement])
    are left out. *)
Record Relic := mkRelic {
  name : string;
  wordList : list string;
  assignedOnly : bool;
  getWordScoreMult : string -> Q;
  getWordScoreAdditive : string -> Q;
  getWordVulnerabilityMult : string -> Q;
  getRequiredRackLetters : option ascii
}.

Module Relics.
(** [isWordInList(word)] *)
Definition isWordInList (wl : list string) (word : string) : bool :=
  bool_decide (strToLowerCase word ∈ wl).

(** The base class: every capability has its neutral default. *)
Definition base (n : string) (wl : list string) : Relic :=
  {| name := n;
     wordList := map strToLowerCase wl;
     assignedOnly := false;
     getWordScoreMult := fun _ => 1%Q;
     getWordScoreAdditive := fun _ => 0%Q;
     getWordVulnerabilityMult := fun _ => 1%Q;
     getRequiredRackLetters := None |}.

Definition withScoreMult (f : string -> Q) (r : Relic) : Relic :=
  {| name := name r; wordList := wordList r; assignedOnly := assignedOnly r;
     getWordScoreMult := f;
     getWordScoreAdditive := getWordScoreAdditive r;
     getWordVulnerabilityMult := getWordVulnerabilityMult r;
     getRequiredRackLetters := getRequiredRackLetters r |}.

(** [word.toLowerCase().startsWith(c)] *)
Definition startsWith (c : ascii) (word : string) : bool :=
  match chars (strToLowerCase word) with
  | c' :: _ => bool_decide (c' = c)
  | [] => false
  end.

Definition Rock : Relic := base "Rock" ["rock"%string].

Definition Alpha : Relic :=
  withScoreMult (fun w => if startsWith "a" w then 2%Q else 1%Q)
                (base "Alpha" []).

Definition Worm : Relic :=
  withScoreMult (fun w => if startsWith "w" w then 2%Q else 1%Q)
                (base "Worm" []).

Definition Hiss : Relic :=
  {| name := "Hiss"; wordList := []; assignedOnly := false;
     getWordScoreMult := fun _ => 1%Q;
     getWordScoreAdditive := fun _ => 0%Q;
     getWordVulnerabilityMult := fun _ => 1%Q;
     getRequiredRackLetters := Some "s"%char |}.

Definition Yolk : Relic := base "Yolk" [].

Definition curvedLetters : list ascii :=
  ["b"; "c"; "d"; "g"; "j"; "o"; "p"; "q"; "r"; "s"; "u"]%char.

Definition Straight : Relic :=
  withScoreMult
    (fun w => if existsb (fun c => bool_decide (c ∈ curvedLetters))
                         (chars (strToLowerCase w))
              then 1%Q else 2%Q)
    (base "Straight and Narrow" []).

(** The loop of [AlphabetRelic.getWordScoreMult]: [prev] is the character
    at [i - 1]. *)
Fixpoint alphabetLoop (prev : ascii) (rest : list ascii)
         (maxSeq currentSeq : nat) : nat :=
  match rest with
  | [] => maxSeq
  | c :: rest' =>
    if nat_of_ascii c =? nat_of_ascii prev + 1
    then alphabetLoop c rest' (Nat.max maxSeq (currentSeq + 1)) (currentSeq + 1)
    else alphabetLoop c rest' maxSeq 1
  end.

Definition Alphabet : Relic :=
  withScoreMult
    (fun w => match chars (strToLowerCase w) with
              | [] => 1%Q
              | c :: rest => inject_Z (Z.of_nat (alphabetLoop c rest 1 1))
              end)
    (base "Alphabet" []).

Fixpoint abcLoop (prev : ascii) (rest : list ascii) : bool :=
  match rest with
  | [] => true
  | c :: rest' =>
    if nat_of_ascii c <? nat_of_ascii prev then false else abcLoop c rest'
  end.

Definition ABCs : Relic :=
  withScoreMult
    (fun w => match chars (strToLowerCase w) with
              | [] => 2%Q
              | c :: rest => if abcLoop c rest then 2%Q else 1%Q
              end)
    (base "ABCs" []).

Definition Tacocat : Relic :=
  withScoreMult
    (fun w => let lower := chars (strToLowerCase w) in
              if bool_decide (lower = rev lower) then 2%Q else 1%Q)
    (base "Tacocat" ["tacocat"%string]).

Definition TrebleCleft : Relic :=
  let r := base "Treble Cleft"
                ["do"; "re"; "mi"; "fa"; "so"; "la"; "ti"]%string in
  {| name := name r; wordList := wordList r; assignedOnly := false;
     getWordScoreMult := getWordScoreMult r;
     getWordScoreAdditive :=
       fun w => if isWordInList (wordList r) w then 6%Q else 0%Q;
     getWordVulnerabilityMult := getWordVulnerabilityMult r;
     getRequiredRackLetters := None |}.

Definition isAZ (c : ascii) : bool :=
  (97 <=? nat_of_ascii c) && (nat_of_ascii c <=? 122).

(** [BombRelic]: the count of the most frequent letter, at least 1. *)
Definition Bomb : Relic :=
  withScoreMult
    (fun w => let cs := filter (fun c => isAZ c = true) (chars (strToLowerCase w)) in
              inject_Z (Z.of_nat
                (foldr Nat.max 1 (map (fun c => count_occ ascii_dec cs c) cs))))
    (base "Bomb" []).

(** The enemy-only weakness relics: words of the list hit twice as hard. *)
Definition weakness (n : string) (wl : list string) : Relic :=
  let r := base n wl in
  {| name := name r; wordList := wordList r; assignedOnly := true;
     getWordScoreMult := getWordScoreMult r;
     getWordScoreAdditive := getWordScoreAdditive r;
     getWordVulnerabilityMult :=
       fun w => if isWordInList (wordList r) w then 2%Q else 1%Q;
     getRequiredRackLetters := None |}.

Definition ColdWords := weakness "Cold Words"
  ["ice"; "snow"; "chill"; "frost"; "cold"; "freeze"; "frozen"; "arctic";
   "polar"; "winter"]%string.
Definition BugWords := weakness "Bug Words"
  ["ant"; "fly"; "bug"; "bee"; "moth"; "wasp"; "pest"; "grub"; "mite";
   "flea"]%string.
Definition CleanWords := weakness "Clean Words"
  ["clean"; "wash"; "soap"; "scrub"; "tidy"; "neat"; "pure"; "fresh";
   "wipe"; "rinse"]%string.
Definition DryWords := weakness "Dry Words"
  ["dry"; "arid"; "dust"; "sand"; "desert"; "parch"; "thirst"; "crack";
   "wilt"; "drought"]%string.
Definition SmartWords := weakness "Smart Words"
  ["bright"; "sharp"; "brainy"; "witty"; "wise"; "savvy"; "adept"; "quick";
   "keen"; "lucid"; "smart"; "erudite"; "studious"]%string.
Definition GrossWords := weakness "Gross Words"
  ["snot"; "slime"; "odor"; "stink"; "filth"; "germ"; "muck"; "mold";
   "pus"; "scum"; "vomit"; "garbage"]%string.
Definition MuseumWords := weakness "Museum Words"
  ["relic"; "idol"; "stone"; "case"; "docent"; "label"; "plaque"; "room";
   "vault"; "rope"; "glass"; "gallery"; "artifact"]%string.
Definition WindWords := weakness "Wind Words"
  ["gust"; "gale"; "blow"; "draft"; "breeze"; "swirl"; "puff"; "blast";
   "air"; "wisp"; "eddy"; "cyclone"; "tempest"]%string.
Definition GardeningWords := weakness "Gardening Words"
  ["seed"; "root"; "stem"; "leaf"; "weed"; "soil"; "grow"; "prune";
   "water"; "mulch"; "compost"; "garden"; "plant"]%string.

Definition The : Relic := base "The" ["the"%string].

(** The relics in registration order. *)
Definition registered : list Relic :=
  [Rock; Alpha; Worm; Hiss; Yolk; Straight; Alphabet; ABCs; Tacocat;
   TrebleCleft; Bomb; ColdWords; BugWords; CleanWords; DryWords; SmartWords;
   GrossWords; MuseumWords; WindWords; GardeningWords; The].
End Relics.

Record RelicManager := mkRelicManager {
  relics : gmap string Relic;
  (** the keys of [activeRelics[playerNumber]], in insertion order *)
  activeRelics : Player -> list string
}.

Module RelicManager.
Definition registerRelic (r : Relic) (rm : RelicManager) : RelicManager :=
  {| relics := <[name r := r]> (relics rm); activeRelics := activeRelics rm |}.

(** The exported singleton after the registrations at module load. *)
Definition relicManager : RelicManager :=
  fold_left (fun rm r => registerRelic r rm) Relics.registered
            {| relics := ∅; activeRelics := fun _ => [] |}.

Definition setActive (p : Player) (l : list string) (rm : RelicManager)
  : RelicManager :=
  {| relics := relics rm;
     activeRelics := fun q => if decide (q = p) then l else activeRelics rm q |}.

(** The property names that every plain object inherits from
    [Object.prototype]. [this.relics] is such an object, so
    [this.relics[name]] is not [undefined] for them even when no relic of
    that name is registered: it is a function, and for [__proto__] the
    prototype itself. *)
Definition objectPrototypeNames : list string :=
  ["constructor"; "__defineGetter__"; "__defineSetter__"; "hasOwnProperty";
   "__lookupGetter__"; "__lookupSetter__"; "isPrototypeOf";
   "propertyIsEnumerable"; "toString"; "valueOf"; "__proto__";
   "toLocaleString"]%string.

(** What [this.relics[name]] evaluates to. *)
Inductive Property :=
| ownRelic (r : Relic)
| inheritedValue
| undefined.

(** [getRelic(name)] *)
Definition getRelic (rm : RelicManager) (n : string) : Property :=
  match relics rm !! n with
  | Some r => ownRelic r
  | None => if bool_decide (n ∈ objectPrototypeNames) then inheritedValue
            else undefined
  end.

(** [this.activeRelics[playerNumber][name] = true]: a new key goes to the
    end, an existing one keeps its place. *)
Definition markActive (n : string) (p : Player) (rm : RelicManager)
  : RelicManager :=
  if bool_decide (n ∈ activeRelics rm p) then rm
  else setActive p (activeRelics rm p ++ [n]) rm.

(** [activateRelic(name, playerNumber)]. Every value other than
    [undefined] passes [if (relic)]. The assignment creates the key, except
    for the inherited [__proto__]: there it runs the prototype setter, which
    ignores the value [true]. *)
Definition activateRelic (n : string) (p : Player) (rm : RelicManager)
  : bool * RelicManager :=
  match getRelic rm n with
  | ownRelic _ => (true, markActive n p rm)
  | inheritedValue =>
    (true, if bool_decide (n = "__proto__"%string) then rm else markActive n p rm)
  | undefined => (false, rm)
  end.


(** [getActiveRelics(playerNumber)]: the relics registered under the
    active names. An active name that is only an inherited property yields
    a function without any capability method, which every aggregate below
    skips; it is left out of this list. *)
Definition getActiveRelics (rm : RelicManager) (p : Player) : list Relic :=
  omap (fun n => relics rm !! n) (activeRelics rm p).

(** [getAdditiveResult(methodName, playerNumber, word)] *)
Definition getAdditiveResult (method : Relic -> string -> Q)
           (rm : RelicManager) (p : Player) (word : string) : Q :=
  fold_left (fun result r => (result + method r word)%Q)
            (getActiveRelics rm p) 0%Q.

(** [getMultResult(methodName, playerNumber, word)] *)
Definition getMultResult (method : Relic -> string -> Q)
           (rm : RelicManager) (p : Player) (word : string) : Q :=
  fold_left (fun result r => (result * method r word)%Q)
            (getActiveRelics rm p) 1%Q.

(** [getListOfResults('getRequiredRackLetters', playerNumber)]: the
    non-null answers. *)
Definition getRequiredLetters (rm : RelicManager) (p : Player) : list ascii :=
  omap getRequiredRackLetters (getActiveRelics rm p).



(** [Object.values(this.relics)]. The registry is a finite map here, so the
    values come in the order of the map and not in registration order; the
    functions below are only described up to that order. *)
Definition values (rm : RelicManager) : list Relic :=
  map snd (map_to_list (relics rm)).


(** [getRandomInactiveRelics(count, playerNumber)] *)
Definition getRandomInactiveRelics (count : nat) (p : Player) (rng : nat -> nat)
           (rm : RelicManager) : list Relic :=
  let inactive :=
    filter (fun r => assignedOnly r = false ∧ name r ∉ activeRelics rm p)
           (values rm) in
  take count (shuffleArray rng inactive).
End RelicManager.

(** ** systems/dictionary.js *)

Record Entry := mkEntry { word : string; letters : gmap ascii nat }.

Record DictionarySystem := mkDictionary {
  mainDictionary : list Entry;
  playerWords : Player -> list Entry
}.

Module Dictionary.
(** [getLetterCounts(word)]: counts of the characters a-z of the
    lower-cased word. *)
Definition countLetter (counts : gmap ascii nat) (c : ascii) : gmap ascii nat :=
  <[c := default 0 (counts !! c) + 1]> counts.

Definition getLetterCounts (w : string) : gmap ascii nat :=
  fold_left (fun counts c => if Relics.isAZ c then countLetter counts c else counts)
            (chars (strToLowerCase w)) ∅.

Definition makeEntry (w : string) : Entry :=
  {| word := strToLowerCase w; letters := getLetterCounts w |}.

(** [wordExists(word, playerNumber)]; [mainWordSet] is the set of the
    lower-cased main words. *)
Definition wordExists (d : DictionarySystem) (w : string)
           (playerNumber : option Player) : bool :=
  let lowerWord := strToLowerCase w in
  let inPlayerWords :=
    match playerNumber with
    | Some p => existsb (fun e => bool_decide (strToLowerCase (word e) = lowerWord))
                        (playerWords d p)
    | None => false
    end in
  inPlayerWords
  || bool_decide (lowerWord ∈ map (fun e => strToLowerCase (word e)) (mainDictionary d)).

Definition addPlayerWords (p : Player) (ws : list string) (d : DictionarySystem)
  : DictionarySystem :=
  {| mainDictionary := mainDictionary d;
     playerWords := fun q => if decide (q = p)
                             then playerWords d q ++ map makeEntry ws
                             else playerWords d q |}.

(** [getWordByRank(rank)] *)
Definition getWordByRank (d : DictionarySystem) (rank : nat) : option Entry :=
  mainDictionary d !! rank.

Definition getSize (d : DictionarySystem) : nat := length (mainDictionary d).

(** [getWordEntry(word, playerNumber)] *)
Definition getWordEntry (d : DictionarySystem) (w : string)
           (playerNumber : option Player) : option Entry :=
  let lowerWord := strToLowerCase w in
  let matches := fun e => bool_decide (strToLowerCase (word e) = lowerWord) in
  let fromPlayer :=
    match playerNumber with
    | Some p => find matches (playerWords d p)
    | None => None
    end in
  match fromPlayer with
  | Some e => Some e
  | None => find matches (mainDictionary d)
  end.

(** [getPlayerDictionary(playerNumber)] *)
Definition getPlayerDictionary (d : DictionarySystem) (p : Player) : list Entry :=
  playerWords d p ++ mainDictionary d.

(** [clearPlayerWords(playerNumber)] *)
Definition clearPlayerWords (p : Player) (d : DictionarySystem) : DictionarySystem :=
  {| mainDictionary := mainDictionary d;
     playerWords := fun q => if decide (q = p) then [] else playerWords d q |}.

(** The loop [for ([letter, count] of Object.entries(small))
    if ((big[letter] || 0) < count) return false]. *)
Definition countsCovered (small big : gmap ascii nat) : bool :=
  forallb (fun '(letter, count) => negb (default 0 (big !! letter) <? count))
          (map_to_list small).

(** [canFormWord(word, availableLetters)] *)
Definition canFormWord (w : string) (availableLetters : list ascii) : bool :=
  let wordCounts := getLetterCounts w in
  let available := getLetterCounts (join availableLetters) in
  countsCovered wordCounts available.

(** The loop of [findValidWords] over the remaining entries; the [break]
    returns the results gathered so far. *)
Fixpoint findValidWordsLoop (es : list Entry) (available required : gmap ascii nat)
         (minLength maxResults : nat) (results : list Entry) : list Entry :=
  match es with
  | [] => results
  | entry :: rest =>
    if String.length (word entry) <? minLength
    then findValidWordsLoop rest available required minLength maxResults results
    else if maxResults <=? length results then results
    else if negb (countsCovered required (letters entry))
    then findValidWordsLoop rest available required minLength maxResults results
    else if countsCovered (letters entry) available
    then findValidWordsLoop rest available required minLength maxResults
                            (results ++ [entry])
    else findValidWordsLoop rest available required minLength maxResults results
  end.

(** [findValidWords(availableLetters, requiredLetters, minLength, maxResults)];
    the defaults are [[]], 2 and 100. *)
Definition findValidWords (d : DictionarySystem)
           (availableLetters requiredLetters : list ascii)
           (minLength maxResults : nat) : list Entry :=
  let available := getLetterCounts (join availableLetters) in
  let required := getLetterCounts (join requiredLetters) in
  findValidWordsLoop (mainDictionary d) available required minLength maxResults [].
End Dictionary.

(** ** entities/rack.js *)

(** A rack is a [TileContainer] of capacity [RACK_CAPACITY]; its
    [playerNumber] only selects the drawing colour. *)
Module Rack.
Definition new (playerNumber : Player) : TileContainer :=
  TileContainer.new CONFIG.RACK_CAPACITY.
End Rack.

(** ** entities/lane.js *)

Record Lane := mkLane {
  container : TileContainer;
  index : nat;
  (** ownership: [None] is neutral (null) *)
  owner : option Player;
  temporaryOwner : option Player;
  visible : bool;
  locked : bool;
  startTurnTileCount : nat
}.

Record SpecialEffects := mkEffects {
  eff_shield : Z;
  eff_heal : Z;
  eff_meteor : Z
}.

Module Lane.
Definition new (i : nat) : Lane :=
  {| container := TileContainer.new CONFIG.LANE_MAX_TILES;
     index := i;
     owner := None;
     temporaryOwner := None;
     visible := true;
     locked := false;
     startTurnTileCount := 0 |}.

Definition laneTiles (l : Lane) : list Tile := tiles (container l).

Definition setContainer (c : TileContainer) (l : Lane) : Lane :=
  {| container := c; index := index l; owner := owner l;
     temporaryOwner := temporaryOwner l; visible := visible l;
     locked := locked l; startTurnTileCount := startTurnTileCount l |}.

Definition isEmpty (l : Lane) : bool := TileContainer.isEmpty (container l).

Definition addTile (t : Tile) (l : Lane) : bool * Lane :=
  let '(ok, c) := TileContainer.addTile t (container l) in
  (ok, setContainer c l).

(** Override of [removeTile]: a locked lane gives nothing. *)
Definition removeTile (i : Z) (l : Lane) : option Tile * Lane :=
  if locked l then (None, l)
  else let '(t, c) := TileContainer.removeTile i (container l) in
       (t, setContainer c l).

Definition getWord (l : Lane) : string := join (map letter (laneTiles l)).

(** [setOwner(playerNumber)]: also turns every tile to steel. *)
Definition setOwner (p : option Player) (l : Lane) : Lane :=
  {| container :=
       TileContainer.setTiles (map (setType STEEL) (laneTiles l)) (container l);
     index := index l;
     owner := p;
     temporaryOwner := None;
     visible := visible l;
     locked := locked l;
     startTurnTileCount := startTurnTileCount l |}.

Definition setTemporaryOwner (p : option Player) (l : Lane) : Lane :=
  {| container := container l; index := index l; owner := owner l;
     temporaryOwner := p; visible := visible l;
     locked := locked l; startTurnTileCount := startTurnTileCount l |}.

Definition clearTemporaryOwner (l : Lane) : Lane := setTemporaryOwner None l.

Definition getEffectiveOwner (l : Lane) : option Player :=
  match temporaryOwner l with
  | Some p => Some p
  | None => owner l
  end.

Definition calculateDamage (l : Lane) : nat :=
  match getEffectiveOwner l with
  | None => 0
  | Some _ => length (laneTiles l)
  end.

Definition countPower (p : Power) (l : Lane) : Z :=
  Z.of_nat (length (filter (fun t => getPower t = Some p) (laneTiles l))).

Definition getSpecialEffects (l : Lane) : SpecialEffects :=
  {| eff_shield := countPower shield l;
     eff_heal := countPower heal l;
     eff_meteor := countPower meteor l |}.

Definition hasNewTiles (l : Lane) : bool :=
  startTurnTileCount l <? length (laneTiles l).

Definition saveTurnStartState (l : Lane) : Lane :=
  {| container := container l; index := index l; owner := owner l;
     temporaryOwner := temporaryOwner l; visible := visible l;
     locked := locked l; startTurnTileCount := length (laneTiles l) |}.

(** [clear()]: the container's [clear], then both owners back to null. *)
Definition clear (l : Lane) : list Tile * Lane :=
  let '(removed, c) := TileContainer.clear (container l) in
  (removed,
   {| container := c; index := index l; owner := None;
      temporaryOwner := None; visible := visible l;
      locked := locked l; startTurnTileCount := startTurnTileCount l |}).
End Lane.

(** ** systems/ai.js *)

Module AI.
(** [Object.values(CONFIG.DIFFICULTY)[difficulty - 1] || CONFIG.DIFFICULTY.MEDIUM] *)
Definition diffSettings (difficulty : Z) : CONFIG.DifficultySettings :=
  if (difficulty - 1 <? 0)%Z then CONFIG.DIFFICULTY_MEDIUM
  else default CONFIG.DIFFICULTY_MEDIUM
               (CONFIG.DIFFICULTY !! Z.to_nat (difficulty - 1)).

(** [getLetterCounts(letters)] on an array of letters: no a-z filter here. *)
Definition getLetterCounts (ls : list ascii) : gmap ascii nat :=
  fold_left (fun counts letter => Dictionary.countLetter counts (toLowerCase letter))
            ls ∅.

(** [canFormWord(wordLetters, availableCounts)] *)
Definition canFormWord (wordLetters availableCounts : gmap ascii nat) : bool :=
  forallb (fun '(letter, count) =>
             negb (default 0 (availableCounts !! letter) <? count))
          (map_to_list wordLetters).

(** [containsAllLetters(wordLetters, requiredCounts)] *)
Definition containsAllLetters (wordLetters requiredCounts : gmap ascii nat) : bool :=
  forallb (fun '(letter, count) =>
             negb (default 0 (wordLetters !! letter) <? count))
          (map_to_list requiredCounts).

(** [findIndex] with the element's index passed to the predicate. *)
Fixpoint findIndexFrom {A} (p : A -> nat -> bool) (l : list A) (i : nat)
  : option nat :=
  match l with
  | [] => None
  | x :: l' => if p x i then Some i else findIndexFrom p l' (S i)
  end.

(** [calculateNumTiles(maxTiles)]: [coins] are the outcomes of the three
    [Math.random() < diffSettings.tileProb] tests. *)
Definition calculateNumTiles (coins : list bool) (maxTiles : nat) : nat :=
  let count := CONFIG.AI.MIN_TILES + length (filter (fun c => c = true) (take 3 coins)) in
  Nat.min (Nat.min count maxTiles) CONFIG.AI.MAX_TILES.

(** [selectRandomLetters(letters, count)] *)
Fixpoint selectRandomLetters (rng : nat -> nat) (available : list ascii)
         (count : nat) : list ascii :=
  match count with
  | 0 => []
  | S count' =>
    match available with
    | [] => []
    | _ :: _ =>
      let i := rng 0 mod length available in
      match available !! i with
      | Some c => c :: selectRandomLetters (fun n => rng (S n))
                                           (delete i available) count'
      | None => []
      end
    end
  end.

Section WithDictionary.
Variable dictionary : DictionarySystem.
Variable difficulty : Z.

(** [calculateDictLimit()] *)
Definition calculateDictLimit : nat :=
  Dictionary.getSize dictionary / CONFIG.dictDivisor (diffSettings difficulty).

(** The body of the [for] loop of [findBestWord], from rank [i] with [n]
    iterations left before [dictLimit]. *)
Fixpoint findBestWordLoop (n i : nat) (nRequired : nat)
         (requiredCounts availableCounts : gmap ascii nat)
         (bestWord : option string) (bestLength : nat) : option string :=
  match n with
  | 0 => bestWord
  | S n' =>
    match Dictionary.getWordByRank dictionary i with
    | None => bestWord
    | Some entry =>
      let w := word entry in
      let continue_ := findBestWordLoop n' (S i) nRequired requiredCounts
                                        availableCounts bestWord bestLength in
      if (String.length w <=? nRequired) && (0 <? nRequired) then continue_
      else if String.length w <? CONFIG.MIN_WORD_LENGTH then continue_
      else if negb (canFormWord (letters entry) availableCounts) then continue_
      else if negb (containsAllLetters (letters entry) requiredCounts) then continue_
      else if bestLength <? String.length w
           then findBestWordLoop n' (S i) nRequired requiredCounts
                                 availableCounts (Some w) (String.length w)
           else continue_
    end
  end.

(** [findBestWord(allLetters, requiredLetters)] *)
Definition findBestWord (allLetters requiredLetters : list ascii)
  : option string :=
  let dictLimit := calculateDictLimit in
  let requiredCounts := getLetterCounts requiredLetters in
  let availableCounts := getLetterCounts allLetters in
  findBestWordLoop dictLimit 0 (length requiredLetters)
                   requiredCounts availableCounts None 0.
End WithDictionary.

(** First inner loop of [playWord]: look for an unused lane-origin letter
    equal to [l] and materialise it from the tile set. *)
Fixpoint tryLaneLetters (l : ascii) (laneLetters : list ascii) (i : nat)
         (usedLane : gset nat) (lane : Lane) (tileSet : TileSet)
  : option (gset nat * Lane * TileSet) :=
  match laneLetters with
  | [] => None
  | c :: rest =>
    if negb (bool_decide (i ∈ usedLane)) && bool_decide (c = l) then
      match TileSet.drawTile (Some l) 0 tileSet with
      | (Some tile, tileSet') =>
        Some ({[i]} ∪ usedLane, (Lane.addTile tile lane).2, tileSet')
      | (None, tileSet') => tryLaneLetters l rest (S i) usedLane lane tileSet'
      end
    else tryLaneLetters l rest (S i) usedLane lane tileSet
  end.

(** Second inner loop of [playWord]: look for an unused selected rack
    letter equal to [l] and move a rack tile of that letter.  The rack
    search tests [usedRack] at the rack position [idx], as the source
    does.  [removeTile] cannot answer [null] at an index that [findIndex]
    returned, so the last branch is never taken. *)
Fixpoint tryRackLetters (l : ascii) (rackLetters : list ascii) (i : nat)
         (usedRack : gset nat) (lane : Lane) (rack : TileContainer)
  : option (gset nat * Lane * TileContainer) :=
  match rackLetters with
  | [] => None
  | c :: rest =>
    if negb (bool_decide (i ∈ usedRack)) && bool_decide (c = l) then
      match findIndexFrom
              (fun t idx => bool_decide (letter t = l)
                            && negb (bool_decide (idx ∈ usedRack)))
              (tiles rack) 0 with
      | Some rackIndex =>
        match TileContainer.removeTile (Z.of_nat rackIndex) rack with
        | (Some tile, rack') =>
          Some ({[i]} ∪ usedRack, (Lane.addTile tile lane).2, rack')
        | (None, rack') => Some ({[i]} ∪ usedRack, lane, rack')
        end
      | None => tryRackLetters l rest (S i) usedRack lane rack
      end
    else tryRackLetters l rest (S i) usedRack lane rack
  end.

(** The outer [for (const letter of word.toUpperCase())] loop.  The
    boolean is [false] when the loop hit [return false]. *)
Fixpoint buildWord (ls : list ascii) (laneLetters rackLetters : list ascii)
         (usedLane usedRack : gset nat)
         (lane : Lane) (rack : TileContainer) (tileSet : TileSet)
  : bool * Lane * TileContainer * TileSet :=
  match ls with
  | [] => (true, lane, rack, tileSet)
  | l :: rest =>
    match tryLaneLetters l laneLetters 0 usedLane lane tileSet with
    | Some (usedLane', lane', tileSet') =>
      buildWord rest laneLetters rackLetters usedLane' usedRack lane' rack tileSet'
    | None =>
      match tryRackLetters l rackLetters 0 usedRack lane rack with
      | Some (usedRack', lane', rack') =>
        buildWord rest laneLetters rackLetters usedLane usedRack' lane' rack' tileSet
      | None => (false, lane, rack, tileSet)
      end
    end
  end.

(** The state of the lane right after [lane.clear()] and the return of its
    old tiles, before any letter is placed. *)
Definition clearForWord (lane : Lane) (tileSet : TileSet) : Lane * TileSet :=
  let '(oldTiles, lane1) := Lane.clear lane in
  (lane1, TileSet.returnTiles oldTiles tileSet).

(** [playWord(laneIndex, word, laneLetters, rackLetters)] on the lane, the
    enemy rack and the enemy tile set. *)
Definition playWord (w : string) (laneLetters rackLetters : list ascii)
           (lane : Lane) (rack : TileContainer) (tileSet : TileSet)
  : bool * Lane * TileContainer * TileSet :=
  let '(lane1, tileSet1) := clearForWord lane tileSet in
  match buildWord (chars (strToUpperCase w)) laneLetters rackLetters ∅ ∅
                  lane1 rack tileSet1 with
  | (true, lane2, rack2, tileSet2) =>
    (true, Lane.setOwner (Some P2) lane2, rack2, tileSet2)
  | (false, lane2, rack2, tileSet2) => (false, lane2, rack2, tileSet2)
  end.

(** [playBestWord(laneIndex)] on the same three objects. *)
Definition playBestWord (dictionary : DictionarySystem) (difficulty : Z)
           (coins : list bool) (rng : nat -> nat)
           (lane : Lane) (rack : TileContainer) (tileSet : TileSet)
  : bool * Lane * TileContainer * TileSet :=
  let rackLetters := TileContainer.getLetters rack in
  let laneLetters := map letter (Lane.laneTiles lane) in
  let numTiles := calculateNumTiles coins (length rackLetters) in
  let selectedRackLetters := selectRandomLetters rng rackLetters numTiles in
  let allLetters := laneLetters ++ selectedRackLetters in
  match findBestWord dictionary difficulty allLetters laneLetters with
  | None => (false, lane, rack, tileSet)
  | Some w => playWord w laneLetters selectedRackLetters lane rack tileSet
  end.
End AI.

(** ** board.js *)

Inductive Phase := playing | end_turn | combat | post_combat | ai_turn | game_over.

Global Instance Phase_eq_dec : EqDecision Phase.
Proof. solve_decision. Defined.

(** The match state held by [Board].  The canvas, the enemy sprite, the
    restart snapshot and [laneTileCounts] (used only for the provisional
    ownership display) are left out. *)
Record Board := mkBoard {
  currentPlayer : Player;
  state : Phase;
  playerHealth : Z;
  playerMaxHealth : Z;
  enemyHealth : Z;
  enemyMaxHealth : Z;
  mulliganCount : Z;
  hasUsedMulligan : bool;
  playerTileSet : TileSet;
  enemyTileSet : TileSet;
  lanes : list Lane;
  playerRack : TileContainer;
  enemyRack : TileContainer
}.

Module Board.
Definition setState (s : Phase) (b : Board) : Board :=
  {| currentPlayer := currentPlayer b; state := s;
     playerHealth := playerHealth b; playerMaxHealth := playerMaxHealth b;
     enemyHealth := enemyHealth b; enemyMaxHealth := enemyMaxHealth b;
     mulliganCount := mulliganCount b; hasUsedMulligan := hasUsedMulligan b;
     playerTileSet := playerTileSet b; enemyTileSet := enemyTileSet b;
     lanes := lanes b; playerRack := playerRack b; enemyRack := enemyRack b |}.

Definition setPlayerHealth (h m : Z) (b : Board) : Board :=
  {| currentPlayer := currentPlayer b; state := state b;
     playerHealth := h; playerMaxHealth := m;
     enemyHealth := enemyHealth b; enemyMaxHealth := enemyMaxHealth b;
     mulliganCount := mulliganCount b; hasUsedMulligan := hasUsedMulligan b;
     playerTileSet := playerTileSet b; enemyTileSet := enemyTileSet b;
     lanes := lanes b; playerRack := playerRack b; enemyRack := enemyRack b |}.

Definition setEnemyHealth (h : Z) (b : Board) : Board :=
  {| currentPlayer := currentPlayer b; state := state b;
     playerHealth := playerHealth b; playerMaxHealth := playerMaxHealth b;
     enemyHealth := h; enemyMaxHealth := enemyMaxHealth b;
     mulliganCount := mulliganCount b; hasUsedMulligan := hasUsedMulligan b;
     playerTileSet := playerTileSet b; enemyTileSet := enemyTileSet b;
     lanes := lanes b; playerRack := playerRack b; enemyRack := enemyRack b |}.

Definition setMulligan (count : Z) (used : bool) (b : Board) : Board :=
  {| currentPlayer := currentPlayer b; state := state b;
     playerHealth := playerHealth b; playerMaxHealth := playerMaxHealth b;
     enemyHealth := enemyHealth b; enemyMaxHealth := enemyMaxHealth b;
     mulliganCount := count; hasUsedMulligan := used;
     playerTileSet := playerTileSet b; enemyTileSet := enemyTileSet b;
     lanes := lanes b; playerRack := playerRack b; enemyRack := enemyRack b |}.

Definition setLanes (ls : list Lane) (b : Board) : Board :=
  {| currentPlayer := currentPlayer b; state := state b;
     playerHealth := playerHealth b; playerMaxHealth := playerMaxHealth b;
     enemyHealth := enemyHealth b; enemyMaxHealth := enemyMaxHealth b;
     mulliganCount := mulliganCount b; hasUsedMulligan := hasUsedMulligan b;
     playerTileSet := playerTileSet b; enemyTileSet := enemyTileSet b;
     lanes := ls; playerRack := playerRack b; enemyRack := enemyRack b |}.

Definition setPlayerHand (rack : TileContainer) (ts : TileSet) (b : Board) : Board :=
  {| currentPlayer := currentPlayer b; state := state b;
     playerHealth := playerHealth b; playerMaxHealth := playerMaxHealth b;
     enemyHealth := enemyHealth b; enemyMaxHealth := enemyMaxHealth b;
     mulliganCount := mulliganCount b; hasUsedMulligan := hasUsedMulligan b;
     playerTileSet := ts; enemyTileSet := enemyTileSet b;
     lanes := lanes b; playerRack := rack; enemyRack := enemyRack b |}.

Section WithServices.
(** The two module-level singletons the board consults. *)
Variable relicManager : RelicManager.
Variable dictionary : DictionarySystem.

(** The first loop of [fillRack]: one powered draw per required letter
    that the rack did not hold on entry. *)
Definition fillRequired (currentLetters : list ascii) (required : list ascii)
           (rack : TileContainer) (tileSet : TileSet)
  : TileContainer * TileSet :=
  fold_left
    (fun '(rack, tileSet) required =>
       let l := toUpperCase required in
       if negb (bool_decide (l ∈ currentLetters))
          && negb (TileContainer.isFull rack)
       then match TileSet.drawTile (Some l) 0 tileSet with
            | (Some tile, tileSet') =>
              ((TileContainer.addTile tile rack).2, tileSet')
            | (None, tileSet') => (rack, tileSet')
            end
       else (rack, tileSet))
    required (rack, tileSet).

(** The [while (!rack.isFull())] loop of [fillRack]; every iteration
    that does not leave the loop adds one tile, so [maxTiles] rounds
    are enough. *)
Fixpoint fillRandom (rounds : nat) (rng : nat -> nat)
         (rack : TileContainer) (tileSet : TileSet)
  : TileContainer * TileSet :=
  match rounds with
  | 0 => (rack, tileSet)
  | S rounds' =>
    if TileContainer.isFull rack then (rack, tileSet)
    else match TileSet.drawTile None (rng 0) tileSet with
         | (None, tileSet') => (rack, tileSet')
         | (Some tile, tileSet') =>
           fillRandom rounds' (fun n => rng (S n))
                      (TileContainer.addTile tile rack).2 tileSet'
         end
  end.

(** [fillRack(rack, tileSet, playerNumber = 1)] *)
Definition fillRack (rng : nat -> nat) (rack : TileContainer)
           (tileSet : TileSet) (playerNumber : Player)
  : TileContainer * TileSet :=
  let requiredLetters := RelicManager.getRequiredLetters relicManager playerNumber in
  let currentLetters := TileContainer.getLetters rack in
  let '(rack1, tileSet1) := fillRequired currentLetters requiredLetters rack tileSet in
  fillRandom (maxTiles rack1) rng rack1 tileSet1.

(** [dealDamage(target, amount)] *)
Definition dealDamage (target : Player) (amount : Z) (b : Board) : Board :=
  match target with
  | P1 => setPlayerHealth (Z.max 0 (playerHealth b - amount)) (playerMaxHealth b) b
  | P2 => setEnemyHealth (Z.max 0 (enemyHealth b - amount)) b
  end.

(** [lanes[from] -> lanes[to]]: all tiles and the ownership.  An index
    outside the array is a [TypeError] in the source: [None]. *)
Definition moveLaneTiles (fromIndex toIndex : nat) (b : Board) : option Board :=
  fromLane ← lanes b !! fromIndex;
  _ ← lanes b !! toIndex;
  let ownerOfFrom := owner fromLane in
  let '(moved, fromLane') := Lane.clear fromLane in
  let lanes1 := <[fromIndex := fromLane']> (lanes b) in
  toLane ← lanes1 !! toIndex;
  let toLane' :=
    Lane.setOwner ownerOfFrom
      (fold_left (fun l t => (Lane.addTile t l).2) moved toLane) in
  Some (setLanes (<[toIndex := toLane']> lanes1) b).

(** One [if (lanes[to].isEmpty() && !lanes[from].isEmpty())] of [shiftLanes]. *)
Definition shiftInto (fromIndex toIndex : nat) (b : Board) : option Board :=
  toLane ← lanes b !! toIndex;
  if Lane.isEmpty toLane then
    fromLane ← lanes b !! fromIndex;
    if negb (Lane.isEmpty fromLane) then moveLaneTiles fromIndex toIndex b
    else Some b
  else Some b.

(** [shiftLanes()] *)
Definition shiftLanes (b : Board) : option Board :=
  b1 ← shiftInto 1 0 b;
  b2 ← shiftInto 2 1 b1;
  shiftInto 1 0 b2.

(** The test of one lane in [validateAllWords]: [true] when the lane is
    pushed to [invalid]. *)
Definition laneInvalid (player : Player) (lane : Lane) : bool :=
  if negb (Lane.hasNewTiles lane) then false
  else
    let w := Lane.getWord lane in
    if String.length w <? CONFIG.MIN_WORD_LENGTH then true
    else negb (Dictionary.wordExists dictionary w (Some player)).

Fixpoint validateFrom (player : Player) (i : nat) (ls : list Lane) : list nat :=
  match ls with
  | [] => []
  | lane :: rest =>
    if laneInvalid player lane then i :: validateFrom player (S i) rest
    else validateFrom player (S i) rest
  end.

(** [validateAllWords()] *)
Definition validateAllWords (b : Board) : list nat :=
  validateFrom (currentPlayer b) 0 (lanes b).

(** [processSpecialEffects(lane)] for the lane at index [i]. *)
Definition processSpecialEffects (i : nat) (b : Board) : Board :=
  match lanes b !! i with
  | None => b
  | Some lane =>
    let effects := Lane.getSpecialEffects lane in
    let b1 :=
      if (0 <? eff_shield effects)%Z && bool_decide (currentPlayer b = P1)
      then setPlayerHealth (playerHealth b + eff_shield effects)
                           (playerMaxHealth b + eff_shield effects) b
      else b in
    let b2 :=
      if (0 <? eff_heal effects)%Z && bool_decide (currentPlayer b1 = P1)
      then setPlayerHealth
             (Z.min (playerHealth b1 + eff_heal effects) (playerMaxHealth b1))
             (playerMaxHealth b1) b1
      else b1 in
    let b3 :=
      if (0 <? eff_meteor effects)%Z
      then match currentPlayer b2 with
           | P1 => dealDamage P2 (eff_meteor effects) b2
           | P2 => dealDamage P1 (eff_meteor effects) b2
           end
      else b2 in
    let lane' :=
      Lane.setContainer
        (TileContainer.setTiles
           (map (fun t => if bool_decide (type t ≠ STEEL) then setType MAIN t else t)
                (Lane.laneTiles lane))
           (container lane))
        lane in
    setLanes (<[i := lane']> (lanes b3)) b3
  end.

(** What one lane adds to [(playerDamage, enemyDamage)] in
    [processCombat]. *)
Definition combatLane (acc : Z * Z) (lane : Lane) : Z * Z :=
  let w := Lane.getWord lane in
  let baseDamage := Z.of_nat (Lane.calculateDamage lane) in
  if bool_decide (owner lane = Some P1) && (0 <? baseDamage)%Z then
    let mult := RelicManager.getMultResult getWordScoreMult relicManager P1 w in
    let additive := RelicManager.getAdditiveResult getWordScoreAdditive relicManager P1 w in
    let vulnMult := RelicManager.getMultResult getWordVulnerabilityMult relicManager P2 w in
    ((acc.1 + Qfloor ((inject_Z baseDamage * mult + additive) * vulnMult))%Z, acc.2)
  else if bool_decide (owner lane = Some P2) && (0 <? baseDamage)%Z then
    let mult := RelicManager.getMultResult getWordScoreMult relicManager P2 w in
    let additive := RelicManager.getAdditiveResult getWordScoreAdditive relicManager P2 w in
    (acc.1, (acc.2 + Qfloor (inject_Z baseDamage * mult + additive))%Z)
  else acc.

(** The two totals computed by the loop of [processCombat]. *)
Definition combatTotals (b : Board) : Z * Z :=
  fold_left combatLane (lanes b) (0%Z, 0%Z).

(** [processCombat()] *)
Definition processCombat (b : Board) : Board :=
  let '(playerDamage, enemyDamage) := combatTotals b in
  let b1 := if (0 <? playerDamage)%Z then dealDamage P2 playerDamage b else b in
  if (0 <? enemyDamage)%Z then dealDamage P1 enemyDamage b1 else b1.

(** [mulligan(fullMulligan = false)] *)
Definition mulligan (fullMulligan : bool) (rng : nat -> nat) (b : Board) : Board :=
  if bool_decide (currentPlayer b ≠ P1) then b
  else
    let '(returned, rack1) := TileContainer.clear (playerRack b) in
    let tileSet1 := TileSet.returnTiles returned (playerTileSet b) in
    let '(rack2, tileSet2) := fillRack rng rack1 tileSet1 P1 in
    let b1 := setPlayerHand rack2 tileSet2 b in
    if negb fullMulligan
    then setMulligan (mulliganCount b1 - 1) true b1
    else b1.

(** The body of the ownership loop of [endTurn] for lane [i]. *)
Definition acceptLane (b : Board) (i : nat) : Board :=
  match lanes b !! i with
  | None => b
  | Some lane =>
    let b1 :=
      if Lane.hasNewTiles lane
      then processSpecialEffects i
             (setLanes (<[i := Lane.setOwner (Some (currentPlayer b)) lane]> (lanes b)) b)
      else b in
    setLanes (alter Lane.clearTemporaryOwner i (lanes b1)) b1
  end.

(** [endTurn()]: the result, the lanes whose tiles were handed to
    [animationManager.shake], and the board afterwards. *)
Definition endTurn (rng : nat -> nat) (b : Board) : bool * list nat * Board :=
  if bool_decide (state b ≠ playing) then (false, [], b)
  else
    let invalidLanes := validateAllWords b in
    if 0 <? length invalidLanes then (false, invalidLanes, b)
    else
      let b1 := fold_left acceptLane (seq 0 (length (lanes b))) b in
      let b2 :=
        if TileContainer.isFull (playerRack b1)
           && bool_decide (currentPlayer b1 = P1)
        then mulligan true rng b1
        else let '(rack, tileSet) :=
                 fillRack rng (playerRack b1) (playerTileSet b1) P1 in
             setPlayerHand rack tileSet b1 in
      (true, [], setState end_turn b2).

(** [checkGameOver()] *)
Definition checkGameOver (b : Board) : option string :=
  if (playerHealth b <=? 0)%Z then Some "lose"%string
  else if (enemyHealth b <=? 0)%Z then Some "win"%string
  else None.

End WithServices.
End Board.

(** * Auxiliary definitions for the statements *)

(** A sequence of the four mutating operations applied to one container. *)
Inductive ContainerOp :=
| OpAdd (t : Tile)
| OpInsert (t : Tile) (index : Z)
| OpRemove (index : Z)
| OpClear.

Definition containerStep (c : TileContainer) (o : ContainerOp) : TileContainer :=
  match o with
  | OpAdd t => (TileContainer.addTile t c).2
  | OpInsert t i => (TileContainer.insertTileAt t i c).2
  | OpRemove i => (TileContainer.removeTile i c).2
  | OpClear => (TileContainer.clear c).2
  end.

Definition runOps (ops : list ContainerOp) (c : TileContainer) : TileContainer :=
  fold_left containerStep ops c.

(** Events that touch the health pools, for sequences of them. *)
Inductive HealthEvent :=
| EvCombat
| EvSpecialEffects (laneIndex : nat)
| EvDealDamage (target : Player) (amount : Z).

Definition applyEvent (relicManager : RelicManager) (b : Board) (e : HealthEvent)
  : Board :=
  match e with
  | EvCombat => Board.processCombat relicManager b
  | EvSpecialEffects i => Board.processSpecialEffects i b
  | EvDealDamage target amount => Board.dealDamage target amount b
  end.

(** A board with the constructor's health, allowance, phase, lanes and racks.
    The tile sets are left empty: no statement below draws from the shuffled
    pool the constructor builds. *)
Definition blankBoard : Board :=
  {| currentPlayer := P1; state := playing;
     playerHealth := CONFIG.STARTING_HEALTH;
     playerMaxHealth := CONFIG.STARTING_HEALTH;
     enemyHealth := CONFIG.STARTING_HEALTH;
     enemyMaxHealth := CONFIG.STARTING_HEALTH;
     mulliganCount := CONFIG.MULLIGAN_COUNT; hasUsedMulligan := false;
     playerTileSet := {| persistentTiles := []; remainingTiles := [] |};
     enemyTileSet := {| persistentTiles := []; remainingTiles := [] |};
     lanes := map Lane.new (seq 0 CONFIG.LANE_COUNT);
     playerRack := Rack.new P1; enemyRack := Rack.new P2 |}.


Definition withinCapacity (c : TileContainer) : Prop :=
  length (tiles c) ≤ maxTiles c.

(** What every stage of a refill keeps: the capacity field, the tiles
    already in the rack, and the total of rack and pool. *)
Definition refillStep (rack : TileContainer) (ts : TileSet)
           (rack' : TileContainer) (ts' : TileSet) : Prop :=
  maxTiles rack' = maxTiles rack
  ∧ tiles rack `prefix_of` tiles rack'
  ∧ length (tiles rack') + length (remainingTiles ts')
    = length (tiles rack) + length (remainingTiles ts)
  ∧ (withinCapacity rack → withinCapacity rack')
  ∧ (remainingTiles ts = [] → rack' = rack ∧ ts' = ts).

Definition addAll (moved : list Tile) (l : Lane) : Lane :=
  fold_left (λ l t, (Lane.addTile t l).2) moved l.

(** The lane that receives the tiles and the ownership of [src]. *)
Definition receive (src dst : Lane) : Lane :=
  Lane.setOwner (owner src) (addAll (Lane.laneTiles src) dst).

(** The outcome of one conditional move on three lanes. *)
Definition shifted (src dst : Lane) : Lane * Lane :=
  if Lane.isEmpty dst && negb (Lane.isEmpty src)
  then ((Lane.clear src).2, receive src dst)
  else (src, dst).

Definition tileCount (ls : list Lane) : nat :=
  foldr (λ l n, length (Lane.laneTiles l) + n) 0 ls.

(** A board as the constructor leaves it, with some tiles in lanes 1 and 2
    and none in lane 0. *)
Definition shiftExample : Board :=
  Board.setLanes
    [Lane.new 0;
     Lane.setOwner (Some P2)
       (Lane.setContainer
          (TileContainer.setTiles [mkTile "O" MAIN; mkTile "X" MAIN]
                                  (TileContainer.new CONFIG.LANE_MAX_TILES))
          (Lane.new 1));
     Lane.setOwner (Some P1)
       (Lane.setContainer
          (TileContainer.setTiles [mkTile "A" MAIN; mkTile "N" MAIN; mkTile "T" MAIN]
                                  (TileContainer.new CONFIG.LANE_MAX_TILES))
          (Lane.new 2))]
    blankBoard.

(** What the letter loop keeps and what it moves. *)
Record Built (ls : list ascii) (lane : Lane) (rack : TileContainer) (ts : TileSet)
       (ok : bool) (lane' : Lane) (rack' : TileContainer) (ts' : TileSet) : Prop :=
  { built_owner : owner lane' = owner lane;
    built_temporaryOwner : temporaryOwner lane' = temporaryOwner lane;
    built_capacity : maxTiles (container lane') = maxTiles (container lane);
    built_rack_capacity : maxTiles rack' = maxTiles rack;
    built_persistent : persistentTiles ts' = persistentTiles ts;
    built_count :
      length (Lane.laneTiles lane) + length ls ≤ maxTiles (container lane) →
      length (Lane.laneTiles lane') + length (tiles rack')
        + length (remainingTiles ts')
      = length (Lane.laneTiles lane) + length (tiles rack)
        + length (remainingTiles ts);
    built_letters :
      length (Lane.laneTiles lane) + length ls ≤ maxTiles (container lane) →
      Forall (λ c, toUpperCase c = c) ls →
      ∃ k, map letter (Lane.laneTiles lane')
           = map letter (Lane.laneTiles lane) ++ take k ls
           ∧ (if ok then k = length ls else k < length ls) }.


(** A lane holding the player's word AT, an enemy rack holding E and B, a
    pool with one spare tile, and a one-word dictionary. *)
Definition laneAT : Lane :=
  Lane.setOwner (Some P1)
    (Lane.setContainer
       (TileContainer.setTiles [mkTile "A" MAIN; mkTile "T" MAIN]
                               (TileContainer.new CONFIG.LANE_MAX_TILES))
       (Lane.new 0)).

Definition rackEB : TileContainer :=
  TileContainer.setTiles [mkTile "E" MAIN; mkTile "B" MAIN] (Rack.new P2).

Definition poolZ : TileSet :=
  {| persistentTiles := []; remainingTiles := [mkTileData "Z" None] |}.

Definition dictBeat : DictionarySystem :=
  {| mainDictionary := [Dictionary.makeEntry "beat"]; playerWords := λ _, [] |}.

(** The random source that makes [selectRandomLetters] pick B before E. *)
Definition pickSecondFirst (n : nat) : nat :=
  match n with 0 => 1 | _ => 0 end.

(** The health pools and the player's maximum are not negative. *)
Definition healthy (b : Board) : Prop :=
  (0 ≤ playerHealth b)%Z ∧ (0 ≤ enemyHealth b)%Z ∧ (0 ≤ playerMaxHealth b)%Z.

(** A board with a powered lane, one point of player health left and an
    enemy at two. *)
Definition lowHealthBoard : Board :=
  {| currentPlayer := P1; state := playing;
     playerHealth := 1; playerMaxHealth := 30;
     enemyHealth := 2; enemyMaxHealth := 15;
     mulliganCount := 3; hasUsedMulligan := false;
     playerTileSet := {| persistentTiles := []; remainingTiles := [] |};
     enemyTileSet := {| persistentTiles := []; remainingTiles := [] |};
     lanes :=
       [Lane.setContainer
          (TileContainer.setTiles
             [mkTile "Z" GOLD; mkTile "A" GOLD; mkTile "P" GOLD; mkTile "S" ICE]
             (TileContainer.new CONFIG.LANE_MAX_TILES))
          (Lane.new 0);
        Lane.setOwner (Some P2)
          (Lane.setContainer
             (TileContainer.setTiles [mkTile "O" MAIN; mkTile "X" MAIN]
                                     (TileContainer.new CONFIG.LANE_MAX_TILES))
             (Lane.new 1));
        Lane.new 2];
     playerRack := Rack.new P1; enemyRack := Rack.new P2 |}.

(** The amount the specification gives for a lane owned by [side]:
    [floor((tileCount * mult + additive) * vulnerability)], with the owning
    side's score multiplier and additive and the opposing side's
    vulnerability multiplier for the lane's word. *)
Definition specLaneDamage (rm : RelicManager) (side : Player) (lane : Lane) : Z :=
  let w := Lane.getWord lane in
  Qfloor ((inject_Z (Z.of_nat (length (Lane.laneTiles lane)))
           * RelicManager.getMultResult getWordScoreMult rm side w
           + RelicManager.getAdditiveResult getWordScoreAdditive rm side w)
          * RelicManager.getMultResult getWordVulnerabilityMult rm (opponent side) w)%Q.

(** The same without the vulnerability factor. *)
Definition unscaledLaneDamage (rm : RelicManager) (side : Player) (lane : Lane) : Z :=
  let w := Lane.getWord lane in
  Qfloor (inject_Z (Z.of_nat (length (Lane.laneTiles lane)))
          * RelicManager.getMultResult getWordScoreMult rm side w
          + RelicManager.getAdditiveResult getWordScoreAdditive rm side w)%Q.

(** A lane with a nonzero tile count owned by [side]. *)
Definition scoringLane (side : Player) (lane : Lane) : bool :=
  bool_decide (owner lane = Some side)
  && negb (length (Lane.laneTiles lane) =? 0).

(** Sum over the scoring lanes of one side. *)
Definition sideDamage (amount : Lane → Z) (side : Player) (ls : list Lane) : Z :=
  foldr (λ lane total, ((if scoringLane side lane then amount lane else 0) + total)%Z)
        0%Z ls.

(** The health pools after the two totals are applied as [processCombat]
    applies them. *)
Definition applyTotals (playerDamage enemyDamage : Z) (b : Board) : Board :=
  Board.setPlayerHealth
    (if (0 <? enemyDamage)%Z then Z.max 0 (playerHealth b - enemyDamage)
     else playerHealth b)
    (playerMaxHealth b)
    (Board.setEnemyHealth
       (if (0 <? playerDamage)%Z then Z.max 0 (enemyHealth b - playerDamage)
        else enemyHealth b)
       b).

Definition laneWith (i : nat) (p : Player) (ts : list Tile) : Lane :=
  Lane.setOwner (Some p)
    (Lane.setContainer
       (TileContainer.setTiles ts (TileContainer.new CONFIG.LANE_MAX_TILES))
       (Lane.new i)).

Definition tilesANT : list Tile :=
  [mkTile "A" MAIN; mkTile "N" MAIN; mkTile "T" MAIN].

(** Scenario 4: the player holds the Alpha relic and owns the lane ANT. *)
Definition alphaManager : RelicManager :=
  (RelicManager.activateRelic "Alpha" P1 RelicManager.relicManager).2.

Definition alphaBoard : Board :=
  Board.setLanes [laneWith 0 P1 tilesANT; Lane.new 1; Lane.new 2] blankBoard.

(** The enemy owns the lane ANT while the "Bug Words" weakness is active on
    the player's side. *)
Definition bugManager : RelicManager :=
  (RelicManager.activateRelic "Bug Words" P1 RelicManager.relicManager).2.

Definition bugBoard : Board :=
  Board.setLanes [laneWith 0 P2 tilesANT; Lane.new 1; Lane.new 2] blankBoard.

(** [returnTile]'s encoding of a tile in the draw pile. *)
Definition tileData (t : Tile) : TileData :=
  {| td_letter := letter t; td_power := TileSet.getPowerForTileType (type t) |}.

Definition plainTiles (w : string) : list Tile :=
  map (λ c, mkTile c MAIN) (chars w).

Definition plainPool (w : string) : TileSet :=
  {| persistentTiles := []; remainingTiles := map (λ c, mkTileData c None) (chars w) |}.

(** The opponent is to move; the player's hand and pool are as in play. *)
Definition opponentToMove : Board :=
  {| currentPlayer := P2; state := ai_turn;
     playerHealth := 30; playerMaxHealth := 30;
     enemyHealth := 15; enemyMaxHealth := 15;
     mulliganCount := 3; hasUsedMulligan := false;
     playerTileSet := plainPool "EEEEAAIIOONNRRTTLSUD";
     enemyTileSet := plainPool "EEEEAAIIOONNRRTTLSUD";
     lanes := [Lane.new 0; Lane.new 1; Lane.new 2];
     playerRack := TileContainer.setTiles (plainTiles "QXZJKVW") (Rack.new P1);
     enemyRack := TileContainer.setTiles (plainTiles "CATSDOG") (Rack.new P2) |}.

(** The same board with the player to move. *)
Definition playerToMove : Board :=
  Board.setState playing
    {| currentPlayer := P1; state := state opponentToMove;
       playerHealth := playerHealth opponentToMove;
       playerMaxHealth := playerMaxHealth opponentToMove;
       enemyHealth := enemyHealth opponentToMove;
       enemyMaxHealth := enemyMaxHealth opponentToMove;
       mulliganCount := mulliganCount opponentToMove;
       hasUsedMulligan := hasUsedMulligan opponentToMove;
       playerTileSet := playerTileSet opponentToMove;
       enemyTileSet := enemyTileSet opponentToMove;
       lanes := lanes opponentToMove;
       playerRack := playerRack opponentToMove;
       enemyRack := enemyRack opponentToMove |}.

(** What a mulligan may change, and the sizes of the hand and the pool. *)
Definition mulliganView (b : Board) : Z * bool * nat * nat :=
  (mulliganCount b, hasUsedMulligan b, length (tiles (playerRack b)),
   length (remainingTiles (playerTileSet b))).

(** A lane is offending when it gained tiles this turn and its word is too
    short or unknown to the acting side. *)
Definition offending (dictionary : DictionarySystem) (player : Player)
           (lane : Lane) : Prop :=
  startTurnTileCount lane < length (Lane.laneTiles lane)
  ∧ (String.length (Lane.getWord lane) < CONFIG.MIN_WORD_LENGTH
     ∨ Dictionary.wordExists dictionary (Lane.getWord lane) (Some player) = false).

Definition dictCat : DictionarySystem :=
  {| mainDictionary := [Dictionary.makeEntry "cat"; Dictionary.makeEntry "act"];
     playerWords := λ _, [] |}.

(** The player has placed XQ in lane 0 and CAT in lane 1 this turn; lane 2
    holds the enemy's older word ZZ. *)
Definition badSubmit : Board :=
  {| currentPlayer := P1; state := playing;
     playerHealth := 30; playerMaxHealth := 30;
     enemyHealth := 15; enemyMaxHealth := 15;
     mulliganCount := 3; hasUsedMulligan := false;
     playerTileSet := plainPool "EEEEAAIIOONNRRTTLSUD";
     enemyTileSet := plainPool "EEEEAAIIOONNRRTTLSUD";
     lanes :=
       [Lane.setTemporaryOwner (Some P1)
          (Lane.setContainer
             (TileContainer.setTiles (plainTiles "XQ")
                                     (TileContainer.new CONFIG.LANE_MAX_TILES))
             (Lane.new 0));
        Lane.setTemporaryOwner (Some P1)
          (Lane.setContainer
             (TileContainer.setTiles (plainTiles "CAT")
                                     (TileContainer.new CONFIG.LANE_MAX_TILES))
             (Lane.new 1));
        Lane.saveTurnStartState (laneWith 2 P2 (plainTiles "ZZ"))];
     playerRack := TileContainer.setTiles (plainTiles "EI") (Rack.new P1);
     enemyRack := TileContainer.setTiles (plainTiles "CATSDOG") (Rack.new P2) |}.

(** Only the health pools and the contents of the lanes may differ. *)
Definition sameButHealthAndLanes (b b' : Board) : Prop :=
  currentPlayer b' = currentPlayer b ∧ state b' = state b
  ∧ mulliganCount b' = mulliganCount b ∧ hasUsedMulligan b' = hasUsedMulligan b
  ∧ playerRack b' = playerRack b ∧ playerTileSet b' = playerTileSet b
  ∧ enemyRack b' = enemyRack b ∧ enemyTileSet b' = enemyTileSet b
  ∧ length (lanes b') = length (lanes b).

(** ** The word search, in the words of its description *)

Definition occurrences (c : ascii) (ls : list ascii) : nat :=
  count_occ ascii_dec ls c.







Definition dictWords : DictionarySystem :=
  {| mainDictionary := map Dictionary.makeEntry
                           ["at"; "tea"; "cat"; "eat"; "late"; "tale"; "zebra"]%string;
     playerWords := λ _, [] |}.

(** * Auxiliary definitions for the further properties *)

(** The letter of a pool entry is already upper case, as every letter pushed
    by [initializePersistentCollection], [addPoweredTiles] and [returnTile]
    is. *)
Definition upperLetter (d : TileData) : Prop :=
  toUpperCase (td_letter d) = td_letter d.

(** The persistent collection that [initializePersistentCollection] builds
    before it shuffles. *)
Definition initialTiles : list TileData :=
  flat_map (λ '(l, count),
              replicate count {| td_letter := toUpperCase l; td_power := None |})
           TileSet.LETTER_DISTRIBUTION.

(** How many stored tiles carry the letter [c]. *)
Definition letterCount (c : ascii) (l : list TileData) : nat :=
  length (filter (λ d, td_letter d = c) l).

(** The letters a-z of a string, in lower case: what [getLetterCounts]
    counts. *)
Definition lettersAZ (cs : list ascii) : list ascii :=
  filter (λ c, Relics.isAZ c = true) (map toLowerCase cs).

(** The tests of [findValidWords] on one entry. *)
Definition validEntry (available required : gmap ascii nat) (minLength : nat)
           (e : Entry) : bool :=
  negb (String.length (word e) <? minLength)
  && Dictionary.countsCovered required (letters e)
  && Dictionary.countsCovered (letters e) available.

(** Every relic of the registry is stored under its own name, as
    [registerRelic] does. *)
Definition keyedByName (rm : RelicManager) : Prop :=
  ∀ n r, relics rm !! n = Some r → name r = n.

(** A relic that can only add to a word's damage. *)
Definition neverWeakens (r : Relic) : Prop :=
  ∀ w, (1 <= getWordScoreMult r w)%Q
       ∧ (0 <= getWordScoreAdditive r w)%Q
       ∧ (1 <= getWordVulnerabilityMult r w)%Q.

(** What the ownership loop of [endTurn] makes of one lane for the acting
    side [p]. *)
Definition accepted (p : Player) (lane : Lane) : Lane :=
  Lane.clearTemporaryOwner
    (if Lane.hasNewTiles lane then Lane.setOwner (Some p) lane else lane).

(** The player has placed CAT in lane 0 this turn, with a flower tile and a
    gold tile in it, and holds a full rack. *)
Definition goodSubmit : Board :=
  {| currentPlayer := P1; state := playing;
     playerHealth := 20; playerMaxHealth := 30;
     enemyHealth := 15; enemyMaxHealth := 15;
     mulliganCount := 3; hasUsedMulligan := false;
     playerTileSet := plainPool "EEEEAAIIOONNRRTTLSUD";
     enemyTileSet := plainPool "EEEEAAIIOONNRRTTLSUD";
     lanes :=
       [Lane.setTemporaryOwner (Some P1)
          (Lane.setContainer
             (TileContainer.setTiles
                [mkTile "C" MAIN; mkTile "A" FLOWER; mkTile "T" GOLD]
                (TileContainer.new CONFIG.LANE_MAX_TILES))
             (Lane.new 0));
        Lane.new 1;
        Lane.saveTurnStartState (laneWith 2 P2 (plainTiles "ACT"))];
     playerRack := TileContainer.setTiles (plainTiles "EI") (Rack.new P1);
     enemyRack := TileContainer.setTiles (plainTiles "CATSDOG") (Rack.new P2) |}.

(** * Properties *)

(** ** Tile containers *)

Section ContainerFacts.
Import TileContainer.


Lemma isFull_true (c : TileContainer) :
  isFull c = true ↔ maxTiles c ≤ length (tiles c).
Proof. unfold isFull. apply Nat.leb_le. Qed.

Lemma isFull_false (c : TileContainer) :
  isFull c = false ↔ length (tiles c) < maxTiles c.
Proof. unfold isFull. rewrite Nat.leb_gt. reflexivity. Qed.

Lemma addTile_full t c : isFull c = true → addTile t c = (false, c).
Proof. unfold addTile, isFull. intros ->. reflexivity. Qed.

Lemma addTile_room t c :
  isFull c = false → addTile t c = (true, setTiles (tiles c ++ [t]) c).
Proof. unfold addTile, isFull. intros ->. reflexivity. Qed.

Lemma insertTileAt_full t i c : isFull c = true → insertTileAt t i c = (false, c).
Proof. unfold insertTileAt, isFull. intros ->. reflexivity. Qed.

Lemma clampIndex_range i c :
  (0 ≤ clampIndex i c ≤ Z.of_nat (length (tiles c)))%Z.
Proof. unfold clampIndex. lia. Qed.

Lemma clampIndex_inside i c :
  (0 ≤ i ≤ Z.of_nat (length (tiles c)))%Z → clampIndex i c = i.
Proof. unfold clampIndex. lia. Qed.

Lemma length_splice_in k t l :
  k ≤ length l → length (splice_in k t l) = S (length l).
Proof.
  intros Hk. unfold splice_in.
  rewrite length_app, length_take_le by lia. simpl.
  rewrite length_drop. lia.
Qed.

Lemma insertTileAt_room t i c :
  isFull c = false →
  ∃ k, Z.of_nat k = clampIndex i c ∧ k ≤ length (tiles c) ∧
       insertTileAt t i c =
       (true, {| tiles := take k (tiles c) ++ t :: drop k (tiles c);
                 maxTiles := maxTiles c; gapIndex := (-1)%Z |}).
Proof.
  intros Hfull. pose proof (clampIndex_range i c) as Hr.
  exists (Z.to_nat (clampIndex i c)). split; [lia|]. split; [lia|].
  unfold insertTileAt. unfold isFull in Hfull. rewrite Hfull. reflexivity.
Qed.

Lemma removeTile_outside i c :
  (i < 0 ∨ Z.of_nat (length (tiles c)) ≤ i)%Z → removeTile i c = (None, c).
Proof.
  intros H. unfold removeTile.
  destruct (i <? 0)%Z eqn:E1; [reflexivity|].
  destruct (Z.of_nat (length (tiles c)) <=? i)%Z eqn:E2; [reflexivity|].
  lia.
Qed.

Lemma removeTile_inside i c :
  (0 ≤ i < Z.of_nat (length (tiles c)))%Z →
  removeTile i c =
  (tiles c !! Z.to_nat i, setTiles (delete (Z.to_nat i) (tiles c)) c).
Proof.
  intros H. unfold removeTile.
  destruct (i <? 0)%Z eqn:E1; [lia|].
  destruct (Z.of_nat (length (tiles c)) <=? i)%Z eqn:E2; [lia|].
  reflexivity.
Qed.

Lemma removeTile_length i c :
  length (tiles (removeTile i c).2) ≤ length (tiles c).
Proof.
  unfold removeTile.
  destruct ((i <? 0)%Z || (Z.of_nat (length (tiles c)) <=? i)%Z)%bool; simpl;
    [lia|].
  rewrite delete_take_drop, length_app, length_take, length_drop. lia.
Qed.

Lemma step_maxTiles c o : maxTiles (containerStep c o) = maxTiles c.
Proof.
  destruct o as [t|t i|i|]; simpl; try reflexivity.
  - unfold addTile. destruct (maxTiles c <=? length (tiles c)); reflexivity.
  - unfold insertTileAt. destruct (maxTiles c <=? length (tiles c)); reflexivity.
  - unfold removeTile.
    destruct ((i <? 0)%Z || (Z.of_nat (length (tiles c)) <=? i)%Z)%bool;
      reflexivity.
Qed.

Lemma step_withinCapacity c o :
  withinCapacity c → withinCapacity (containerStep c o).
Proof.
  unfold withinCapacity. intros Hc. rewrite step_maxTiles.
  destruct o as [t|t i|i|]; simpl.
  - unfold addTile. destruct (maxTiles c <=? length (tiles c)) eqn:E; simpl;
      [lia|]. apply Nat.leb_gt in E. rewrite length_app. simpl. lia.
  - unfold insertTileAt. destruct (maxTiles c <=? length (tiles c)) eqn:E; simpl;
      [lia|]. apply Nat.leb_gt in E.
    pose proof (clampIndex_range i c).
    rewrite length_splice_in by lia. lia.
  - pose proof (removeTile_length i c). lia.
  - lia.
Qed.

Lemma run_withinCapacity ops c :
  withinCapacity c →
  withinCapacity (runOps ops c) ∧ maxTiles (runOps ops c) = maxTiles c.
Proof.
  revert c. induction ops as [|o ops IH]; intros c Hc; simpl; [auto|].
  destruct (IH (containerStep c o) (step_withinCapacity c o Hc)) as [H1 H2].
  split; [exact H1|]. rewrite H2. apply step_maxTiles.
Qed.
End ContainerFacts.

(** C7. Starting from a freshly constructed container of capacity [cap], after
    any sequence of [addTile], [insertTileAt], [removeTile] and [clear] the
    tile count is at most [cap]; on a full container [addTile] and
    [insertTileAt] answer [false] and change nothing; [insertTileAt] on a
    container with room inserts at the index clamped into [0, length]; and
    [removeTile] at a valid index yields the tile there and closes the
    sequence up: earlier positions keep their tile, later ones move down by
    one, and the length drops by exactly one. *)
Theorem container_capacity_invariant :
  ∀ (cap : nat) (ops : list ContainerOp),
    let c := runOps ops (TileContainer.new cap) in
    length (tiles c) ≤ cap
    ∧ maxTiles c = cap
    ∧ (∀ t, TileContainer.isFull c = true → TileContainer.addTile t c = (false, c))
    ∧ (∀ t i, TileContainer.isFull c = true →
              TileContainer.insertTileAt t i c = (false, c))
    ∧ (∀ t i, TileContainer.isFull c = false →
         ∃ k, k ≤ length (tiles c)
              ∧ Z.of_nat k = Z.max 0 (Z.min i (Z.of_nat (length (tiles c))))
              ∧ ((0 ≤ i ≤ Z.of_nat (length (tiles c)))%Z → Z.of_nat k = i)
              ∧ (TileContainer.insertTileAt t i c).1 = true
              ∧ tiles (TileContainer.insertTileAt t i c).2
                = take k (tiles c) ++ t :: drop k (tiles c))
    ∧ (∀ i, (i < 0 ∨ Z.of_nat (length (tiles c)) ≤ i)%Z →
            TileContainer.removeTile i c = (None, c))
    ∧ (∀ j, j < length (tiles c) →
         let r := TileContainer.removeTile (Z.of_nat j) c in
         r.1 = tiles c !! j
         ∧ S (length (tiles r.2)) = length (tiles c)
         ∧ (∀ n, n < j → tiles r.2 !! n = tiles c !! n)
         ∧ (∀ n, j ≤ n → tiles r.2 !! n = tiles c !! S n)).
Proof.
  intros cap ops c.
  assert (Hinv : withinCapacity c ∧ maxTiles c = cap).
  { subst c. apply (run_withinCapacity ops (TileContainer.new cap)).
    unfold withinCapacity. simpl. lia. }
  destruct Hinv as [Hcap Hmax]. unfold withinCapacity in Hcap.
  split; [lia|]. split; [exact Hmax|].
  split; [intros t; apply addTile_full|].
  split; [intros t i; apply insertTileAt_full|].
  split.
  { intros t i Hroom.
    destruct (insertTileAt_room t i c Hroom) as (k & Hk & Hle & Heq).
    exists k. split; [exact Hle|]. split; [exact Hk|].
    split; [intros Hi; rewrite Hk; apply clampIndex_inside; exact Hi|].
    rewrite Heq. split; reflexivity. }
  split; [intros i; apply removeTile_outside|].
  intros j Hj r. subst r.
  rewrite removeTile_inside by lia. rewrite Nat2Z.id. simpl.
  split; [reflexivity|].
  split.
  { rewrite length_delete; [lia|]. apply lookup_lt_is_Some. exact Hj. }
  split.
  - intros n Hn. apply list_lookup_delete_lt. exact Hn.
  - intros n Hn. apply list_lookup_delete_ge. exact Hn.
Qed.

(** A container of capacity 2: the third [addTile] and the [insertTileAt] on
    the full container are refused, and after a removal the insertion at
    index 99 lands at the end. *)
Example container_ops_on_example :
  let a := mkTile "A" MAIN in
  let b := mkTile "B" MAIN in
  let c := mkTile "C" MAIN in
  let d := mkTile "D" MAIN in
  map (λ ops, tiles (runOps ops (TileContainer.new 2)))
      [[OpAdd a; OpAdd b; OpAdd c];
       [OpAdd a; OpAdd b; OpInsert d 0];
       [OpAdd a; OpAdd b; OpRemove 0; OpInsert d 99];
       [OpAdd a; OpInsert d (-3); OpClear; OpAdd c]]
  = [[a; b]; [a; b]; [b; d]; [c]].
Proof. reflexivity. Qed.

(** ** The tile pool *)

Section TileSetFacts.
Import TileSet.

Lemma toUpperCase_idemp c : toUpperCase (toUpperCase c) = toUpperCase c.
Proof. destruct c as [[] [] [] [] [] [] [] []]; reflexivity. Qed.

Lemma findIndex_Some {A} (p : A → bool) l i :
  findIndex p l = Some i →
  ∃ x, l !! i = Some x ∧ p x = true
       ∧ ∀ j y, j < i → l !! j = Some y → p y = false.
Proof.
  revert i. induction l as [|a l IH]; intros i; simpl; [discriminate|].
  destruct (p a) eqn:Ea.
  - intros [= <-]. exists a. repeat split; auto. intros j y Hj; lia.
  - destruct (findIndex p l) as [k|] eqn:Ek; simpl; [|discriminate].
    intros [= <-]. destruct (IH k eq_refl) as (x & Hx & Hp & Hlt).
    exists x. repeat split; auto.
    intros [|j] y Hj; simpl.
    + intros [= <-]. exact Ea.
    + apply Hlt. lia.
Qed.

Lemma findIndex_None {A} (p : A → bool) l :
  findIndex p l = None ↔ Forall (λ x, p x = false) l.
Proof.
  induction l as [|a l IH]; simpl.
  - split; [constructor|reflexivity].
  - destruct (p a) eqn:Ea.
    + split; [discriminate|]. intros H. inversion H; congruence.
    + destruct (findIndex p l) eqn:Ek; simpl.
      * split; [discriminate|]. intros H. inversion H; subst.
        apply IH in H3. discriminate.
      * split; [|reflexivity]. intros _. constructor; [exact Ea|].
        apply IH. reflexivity.
Qed.

Lemma drawTile_empty l r ts :
  remainingTiles ts = [] → drawTile l r ts = (None, ts).
Proof. unfold drawTile. intros ->. reflexivity. Qed.

Lemma drawTile_absent l r ts :
  Forall (λ d, toUpperCase (td_letter d) ≠ toUpperCase l) (remainingTiles ts) →
  drawTile (Some l) r ts = (None, ts).
Proof.
  intros Hall. unfold drawTile.
  destruct (remainingTiles ts) as [|d rest] eqn:E; [reflexivity|].
  assert (findIndex (matchesLetter l) (d :: rest) = None) as ->; [|reflexivity].
  apply findIndex_None. eapply Forall_impl; [exact Hall|].
  intros x Hx. unfold matchesLetter. apply bool_decide_eq_false. exact Hx.
Qed.

Lemma letter_createTileFromData d :
  letter (createTileFromData d) = toUpperCase (td_letter d).
Proof. unfold createTileFromData. destruct (td_power d); reflexivity. Qed.

Lemma split_at_lookup {A} (l : list A) i x :
  l !! i = Some x →
  l = take i l ++ x :: drop (S i) l ∧ delete i l = take i l ++ drop (S i) l
  ∧ length (take i l) = i.
Proof.
  intros H. split; [symmetry; apply take_drop_middle; exact H|].
  split; [apply delete_take_drop|].
  apply length_take_le. apply lookup_lt_Some in H. lia.
Qed.

Lemma drawTile_present l r ts :
  Exists (λ d, toUpperCase (td_letter d) = toUpperCase l) (remainingTiles ts) →
  ∃ pre d post,
    remainingTiles ts = pre ++ d :: post
    ∧ toUpperCase (td_letter d) = toUpperCase l
    ∧ Forall (λ d', toUpperCase (td_letter d') ≠ toUpperCase l) pre
    ∧ drawTile (Some l) r ts
      = (Some (createTileFromData d), setRemaining (pre ++ post) ts).
Proof.
  intros Hex. unfold drawTile.
  destruct (remainingTiles ts) as [|d0 rest] eqn:E.
  { inversion Hex. }
  destruct (findIndex (matchesLetter l) (d0 :: rest)) as [i|] eqn:Ei.
  - destruct (findIndex_Some _ _ _ Ei) as (d & Hd & Hp & Hlt).
    destruct (split_at_lookup _ _ _ Hd) as (Hsplit & Hdel & Hlen).
    exists (take i (d0 :: rest)), d, (drop (S i) (d0 :: rest)).
    split; [exact Hsplit|].
    split; [unfold matchesLetter in Hp; apply bool_decide_eq_true in Hp; exact Hp|].
    split.
    + apply Forall_forall. intros y Hy.
      apply list_elem_of_lookup in Hy as [j Hj].
      pose proof (lookup_lt_Some _ _ _ Hj) as Hjlt. rewrite Hlen in Hjlt.
      rewrite lookup_take_lt in Hj by lia.
      specialize (Hlt j y Hjlt Hj). unfold matchesLetter in Hlt.
      apply bool_decide_eq_false in Hlt. exact Hlt.
    + rewrite Hd, Hdel. reflexivity.
  - apply findIndex_None in Ei. exfalso.
    apply Exists_exists in Hex as (y & Hy & Hyl).
    rewrite Forall_forall in Ei. specialize (Ei y Hy).
    unfold matchesLetter in Ei. apply bool_decide_eq_false in Ei. auto.
Qed.

(** Either nothing is drawn and the pool is untouched, or exactly one
    entry leaves the pool. *)
Lemma drawTile_cases l r ts :
  drawTile l r ts = (None, ts)
  ∨ ∃ pre d post,
      remainingTiles ts = pre ++ d :: post
      ∧ drawTile l r ts
        = (Some (createTileFromData d), setRemaining (pre ++ post) ts).
Proof.
  unfold drawTile. destruct (remainingTiles ts) as [|d0 rest] eqn:E; [left; reflexivity|].
  destruct l as [l|].
  - destruct (findIndex (matchesLetter l) (d0 :: rest)) as [i|] eqn:Ei;
      [|left; reflexivity].
    destruct (findIndex_Some _ _ _ Ei) as (d & Hd & _ & _).
    destruct (split_at_lookup _ _ _ Hd) as (Hsplit & Hdel & _).
    right. exists (take i (d0 :: rest)), d, (drop (S i) (d0 :: rest)).
    split; [exact Hsplit|]. rewrite Hd, Hdel. reflexivity.
  - assert (Hlt : r mod length (d0 :: rest) < length (d0 :: rest)).
    { apply Nat.mod_upper_bound. simpl. lia. }
    destruct (lookup_lt_is_Some_2 _ _ Hlt) as [d Hd].
    destruct (split_at_lookup _ _ _ Hd) as (Hsplit & Hdel & _).
    right. exists (take (r mod length (d0 :: rest)) (d0 :: rest)), d,
             (drop (S (r mod length (d0 :: rest))) (d0 :: rest)).
    split; [exact Hsplit|]. rewrite Hd, Hdel. reflexivity.
Qed.

Lemma drawTile_random_nonempty r ts :
  remainingTiles ts ≠ [] → ∃ t ts', drawTile None r ts = (Some t, ts').
Proof.
  intros Hne. unfold drawTile.
  destruct (remainingTiles ts) as [|d0 rest] eqn:E; [congruence|].
  assert (Hlt : r mod length (d0 :: rest) < length (d0 :: rest)).
  { apply Nat.mod_upper_bound. simpl. lia. }
  destruct (lookup_lt_is_Some_2 _ _ Hlt) as [d Hd]. rewrite Hd.
  eexists _, _. reflexivity.
Qed.

Lemma drawTile_Some_count l r ts t ts' :
  drawTile l r ts = (Some t, ts') →
  S (length (remainingTiles ts')) = length (remainingTiles ts).
Proof.
  intros H. destruct (drawTile_cases l r ts) as [Hn|(pre & d & post & Hs & Hd)].
  - congruence.
  - rewrite Hd in H. injection H as <- <-. rewrite Hs. simpl.
    rewrite !length_app. simpl. lia.
Qed.

Lemma drawTile_None_same l r ts ts' :
  drawTile l r ts = (None, ts') → ts' = ts.
Proof.
  intros H. destruct (drawTile_cases l r ts) as [Hn|(pre & d & post & Hs & Hd)];
    congruence.
Qed.

Lemma returnTiles_remaining l ts :
  remainingTiles (returnTiles l ts)
  = remainingTiles ts
    ++ map (λ t, {| td_letter := letter t;
                    td_power := getPowerForTileType (type t) |}) l.
Proof.
  revert ts. induction l as [|t l IH]; intros ts; simpl.
  - rewrite app_nil_r. reflexivity.
  - unfold returnTiles in *. simpl. rewrite IH. simpl.
    rewrite <- app_assoc. reflexivity.
Qed.

Lemma returnTiles_persistent l ts :
  persistentTiles (returnTiles l ts) = persistentTiles ts.
Proof.
  unfold returnTiles. revert ts. induction l as [|t l IH]; intros ts; simpl;
    [reflexivity|]. rewrite IH. reflexivity.
Qed.

Lemma returnTiles_count l ts :
  length (remainingTiles (returnTiles l ts))
  = length (remainingTiles ts) + length l.
Proof. rewrite returnTiles_remaining, length_app, length_map. reflexivity. Qed.
End TileSetFacts.

(** ** Hand refill *)

Section FillRackFacts.
Import TileContainer TileSet Board.

Lemma addTile_room_tiles t c :
  isFull c = false →
  tiles (addTile t c).2 = tiles c ++ [t] ∧ maxTiles (addTile t c).2 = maxTiles c.
Proof. intros H. rewrite addTile_room by exact H. split; reflexivity. Qed.


Lemma refillStep_refl rack ts : refillStep rack ts rack ts.
Proof. unfold refillStep. repeat split; auto. Qed.

Lemma refillStep_trans r1 t1 r2 t2 r3 t3 :
  refillStep r1 t1 r2 t2 → refillStep r2 t2 r3 t3 → refillStep r1 t1 r3 t3.
Proof.
  intros (A1 & A2 & A3 & A4 & A5) (B1 & B2 & B3 & B4 & B5).
  unfold refillStep. split; [congruence|].
  split; [etrans; eauto|]. split; [lia|]. split; [auto|].
  intros He. destruct (A5 He) as [-> ->]. apply B5. exact He.
Qed.

Lemma refillStep_draw l r rack ts tile ts' :
  isFull rack = false →
  drawTile l r ts = (Some tile, ts') →
  refillStep rack ts (addTile tile rack).2 ts'.
Proof.
  intros Hroom Hdraw.
  destruct (addTile_room_tiles tile rack Hroom) as [Ht Hm].
  pose proof (drawTile_Some_count _ _ _ _ _ Hdraw) as Hc.
  unfold refillStep, withinCapacity. rewrite Ht, Hm, length_app. simpl.
  split; [reflexivity|]. split; [apply prefix_app_r; reflexivity|].
  split; [lia|]. split.
  - intros _. apply isFull_false in Hroom. lia.
  - intros He. rewrite He in Hc. simpl in Hc. lia.
Qed.

Lemma fillRequired_step current required rack ts :
  refillStep rack ts (fillRequired current required rack ts).1
                     (fillRequired current required rack ts).2.
Proof.
  unfold fillRequired. revert rack ts.
  induction required as [|q required IH]; intros rack ts; simpl.
  - apply refillStep_refl.
  - destruct (negb (bool_decide (toUpperCase q ∈ current)) && negb (isFull rack))
      eqn:Hc; [|apply IH].
    apply andb_true_iff in Hc as [_ Hfull]. apply negb_true_iff in Hfull.
    destruct (drawTile (Some (toUpperCase q)) 0 ts) as [[tile|] ts'] eqn:Hd.
    + eapply refillStep_trans; [eapply refillStep_draw; eauto|apply IH].
    + apply drawTile_None_same in Hd. subst ts'. apply IH.
Qed.

Lemma fillRandom_step rounds rng rack ts :
  refillStep rack ts (fillRandom rounds rng rack ts).1
                     (fillRandom rounds rng rack ts).2.
Proof.
  revert rng rack ts. induction rounds as [|n IH]; intros rng rack ts; simpl.
  - apply refillStep_refl.
  - destruct (isFull rack) eqn:Hfull; [apply refillStep_refl|].
    destruct (drawTile None (rng 0) ts) as [[tile|] ts'] eqn:Hd.
    + eapply refillStep_trans; [eapply refillStep_draw; eauto|apply IH].
    + apply drawTile_None_same in Hd. subst ts'. apply refillStep_refl.
Qed.

(** The loop leaves only through one of its two exits: with enough rounds
    the result is a full rack or an exhausted pool. *)
Lemma fillRandom_exit rounds rng rack ts :
  maxTiles rack - length (tiles rack) ≤ rounds →
  isFull (fillRandom rounds rng rack ts).1 = true
  ∨ remainingTiles (fillRandom rounds rng rack ts).2 = [].
Proof.
  revert rng rack ts. induction rounds as [|n IH]; intros rng rack ts Hr; simpl.
  - left. apply isFull_true. lia.
  - destruct (isFull rack) eqn:Hfull; [left; exact Hfull|].
    destruct (drawTile None (rng 0) ts) as [[tile|] ts'] eqn:Hd.
    + apply IH. destruct (addTile_room_tiles tile rack Hfull) as [Ht Hm].
      rewrite Ht, Hm, length_app. simpl. lia.
    + right. simpl. pose proof (drawTile_None_same _ _ _ _ Hd). subst ts'.
      destruct (remainingTiles ts) as [|d0 rest] eqn:E; [reflexivity|].
      destruct (drawTile_random_nonempty (rng 0) ts) as (drawn & ts'' & Hs);
        [congruence|congruence].
Qed.

Lemma fillRack_spec rm rng rack ts p :
  refillStep rack ts (fillRack rm rng rack ts p).1 (fillRack rm rng rack ts p).2
  ∧ (isFull (fillRack rm rng rack ts p).1 = true
     ∨ remainingTiles (fillRack rm rng rack ts p).2 = []).
Proof.
  unfold fillRack.
  pose proof (fillRequired_step (getLetters rack)
                (RelicManager.getRequiredLetters rm p) rack ts) as H1.
  destruct (fillRequired (getLetters rack)
              (RelicManager.getRequiredLetters rm p) rack ts) as [rack1 ts1].
  simpl in H1. split.
  - eapply refillStep_trans; [exact H1|apply fillRandom_step].
  - apply fillRandom_exit. lia.
Qed.

Lemma drawTile_persistent l r ts :
  persistentTiles (drawTile l r ts).2 = persistentTiles ts.
Proof.
  destruct (drawTile_cases l r ts) as [->|(pre & d & post & _ & ->)]; reflexivity.
Qed.

Lemma fillRack_persistent rm rng rack ts p :
  persistentTiles (fillRack rm rng rack ts p).2 = persistentTiles ts.
Proof.
  unfold fillRack.
  assert (H1 : ∀ cur req rack ts,
             persistentTiles (fillRequired cur req rack ts).2 = persistentTiles ts).
  { intros cur req. unfold fillRequired.
    induction req as [|q req IH]; intros rack0 ts0; simpl; [reflexivity|].
    destruct (negb (bool_decide (toUpperCase q ∈ cur)) && negb (isFull rack0));
      [|apply IH].
    pose proof (drawTile_persistent (Some (toUpperCase q)) 0 ts0) as Hp.
    destruct (drawTile (Some (toUpperCase q)) 0 ts0) as [[tile|] ts']; simpl in Hp;
      rewrite IH; exact Hp. }
  assert (H2 : ∀ n rng rack ts,
             persistentTiles (fillRandom n rng rack ts).2 = persistentTiles ts).
  { induction n as [|n IH]; intros rng0 rack0 ts0; simpl; [reflexivity|].
    destruct (isFull rack0); [reflexivity|].
    pose proof (drawTile_persistent None (rng0 0) ts0) as Hp.
    destruct (drawTile None (rng0 0) ts0) as [[tile|] ts']; simpl in Hp;
      [rewrite IH|]; exact Hp. }
  specialize (H1 (getLetters rack) (RelicManager.getRequiredLetters rm p) rack ts).
  destruct (fillRequired _ _ rack ts) as [rack1 ts1]. simpl in H1.
  rewrite H2. exact H1.
Qed.

Lemma fillRack_length rm rng rack ts p :
  withinCapacity rack →
  length (tiles (fillRack rm rng rack ts p).1)
  = Nat.min (maxTiles rack) (length (tiles rack) + length (remainingTiles ts)).
Proof.
  intros Hcap.
  destruct (fillRack_spec rm rng rack ts p) as [(Hm & _ & Hsum & Hw & _) Hexit].
  specialize (Hw Hcap). unfold withinCapacity in *.
  destruct Hexit as [Hfull|Hempty].
  - apply isFull_true in Hfull. lia.
  - rewrite Hempty in Hsum. simpl in Hsum. lia.
Qed.
End FillRackFacts.

(** C6. [drawTile] answers [null] on an empty working copy, with or without
    a letter; [drawTile(letter)] answers [null] and leaves the pool alone
    when no remaining tile has that letter, and otherwise removes exactly
    one tile, the first of that letter, and returns it; [fillRack] always
    returns, never takes the rack over capacity, keeps the tiles already in
    the rack, and stops at a full rack or at an exhausted pool, so that the
    rack ends with [min(capacity, held + pool)] tiles: under capacity
    exactly when the pool ran out, and unchanged when the pool was empty. *)
Theorem drawTile_null_and_fillRack_stops_early :
  ∀ (relicManager : RelicManager) (ts : TileSet),
    (remainingTiles ts = [] → ∀ l r, TileSet.drawTile l r ts = (None, ts))
    ∧ (∀ l r,
         Forall (λ d, toUpperCase (td_letter d) ≠ toUpperCase l) (remainingTiles ts) →
         TileSet.drawTile (Some l) r ts = (None, ts))
    ∧ (∀ l r,
         Exists (λ d, toUpperCase (td_letter d) = toUpperCase l) (remainingTiles ts) →
         ∃ pre d post,
           remainingTiles ts = pre ++ d :: post
           ∧ toUpperCase (td_letter d) = toUpperCase l
           ∧ Forall (λ d', toUpperCase (td_letter d') ≠ toUpperCase l) pre
           ∧ TileSet.drawTile (Some l) r ts
             = (Some (TileSet.createTileFromData d),
                TileSet.setRemaining (pre ++ post) ts))
    ∧ (∀ rng rack p,
         length (tiles rack) ≤ maxTiles rack →
         let rack' := (Board.fillRack relicManager rng rack ts p).1 in
         let ts' := (Board.fillRack relicManager rng rack ts p).2 in
         length (tiles rack')
         = Nat.min (maxTiles rack) (length (tiles rack) + length (remainingTiles ts))
         ∧ tiles rack `prefix_of` tiles rack'
         ∧ length (tiles rack') + length (remainingTiles ts')
           = length (tiles rack) + length (remainingTiles ts)
         ∧ (TileContainer.isFull rack' = true ∨ remainingTiles ts' = [])
         ∧ (remainingTiles ts = [] → rack' = rack ∧ ts' = ts)).
Proof.
  intros rm ts.
  split; [intros He l r; apply drawTile_empty; exact He|].
  split; [intros l r; apply drawTile_absent|].
  split; [intros l r; apply drawTile_present|].
  intros rng rack p Hcap rack' ts'. subst rack' ts'.
  destruct (fillRack_spec rm rng rack ts p) as [(Hm & Hpre & Hsum & Hw & He) Hexit].
  split; [apply fillRack_length; exact Hcap|].
  repeat split; auto.
  - apply He. assumption.
  - apply He. assumption.
Qed.

(** A pool of three tiles and an empty rack of seven: no S can be drawn,
    the A drawn by letter is the first one, and the refill stops at three
    tiles with the pool empty. *)
Example refill_from_short_pool :
  let pool := plainPool "TAA" in
  let filled := Board.fillRack RelicManager.relicManager (λ n, n) (Rack.new P1) pool P1 in
  TileSet.drawTile (Some "s"%char) 0 pool = (None, pool)
  ∧ TileSet.drawTile (Some "a"%char) 0 pool
    = (Some (mkTile "A" MAIN),
       TileSet.setRemaining [mkTileData "T" None; mkTileData "A" None] pool)
  ∧ length (tiles filled.1) = 3
  ∧ remainingTiles filled.2 = []
  ∧ TileContainer.isFull filled.1 = false.
Proof. vm_compute. repeat split; reflexivity. Qed.

(** ** Lanes: clearing, moving and shifting *)

Section LaneFacts.
Import Board.


Lemma lane_clear_spec l :
  (Lane.clear l).1 = Lane.laneTiles l
  ∧ Lane.laneTiles (Lane.clear l).2 = []
  ∧ owner (Lane.clear l).2 = None
  ∧ temporaryOwner (Lane.clear l).2 = None
  ∧ maxTiles (container (Lane.clear l).2) = maxTiles (container l).
Proof. unfold Lane.clear, Lane.laneTiles. simpl. auto. Qed.

Lemma lane_addTile_fields t l :
  owner (Lane.addTile t l).2 = owner l
  ∧ temporaryOwner (Lane.addTile t l).2 = temporaryOwner l
  ∧ maxTiles (container (Lane.addTile t l).2) = maxTiles (container l)
  ∧ index (Lane.addTile t l).2 = index l.
Proof.
  unfold Lane.addTile, TileContainer.addTile.
  destruct (maxTiles (container l) <=? length (tiles (container l)));
    simpl; auto.
Qed.

Lemma lane_addTile_tiles t l :
  Lane.laneTiles (Lane.addTile t l).2
  = if maxTiles (container l) <=? length (Lane.laneTiles l)
    then Lane.laneTiles l else Lane.laneTiles l ++ [t].
Proof.
  unfold Lane.addTile, TileContainer.addTile, Lane.laneTiles.
  destruct (maxTiles (container l) <=? length (tiles (container l)));
    reflexivity.
Qed.

Lemma addAll_spec moved l :
  Lane.laneTiles (addAll moved l)
  = Lane.laneTiles l
    ++ take (maxTiles (container l) - length (Lane.laneTiles l)) moved
  ∧ maxTiles (container (addAll moved l)) = maxTiles (container l)
  ∧ owner (addAll moved l) = owner l
  ∧ temporaryOwner (addAll moved l) = temporaryOwner l.
Proof.
  unfold addAll. revert l. induction moved as [|t moved IH]; intros l; simpl.
  - rewrite take_nil, app_nil_r. auto.
  - destruct (IH (Lane.addTile t l).2) as (Ht & Hm & Ho & Hto).
    destruct (lane_addTile_fields t l) as (Ho' & Hto' & Hm' & _).
    rewrite Ht, Hm, Ho, Hto, Hm', Ho', Hto', lane_addTile_tiles.
    repeat split.
    destruct (maxTiles (container l) <=? length (Lane.laneTiles l)) eqn:E.
    + apply Nat.leb_le in E.
      replace (maxTiles (container l) - length (Lane.laneTiles l)) with 0 by lia.
      reflexivity.
    + apply Nat.leb_gt in E. rewrite length_app. simpl.
      replace (maxTiles (container l) - length (Lane.laneTiles l))
        with (S (maxTiles (container l) - (length (Lane.laneTiles l) + 1))) by lia.
      simpl. rewrite <- app_assoc. reflexivity.
Qed.

Lemma receive_spec src dst :
  Lane.laneTiles dst = [] →
  Lane.laneTiles (receive src dst)
  = map (setType STEEL) (take (maxTiles (container dst)) (Lane.laneTiles src))
  ∧ owner (receive src dst) = owner src
  ∧ temporaryOwner (receive src dst) = None
  ∧ maxTiles (container (receive src dst)) = maxTiles (container dst).
Proof.
  intros He. unfold receive.
  destruct (addAll_spec (Lane.laneTiles src) dst) as (Ht & Hm & _ & _).
  unfold Lane.setOwner, Lane.laneTiles in *. simpl.
  rewrite Ht, He, Hm. simpl. rewrite Nat.sub_0_r. auto.
Qed.

Lemma lane_isEmpty_nil l : Lane.isEmpty l = true ↔ Lane.laneTiles l = [].
Proof.
  unfold Lane.isEmpty, TileContainer.isEmpty, Lane.laneTiles.
  rewrite Nat.eqb_eq. destruct (tiles (container l)); simpl; split;
    intros; (reflexivity || discriminate).
Qed.

Lemma lane_isEmpty_false l : Lane.isEmpty l = false ↔ Lane.laneTiles l ≠ [].
Proof.
  rewrite <- lane_isEmpty_nil. destruct (Lane.isEmpty l); split; congruence.
Qed.

Lemma moveLaneTiles_1_0 b l0 l1 l2 :
  lanes b = [l0; l1; l2] →
  moveLaneTiles 1 0 b
  = Some (setLanes [receive l1 l0; (Lane.clear l1).2; l2] b).
Proof. intros H. unfold moveLaneTiles. rewrite H. reflexivity. Qed.

Lemma moveLaneTiles_2_1 b l0 l1 l2 :
  lanes b = [l0; l1; l2] →
  moveLaneTiles 2 1 b
  = Some (setLanes [l0; receive l2 l1; (Lane.clear l2).2] b).
Proof. intros H. unfold moveLaneTiles. rewrite H. reflexivity. Qed.


Lemma shiftInto_1_0 b l0 l1 l2 :
  lanes b = [l0; l1; l2] →
  ∃ b', shiftInto 1 0 b = Some b'
        ∧ lanes b' = [(shifted l1 l0).2; (shifted l1 l0).1; l2].
Proof.
  intros H. unfold shiftInto, shifted. rewrite H. simpl.
  destruct (Lane.isEmpty l0); simpl; [|eauto].
  destruct (Lane.isEmpty l1); simpl; [eauto|].
  rewrite (moveLaneTiles_1_0 b l0 l1 l2 H). eauto.
Qed.

Lemma shiftInto_2_1 b l0 l1 l2 :
  lanes b = [l0; l1; l2] →
  ∃ b', shiftInto 2 1 b = Some b'
        ∧ lanes b' = [l0; (shifted l2 l1).2; (shifted l2 l1).1].
Proof.
  intros H. unfold shiftInto, shifted. rewrite H. simpl.
  destruct (Lane.isEmpty l1); simpl; [|eauto].
  destruct (Lane.isEmpty l2); simpl; [eauto|].
  rewrite (moveLaneTiles_2_1 b l0 l1 l2 H). eauto.
Qed.

Lemma moveLaneTiles_frame f t b b' :
  moveLaneTiles f t b = Some b' → b' = setLanes (lanes b') b.
Proof.
  unfold moveLaneTiles. intros H.
  destruct (lanes b !! f) as [fromLane|]; simpl in H; [|discriminate].
  destruct (lanes b !! t); simpl in H; [|discriminate].
  destruct (<[f:=(Lane.clear fromLane).2]> (lanes b) !! t) eqn:E;
    unfold Lane.clear in *; simpl in *; rewrite E in H; simpl in H;
    [|discriminate].
  injection H as <-. reflexivity.
Qed.

Lemma shiftInto_frame f t b b' :
  shiftInto f t b = Some b' → b' = setLanes (lanes b') b.
Proof.
  unfold shiftInto. intros H.
  destruct (lanes b !! t) as [toLane|]; simpl in H; [|discriminate].
  destruct (Lane.isEmpty toLane).
  - destruct (lanes b !! f) as [fromLane|]; simpl in H; [|discriminate].
    destruct (Lane.isEmpty fromLane); simpl in H.
    + injection H as <-. destruct b; reflexivity.
    + apply moveLaneTiles_frame in H. exact H.
  - injection H as <-. destruct b; reflexivity.
Qed.

(** Emptiness, capacity and tile count across one conditional move. *)
Lemma shifted_spec src dst :
  0 < maxTiles (container dst) →
  let s := (shifted src dst).1 in
  let d := (shifted src dst).2 in
  maxTiles (container s) = maxTiles (container src)
  ∧ maxTiles (container d) = maxTiles (container dst)
  ∧ (Lane.isEmpty d = true → Lane.isEmpty s = true)
  ∧ (Lane.isEmpty d = true ↔ Lane.isEmpty dst = true ∧ Lane.isEmpty src = true)
  ∧ (Lane.isEmpty src = true → Lane.isEmpty s = true)
  ∧ (length (Lane.laneTiles src) ≤ maxTiles (container dst) →
     length (Lane.laneTiles s) + length (Lane.laneTiles d)
     = length (Lane.laneTiles src) + length (Lane.laneTiles dst))
  ∧ (∀ n, length (Lane.laneTiles src) ≤ n → length (Lane.laneTiles dst) ≤ n →
          length (Lane.laneTiles s) ≤ n ∧ length (Lane.laneTiles d) ≤ n).
Proof.
  intros Hcap s d. subst s d. unfold shifted.
  destruct (Lane.isEmpty dst) eqn:Ed; cbn [andb negb fst snd].
  2:{ rewrite Ed. repeat split; auto; try discriminate. intros [? _]; discriminate. }
  destruct (Lane.isEmpty src) eqn:Es; cbn [andb negb fst snd].
  { rewrite Ed, Es. repeat split; auto. }
  apply lane_isEmpty_nil in Ed. pose proof Es as Es'.
  apply lane_isEmpty_false in Es'.
  destruct (receive_spec src dst Ed) as (Ht & _ & _ & Hm).
  destruct (lane_clear_spec src) as (_ & Hct & _ & _ & Hcm).
  assert (Hne : Lane.isEmpty (receive src dst) = false).
  { apply lane_isEmpty_false. rewrite Ht.
    destruct (Lane.laneTiles src) as [|t rest]; [congruence|].
    destruct (maxTiles (container dst)); [lia|]. simpl. discriminate. }
  assert (Hce : Lane.isEmpty (Lane.clear src).2 = true).
  { apply lane_isEmpty_nil. exact Hct. }
  rewrite Hne. split; [exact Hcm|]. split; [exact Hm|].
  split; [discriminate|]. split; [split; [discriminate|intros [_ ?]; discriminate]|].
  split; [intros _; exact Hce|].
  split.
  - intros Hle. rewrite Hct, Ht, Ed, length_map, length_take_ge by lia.
    simpl. lia.
  - intros n Hs Hd. rewrite Hct, Ht, length_map, length_take. simpl. lia.
Qed.
End LaneFacts.


Lemma move_spec (src dst : Lane) :
  Lane.laneTiles dst = [] →
  length (Lane.laneTiles src) ≤ maxTiles (container dst) →
  Lane.laneTiles (receive src dst) = map (setType STEEL) (Lane.laneTiles src)
  ∧ Lane.getWord (receive src dst) = Lane.getWord src
  ∧ owner (receive src dst) = owner src
  ∧ temporaryOwner (receive src dst) = None
  ∧ Lane.laneTiles (Lane.clear src).2 = []
  ∧ owner (Lane.clear src).2 = None
  ∧ temporaryOwner (Lane.clear src).2 = None.
Proof.
  intros He Hle.
  destruct (receive_spec src dst He) as (Ht & Ho & Hto & _).
  destruct (lane_clear_spec src) as (_ & Hct & Hco & Hcto & _).
  rewrite take_ge in Ht by exact Hle.
  split; [exact Ht|]. split.
  { unfold Lane.getWord. rewrite Ht, map_map. f_equal. }
  auto.
Qed.

Lemma moveLaneTiles_receive (f t : nat) (b : Board) (src dst : Lane) :
  f ≠ t →
  lanes b !! f = Some src →
  lanes b !! t = Some dst →
  Board.moveLaneTiles f t b
  = Some (Board.setLanes (<[t := receive src dst]> (<[f := (Lane.clear src).2]> (lanes b))) b).
Proof.
  intros Hne Hf Ht. unfold Board.moveLaneTiles. rewrite Hf, Ht. simpl.
  rewrite list_lookup_insert_ne by exact Hne. rewrite Ht. reflexivity.
Qed.

(** C5. On a board with its three lanes of capacity 12, [shiftLanes] is three
    conditional moves in a row (lane 1 into lane 0, lane 2 into lane 1,
    lane 1 into lane 0 again), so it returns (no index falls outside the
    lane array) and only the lanes change; afterwards, if any lane holds a
    tile then lane 0 holds a tile; and when no lane was over capacity every
    move transferred all tiles, so the number of tiles on the board is
    unchanged.  A move happens exactly when the destination is empty and
    the source is not; it puts all the tiles of the source, in their order
    and turned to steel, into the destination, gives the destination the
    source's owner and no provisional owner, and leaves the source without
    tiles and without owner; otherwise both lanes stay as they are.  The
    same holds of [moveLaneTiles] itself on any two different lanes. *)
Theorem shiftLanes_compacts_toward_lane_0 :
  ∀ b : Board,
    length (lanes b) = CONFIG.LANE_COUNT →
    Forall (λ l, maxTiles (container l) = CONFIG.LANE_MAX_TILES) (lanes b) →
    ∃ b',
      Board.shiftLanes b = Some b'
      ∧ b' = Board.setLanes (lanes b') b
      ∧ length (lanes b') = CONFIG.LANE_COUNT
      ∧ (Exists (λ l, Lane.laneTiles l ≠ []) (lanes b') →
         ∃ l, lanes b' !! 0 = Some l ∧ Lane.laneTiles l ≠ [])
      ∧ (Forall (λ l, length (Lane.laneTiles l) ≤ CONFIG.LANE_MAX_TILES) (lanes b) →
         tileCount (lanes b') = tileCount (lanes b))
      ∧ (∀ l0 l1 l2, lanes b = [l0; l1; l2] →
           let first := shifted l1 l0 in
           let second := shifted l2 first.1 in
           let third := shifted second.2 first.2 in
           lanes b' = [third.2; third.1; second.1])
      ∧ (∀ src dst,
           length (Lane.laneTiles src) ≤ maxTiles (container dst) →
           if Lane.isEmpty dst && negb (Lane.isEmpty src)
           then Lane.laneTiles (shifted src dst).2
                = map (setType STEEL) (Lane.laneTiles src)
                ∧ Lane.getWord (shifted src dst).2 = Lane.getWord src
                ∧ owner (shifted src dst).2 = owner src
                ∧ temporaryOwner (shifted src dst).2 = None
                ∧ Lane.laneTiles (shifted src dst).1 = []
                ∧ owner (shifted src dst).1 = None
                ∧ temporaryOwner (shifted src dst).1 = None
           else shifted src dst = (src, dst))
      ∧ (∀ f t b0 src dst,
           f ≠ t →
           lanes b0 !! f = Some src →
           lanes b0 !! t = Some dst →
           Lane.laneTiles dst = [] →
           length (Lane.laneTiles src) ≤ maxTiles (container dst) →
           ∃ b1 src' dst',
             Board.moveLaneTiles f t b0 = Some b1
             ∧ lanes b1 !! f = Some src'
             ∧ lanes b1 !! t = Some dst'
             ∧ (∀ i, i ≠ f → i ≠ t → lanes b1 !! i = lanes b0 !! i)
             ∧ Lane.laneTiles dst' = map (setType STEEL) (Lane.laneTiles src)
             ∧ owner dst' = owner src
             ∧ temporaryOwner dst' = None
             ∧ Lane.laneTiles src' = []
             ∧ owner src' = None
             ∧ temporaryOwner src' = None).
Proof.
  intros b Hlen Hcap.
  destruct (lanes b) as [|l0 [|l1 [|l2 [|]]]] eqn:Hl; try discriminate.
  apply Forall_cons in Hcap as [C0 Hcap]. apply Forall_cons in Hcap as [C1 Hcap].
  apply Forall_cons in Hcap as [C2 _].
  unfold CONFIG.LANE_MAX_TILES in *.
  destruct (shiftInto_1_0 b l0 l1 l2 Hl) as (b1 & E1 & L1).
  pose proof (shifted_spec l1 l0 ltac:(lia)) as S1. cbn zeta in S1.
  set (s1 := (shifted l1 l0).1) in *. set (d1 := (shifted l1 l0).2) in *.
  destruct S1 as (M1s & M1d & _ & _ & _ & T1 & B1).
  destruct (shiftInto_2_1 b1 d1 s1 l2 L1) as (b2 & E2 & L2).
  pose proof (shifted_spec l2 s1 ltac:(lia)) as S2. cbn zeta in S2.
  set (s2 := (shifted l2 s1).1) in *. set (d2 := (shifted l2 s1).2) in *.
  destruct S2 as (M2s & M2d & Z2 & _ & _ & T2 & B2).
  destruct (shiftInto_1_0 b2 d1 d2 s2 L2) as (b3 & E3 & L3).
  pose proof (shifted_spec d2 d1 ltac:(lia)) as S3. cbn zeta in S3.
  set (s3 := (shifted d2 d1).1) in *. set (d3 := (shifted d2 d1).2) in *.
  destruct S3 as (M3s & M3d & Z3 & D3 & _ & T3 & _).
  exists b3. split.
  { unfold Board.shiftLanes. rewrite E1. simpl. rewrite E2. simpl. exact E3. }
  assert (Hframe : b3 = Board.setLanes (lanes b3) b).
  { rewrite (shiftInto_frame _ _ _ _ E3), (shiftInto_frame _ _ _ _ E2),
      (shiftInto_frame _ _ _ _ E1). reflexivity. }
  split; [exact Hframe|]. rewrite L3.
  split; [reflexivity|]. split; [|split; [|split; [|split]]].
  - intros Hex. exists d3. split; [reflexivity|].
    apply lane_isEmpty_false. destruct (Lane.isEmpty d3) eqn:Ed3; [|reflexivity].
    exfalso. pose proof (Z3 eq_refl) as Es3.
    destruct (proj1 D3 eq_refl) as [_ Ed2]. pose proof (Z2 Ed2) as Es2.
    apply Exists_cons in Hex as [H|Hex]; [apply lane_isEmpty_false in H; congruence|].
    apply Exists_cons in Hex as [H|Hex]; [apply lane_isEmpty_false in H; congruence|].
    apply Exists_cons in Hex as [H|Hex]; [apply lane_isEmpty_false in H; congruence|].
    inversion Hex.
  - intros Hw.
    apply Forall_cons in Hw as [W0 Hw]. apply Forall_cons in Hw as [W1 Hw].
    apply Forall_cons in Hw as [W2 _].
    destruct (B1 12 W1 W0) as [B1s B1d].
    destruct (B2 12 W2 B1s) as [_ B2d].
    specialize (T1 ltac:(lia)). specialize (T2 ltac:(lia)). specialize (T3 ltac:(lia)).
    unfold tileCount. simpl. lia.
  - intros x0 x1 x2 Hx. injection Hx as <- <- <-. reflexivity.
  - intros src dst Hle. unfold shifted.
    destruct (Lane.isEmpty dst && negb (Lane.isEmpty src)) eqn:E; [|reflexivity].
    apply andb_true_iff in E as [Ed _]. apply lane_isEmpty_nil in Ed.
    cbn [fst snd]. apply (move_spec src dst Ed Hle).
  - intros f t b0 src dst Hne Hf Ht He Hle.
    assert (Hfl : f < length (lanes b0)) by (apply lookup_lt_Some in Hf; exact Hf).
    assert (Htl : t < length (lanes b0)) by (apply lookup_lt_Some in Ht; exact Ht).
    exists (Board.setLanes (<[t := receive src dst]>
                              (<[f := (Lane.clear src).2]> (lanes b0))) b0),
           (Lane.clear src).2, (receive src dst).
    split; [apply (moveLaneTiles_receive f t b0 src dst Hne Hf Ht)|].
    cbn [lanes Board.setLanes].
    split.
    { rewrite list_lookup_insert_ne by (intros H; apply Hne; symmetry; exact H).
      apply list_lookup_insert_eq. exact Hfl. }
    split.
    { apply list_lookup_insert_eq. rewrite length_insert. exact Htl. }
    split.
    { intros i Hif Hit.
      rewrite list_lookup_insert_ne by (intros H; apply Hit; symmetry; exact H).
      rewrite list_lookup_insert_ne by (intros H; apply Hif; symmetry; exact H).
      reflexivity. }
    destruct (move_spec src dst He Hle) as (H1 & _ & H2 & H3 & H4 & H5 & H6).
    repeat split; assumption.
Qed.

(** The board with nothing in lane 0, the enemy's OX in lane 1 and the
    player's ANT in lane 2: OX ends in lane 0 and ANT in lane 1, each with
    its owner, and lane 2 is left empty and without owner. *)
Lemma shiftLanes_compacts_toward_lane_0_witness :
  length (lanes shiftExample) = CONFIG.LANE_COUNT
  ∧ Forall (λ l, maxTiles (container l) = CONFIG.LANE_MAX_TILES) (lanes shiftExample)
  ∧ ∃ b',
      Board.shiftLanes shiftExample = Some b'
      ∧ map (λ l, (Lane.getWord l, owner l)) (lanes b')
        = [("OX"%string, Some P2); ("ANT"%string, Some P1); (""%string, None)].
Proof.
  assert (Hcap : Forall (λ l, maxTiles (container l) = CONFIG.LANE_MAX_TILES)
                        (lanes shiftExample)) by (repeat constructor).
  split; [reflexivity|]. split; [exact Hcap|].
  destruct (shiftLanes_compacts_toward_lane_0 shiftExample eq_refl Hcap)
    as (b' & Hshift & _ & _ & _ & _ & Hlanes & _).
  exists b'. split; [exact Hshift|].
  rewrite (Hlanes _ _ _ eq_refl). reflexivity.
Defined.

(** The pass at work: the enemy word moves up to lane 0 and the player's word
    to lane 1, each with its owner, and lane 2 is left empty and neutral. *)
Example shiftLanes_on_example :
  (λ b', (map Lane.getWord (lanes b'), map owner (lanes b')))
    <$> Board.shiftLanes shiftExample
  = Some (["OX"; "ANT"; ""]%string, [Some P2; Some P1; None]).
Proof. reflexivity. Qed.

(** ** The opponent's word realisation *)

Section PlayWordFacts.
Import AI.

Lemma drawTile_Some_letter l r ts tile ts' :
  TileSet.drawTile (Some l) r ts = (Some tile, ts') →
  letter tile = toUpperCase l.
Proof.
  unfold TileSet.drawTile. destruct (remainingTiles ts) as [|d0 rest]; [discriminate|].
  destruct (TileSet.findIndex (TileSet.matchesLetter l) (d0 :: rest)) as [i|] eqn:Ei;
    [|discriminate].
  destruct (findIndex_Some _ _ _ Ei) as (d & Hd & Hp & _). rewrite Hd. simpl.
  intros [= <- _]. rewrite letter_createTileFromData.
  unfold TileSet.matchesLetter in Hp. apply bool_decide_eq_true in Hp. exact Hp.
Qed.

Lemma findIndexFrom_Some {A} (p : A → nat → bool) l i k :
  findIndexFrom p l i = Some k →
  ∃ x, i ≤ k ∧ l !! (k - i) = Some x ∧ p x k = true.
Proof.
  revert i. induction l as [|a l IH]; intros i; simpl; [discriminate|].
  destruct (p a i) eqn:Ea.
  - intros [= <-]. exists a. rewrite Nat.sub_diag. auto.
  - intros H. destruct (IH _ H) as (x & Hle & Hx & Hp).
    exists x. split; [lia|]. split; [|exact Hp].
    replace (k - i) with (S (k - S i)) by lia. exact Hx.
Qed.

(** One letter placed from the pool: a tile of that letter left the pool
    and was offered to the lane. *)
Lemma tryLaneLetters_Some l laneLetters i usedLane lane ts usedLane' lane' ts' :
  tryLaneLetters l laneLetters i usedLane lane ts = Some (usedLane', lane', ts') →
  ∃ tile, TileSet.drawTile (Some l) 0 ts = (Some tile, ts')
          ∧ lane' = (Lane.addTile tile lane).2.
Proof.
  revert i. induction laneLetters as [|c rest IH]; intros i; simpl; [discriminate|].
  destruct (negb (bool_decide (i ∈ usedLane)) && bool_decide (c = l)); [|apply IH].
  destruct (TileSet.drawTile (Some l) 0 ts) as [[tile|] ts1] eqn:Hd.
  - intros [= _ <- <-]. eauto.
  - pose proof (drawTile_None_same _ _ _ _ Hd). subst ts1. apply IH.
Qed.

(** One letter placed from the rack: a rack tile of that letter left the
    rack and was offered to the lane. *)
Lemma tryRackLetters_Some l rackLetters i usedRack lane rack usedRack' lane' rack' :
  tryRackLetters l rackLetters i usedRack lane rack = Some (usedRack', lane', rack') →
  ∃ k tile, tiles rack !! k = Some tile ∧ letter tile = l
            ∧ rack' = TileContainer.setTiles (delete k (tiles rack)) rack
            ∧ lane' = (Lane.addTile tile lane).2.
Proof.
  revert i. induction rackLetters as [|c rest IH]; intros i; simpl; [discriminate|].
  destruct (negb (bool_decide (i ∈ usedRack)) && bool_decide (c = l)); [|apply IH].
  destruct (findIndexFrom _ (tiles rack) 0) as [k|] eqn:Ek; [|apply IH].
  destruct (findIndexFrom_Some _ _ _ _ Ek) as (x & _ & Hx & Hp).
  rewrite Nat.sub_0_r in Hx. apply andb_true_iff in Hp as [Hp _].
  apply bool_decide_eq_true in Hp.
  rewrite removeTile_inside
    by (apply lookup_lt_Some in Hx; lia).
  rewrite Nat2Z.id, Hx. intros [= _ <- <-]. exists k, x. auto.
Qed.


Lemma addTile_placed tile lane :
  length (Lane.laneTiles lane) < maxTiles (container lane) →
  Lane.laneTiles (Lane.addTile tile lane).2 = Lane.laneTiles lane ++ [tile].
Proof.
  intros H. rewrite lane_addTile_tiles.
  destruct (maxTiles (container lane) <=? length (Lane.laneTiles lane)) eqn:E;
    [apply Nat.leb_le in E; lia|reflexivity].
Qed.

Lemma buildWord_built ls laneLetters rackLetters usedLane usedRack lane rack ts :
  let r := buildWord ls laneLetters rackLetters usedLane usedRack lane rack ts in
  Built ls lane rack ts r.1.1.1 r.1.1.2 r.1.2 r.2.
Proof.
  revert usedLane usedRack lane rack ts.
  induction ls as [|l rest IH]; intros usedLane usedRack lane rack ts; simpl.
  - constructor; auto. intros _ _. exists 0. rewrite app_nil_r. auto.
  - destruct (tryLaneLetters l laneLetters 0 usedLane lane ts)
      as [[[usedLane' lane'] ts']|] eqn:Hl.
    + destruct (tryLaneLetters_Some _ _ _ _ _ _ _ _ _ Hl) as (tile & Hd & ->).
      specialize (IH usedLane' usedRack (Lane.addTile tile lane).2 rack ts').
      cbn zeta in IH. destruct IH as [I1 I2 I3 I4 I5 I6 I7].
      destruct (lane_addTile_fields tile lane) as (Ho & Hto & Hm & _).
      pose proof (drawTile_Some_count _ _ _ _ _ Hd) as Hc.
      pose proof (drawTile_Some_letter _ _ _ _ _ Hd) as Hlt.
      constructor; try congruence.
      * rewrite I5. destruct (drawTile_cases (Some l) 0 ts)
          as [Hn|(pre & d & post & _ & Hs)]; [congruence|].
        rewrite Hs in Hd. injection Hd as _ <-. reflexivity.
      * intros Hroom. simpl in Hroom. rewrite Hm in I6.
        rewrite addTile_placed in I6 by lia. rewrite length_app in I6.
        simpl in I6. rewrite I6 by lia. lia.
      * intros Hroom Hup. simpl in Hroom. apply Forall_cons in Hup as [Hup1 Hup].
        rewrite Hm in I7. rewrite addTile_placed in I7 by lia.
        rewrite length_app in I7. simpl in I7.
        destruct (I7 ltac:(lia) Hup) as (k & Hk & Hok).
        exists (S k). rewrite Hk, map_app. simpl.
        rewrite Hlt, Hup1, <- app_assoc. simpl. split; [reflexivity|].
        destruct (buildWord _ _ _ _ _ _ _ _).1.1.1; lia.
    + destruct (tryRackLetters l rackLetters 0 usedRack lane rack)
        as [[[usedRack' lane'] rack']|] eqn:Hr.
      * destruct (tryRackLetters_Some _ _ _ _ _ _ _ _ _ Hr)
          as (k & tile & Hk & Hlt & -> & ->).
        specialize (IH usedLane usedRack' (Lane.addTile tile lane).2
                       (TileContainer.setTiles (delete k (tiles rack)) rack) ts).
        cbn zeta in IH. destruct IH as [I1 I2 I3 I4 I5 I6 I7].
        destruct (lane_addTile_fields tile lane) as (Ho & Hto & Hm & _).
        assert (Hdel : S (length (delete k (tiles rack))) = length (tiles rack)).
        { rewrite length_delete by eauto. apply lookup_lt_Some in Hk. lia. }
        constructor; try congruence.
        -- exact I4.
        -- intros Hroom. simpl in Hroom. rewrite Hm in I6.
           rewrite addTile_placed in I6 by lia. rewrite length_app in I6.
           simpl in I6. rewrite I6 by lia. lia.
        -- intros Hroom Hup. simpl in Hroom. apply Forall_cons in Hup as [Hup1 Hup].
           rewrite Hm in I7. rewrite addTile_placed in I7 by lia.
           rewrite length_app in I7. simpl in I7.
           destruct (I7 ltac:(lia) Hup) as (n & Hn & Hok).
           exists (S n). rewrite Hn, map_app. simpl.
           rewrite Hlt, <- app_assoc. simpl. split; [reflexivity|].
           destruct (buildWord _ _ _ _ _ _ _ _).1.1.1; lia.
      * simpl. constructor; auto. intros _ _. exists 0.
        rewrite app_nil_r. simpl. split; [reflexivity|lia].
Qed.

Lemma chars_join l : chars (join l) = l.
Proof. induction l as [|c l IH]; simpl; congruence. Qed.

Lemma length_chars s : length (chars s) = String.length s.
Proof. induction s as [|c s IH]; simpl; congruence. Qed.

Lemma chars_strToUpperCase w :
  chars (strToUpperCase w) = map toUpperCase (chars w).
Proof. unfold strToUpperCase. apply chars_join. Qed.

Lemma upper_chars_fixed w :
  Forall (λ c, toUpperCase c = c) (chars (strToUpperCase w)).
Proof.
  rewrite chars_strToUpperCase. apply Forall_forall. intros c Hc.
  apply list_elem_of_fmap in Hc as (c0 & -> & _). apply toUpperCase_idemp.
Qed.
End PlayWordFacts.

Lemma playWord_unfold w laneLetters rackLetters lane rack ts :
  AI.playWord w laneLetters rackLetters lane rack ts
  = let mid := AI.clearForWord lane ts in
    let r := AI.buildWord (chars (strToUpperCase w)) laneLetters rackLetters ∅ ∅
                          mid.1 rack mid.2 in
    if r.1.1.1 then (true, Lane.setOwner (Some P2) r.1.1.2, r.1.2, r.2) else r.
Proof.
  unfold AI.playWord, AI.clearForWord, Lane.clear. simpl.
  destruct (AI.buildWord _ _ _ _ _ _ _ _) as [[[[] l] r] t]; reflexivity.
Qed.

Lemma clearForWord_spec lane ts :
  (AI.clearForWord lane ts).1 = (Lane.clear lane).2
  ∧ (AI.clearForWord lane ts).2 = TileSet.returnTiles (Lane.laneTiles lane) ts.
Proof. unfold AI.clearForWord, Lane.clear. simpl. auto. Qed.

Lemma moveLaneTiles_source_cleared b f t lane b' :
  f ≠ t →
  lanes b !! f = Some lane →
  Board.moveLaneTiles f t b = Some b' →
  lanes b' !! f = Some (Lane.clear lane).2
  ∧ ∃ dst, lanes b' !! t = Some dst ∧ owner dst = owner lane.
Proof.
  intros Hne Hf. unfold Board.moveLaneTiles. rewrite Hf. simpl.
  destruct (lanes b !! t) as [toLane|] eqn:Ht; simpl; [|discriminate].
  rewrite list_lookup_insert_ne by exact Hne. rewrite Ht. simpl.
  intros [= <-]. unfold Lane.clear. simpl. split.
  - rewrite list_lookup_insert_ne by auto.
    apply list_lookup_insert_eq. apply lookup_lt_Some in Hf. exact Hf.
  - eexists. split.
    + apply list_lookup_insert_eq. rewrite length_insert.
      apply lookup_lt_Some in Ht. exact Ht.
    + reflexivity.
Qed.

(** C9. [Lane.clear] returns all the lane's tiles, leaves the lane empty and
    sets both its owner and its temporary owner to null, whatever they were.
    [playWord] starts from exactly that cleared, neutral lane (its old tiles
    returned to the pool), ends with the lane still neutral when it fails and
    owned by player 2 when it succeeds; and the lane that [moveLaneTiles]
    empties is left in the cleared, neutral state while its former owner
    goes to the destination lane. *)
Theorem lane_clear_resets_both_owners :
  ∀ lane : Lane,
    (Lane.clear lane).1 = Lane.laneTiles lane
    ∧ Lane.laneTiles (Lane.clear lane).2 = []
    ∧ owner (Lane.clear lane).2 = None
    ∧ temporaryOwner (Lane.clear lane).2 = None
    ∧ (∀ w laneLetters rackLetters rack ts,
         let mid := AI.clearForWord lane ts in
         let built := AI.buildWord (chars (strToUpperCase w)) laneLetters
                                   rackLetters ∅ ∅ mid.1 rack mid.2 in
         let r := AI.playWord w laneLetters rackLetters lane rack ts in
         mid.1 = (Lane.clear lane).2
         ∧ r = (if built.1.1.1
                then (true, Lane.setOwner (Some P2) built.1.1.2, built.1.2, built.2)
                else built)
         ∧ (r.1.1.1 = false →
            owner r.1.1.2 = None ∧ temporaryOwner r.1.1.2 = None)
         ∧ (r.1.1.1 = true →
            owner r.1.1.2 = Some P2 ∧ temporaryOwner r.1.1.2 = None))
    ∧ (∀ b f t b',
         f ≠ t → lanes b !! f = Some lane →
         Board.moveLaneTiles f t b = Some b' →
         lanes b' !! f = Some (Lane.clear lane).2
         ∧ ∃ dst, lanes b' !! t = Some dst ∧ owner dst = owner lane).
Proof.
  intros lane. destruct (lane_clear_spec lane) as (H1 & H2 & H3 & H4 & _).
  split; [exact H1|]. split; [exact H2|]. split; [exact H3|]. split; [exact H4|].
  split.
  - intros w laneLetters rackLetters rack ts mid built r.
    destruct (clearForWord_spec lane ts) as [Hm1 Hm2].
    split; [exact Hm1|].
    assert (Hr : r = if built.1.1.1
                     then (true, Lane.setOwner (Some P2) built.1.1.2, built.1.2, built.2)
                     else built).
    { subst r built mid. apply playWord_unfold. }
    split; [exact Hr|].
    pose proof (buildWord_built (chars (strToUpperCase w)) laneLetters rackLetters
                                ∅ ∅ mid.1 rack mid.2) as HB.
    cbn zeta in HB. fold built in HB. destruct HB as [Bo Bt _ _ _ _ _].
    subst mid. rewrite Hm1, H3 in Bo. rewrite Hm1, H4 in Bt.
    rewrite Hr. destruct (built.1.1.1) eqn:Eok; simpl.
    + split; [discriminate|]. auto.
    + split; [|rewrite Eok; discriminate]. auto.
  - intros b f t b'. apply moveLaneTiles_source_cleared.
Qed.

Example clear_on_example :
  (owner laneAT, Lane.getWord laneAT) = (Some P1, "AT"%string)
  ∧ (owner (Lane.clear laneAT).2, temporaryOwner (Lane.clear laneAT).2,
     Lane.getWord (Lane.clear laneAT).2) = (None, None, ""%string)
  ∧ map letter (Lane.clear laneAT).1 = ["A"; "T"]%char.
Proof. vm_compute. repeat split; reflexivity. Qed.

(** C3, as stated, fails: with the word BEAT chosen for the lane AT and the
    rack letters selected in the order B, E from the rack E, B, the rack
    search skips the E tile (position 0 is marked used for the selection
    index 0), [playWord] returns [false], and the lane, the rack and the pool
    all differ from what they were: the lane has lost AT and its owner and
    holds the lone B, the rack has lost B, the pool has gained A and T. *)
Lemma playWord_failure_is_not_rolled_back :
  let r := AI.playWord "beat" ["A"; "T"]%char ["B"; "E"]%char laneAT rackEB poolZ in
  r.1.1.1 = false
  ∧ Lane.getWord laneAT = "AT"%string ∧ owner laneAT = Some P1
  ∧ Lane.getWord r.1.1.2 = "B"%string ∧ owner r.1.1.2 = None
  ∧ r.1.1.2 ≠ laneAT
  ∧ TileContainer.getLetters r.1.2 = ["E"]%char ∧ r.1.2 ≠ rackEB
  ∧ map td_letter (remainingTiles r.2) = ["Z"; "A"; "T"]%char ∧ r.2 ≠ poolZ
  ∧ AI.playBestWord dictBeat 5 [] pickSecondFirst laneAT rackEB poolZ = r.
Proof.
  vm_compute. repeat split; try reflexivity; discriminate.
Qed.

(** C3, amended. When [playWord] cannot match a letter it returns [false]
    with the lane never handed to player 2: the lane was cleared first, so its
    owner and temporary owner are neutral, and the pool's persistent
    collection is untouched.  For a word no longer than the lane's capacity
    the lane then spells a proper prefix of the upper-cased word (the letters
    matched before the failure), and the total number of tiles across lane,
    rack and pool is what it was before the attempt. *)
Theorem playWord_failure_keeps_lane_neutral_and_tile_total :
  ∀ (w : string) (laneLetters rackLetters : list ascii)
    (lane : Lane) (rack : TileContainer) (ts : TileSet),
    let r := AI.playWord w laneLetters rackLetters lane rack ts in
    r.1.1.1 = false →
    owner r.1.1.2 = None
    ∧ temporaryOwner r.1.1.2 = None
    ∧ persistentTiles r.2 = persistentTiles ts
    ∧ (String.length w ≤ maxTiles (container lane) →
       (∃ k, k < String.length w
             ∧ map letter (Lane.laneTiles r.1.1.2)
               = take k (chars (strToUpperCase w)))
       ∧ length (Lane.laneTiles r.1.1.2) + length (tiles r.1.2)
           + length (remainingTiles r.2)
         = length (Lane.laneTiles lane) + length (tiles rack)
           + length (remainingTiles ts)).
Proof.
  intros w laneLetters rackLetters lane rack ts r Hfail.
  subst r. rewrite playWord_unfold in *. cbn zeta in *.
  destruct (clearForWord_spec lane ts) as [Hm1 Hm2].
  destruct (lane_clear_spec lane) as (_ & Hc & Ho & Hto & Hcap).
  pose proof (buildWord_built (chars (strToUpperCase w)) laneLetters rackLetters
                ∅ ∅ (AI.clearForWord lane ts).1 rack (AI.clearForWord lane ts).2) as HB.
  cbn zeta in HB. rewrite Hm1, Hm2 in *.
  destruct (AI.buildWord _ _ _ _ _ _ _ _) as [[[ok lane'] rack'] ts'] eqn:Eb.
  cbn [fst snd] in *. destruct ok; [discriminate|]. cbn [fst snd] in *.
  destruct HB as [Bo Bt Bc _ Bp Bn Bl].
  assert (Hlen : length (chars (strToUpperCase w)) = String.length w).
  { rewrite chars_strToUpperCase, length_map. apply length_chars. }
  split; [congruence|]. split; [congruence|].
  split.
  { rewrite Bp. apply returnTiles_persistent. }
  intros Hw. rewrite Hc, Hcap, Hlen in *. simpl in *. split.
  - destruct (Bl Hw (upper_chars_fixed w)) as (k & Hk & Hlt).
    exists k. split; [lia|exact Hk].
  - rewrite (Bn Hw), returnTiles_count. lia.
Qed.

Lemma playWord_failure_keeps_lane_neutral_and_tile_total_witness :
  let r := AI.playWord "beat" ["A"; "T"]%char ["B"; "E"]%char laneAT rackEB poolZ in
  owner r.1.1.2 = None
  ∧ temporaryOwner r.1.1.2 = None
  ∧ persistentTiles r.2 = persistentTiles poolZ
  ∧ (String.length "beat" ≤ maxTiles (container laneAT) →
     (∃ k, k < String.length "beat"
           ∧ map letter (Lane.laneTiles r.1.1.2)
             = take k (chars (strToUpperCase "beat")))
     ∧ length (Lane.laneTiles r.1.1.2) + length (tiles r.1.2)
         + length (remainingTiles r.2)
       = length (Lane.laneTiles laneAT) + length (tiles rackEB)
         + length (remainingTiles poolZ)).
Proof.
  apply (playWord_failure_keeps_lane_neutral_and_tile_total
           "beat" ["A"; "T"]%char ["B"; "E"]%char laneAT rackEB poolZ).
  vm_compute. reflexivity.
Defined.

(** ** Health *)

Section HealthFacts.
Import Board.

Lemma dealDamage_spec target amount b :
  let b' := dealDamage target amount b in
  match target with
  | P1 => playerHealth b' = Z.max 0 (playerHealth b - amount)
          ∧ enemyHealth b' = enemyHealth b
  | P2 => enemyHealth b' = Z.max 0 (enemyHealth b - amount)
          ∧ playerHealth b' = playerHealth b
  end
  ∧ playerMaxHealth b' = playerMaxHealth b
  ∧ lanes b' = lanes b ∧ currentPlayer b' = currentPlayer b.
Proof. destruct target; simpl; auto. Qed.

Lemma dealDamage_healthy target amount b :
  healthy b → healthy (dealDamage target amount b).
Proof.
  unfold healthy. intros (H1 & H2 & H3).
  destruct target; simpl; repeat split; lia.
Qed.

Lemma processCombat_healthy rm b : healthy b → healthy (processCombat rm b).
Proof.
  intros H. unfold processCombat.
  destruct (combatTotals rm b) as [pd ed].
  destruct (0 <? pd)%Z; destruct (0 <? ed)%Z;
    repeat apply dealDamage_healthy; exact H.
Qed.

Lemma countPower_nonneg p l : (0 ≤ Lane.countPower p l)%Z.
Proof. unfold Lane.countPower. lia. Qed.

Lemma processSpecialEffects_healthy i b :
  healthy b → healthy (processSpecialEffects i b).
Proof.
  intros H. unfold processSpecialEffects.
  destruct (lanes b !! i) as [lane|]; [|exact H].
  set (effects := Lane.getSpecialEffects lane).
  set (b1 := if (0 <? eff_shield effects)%Z && bool_decide (currentPlayer b = P1)
             then _ else b).
  assert (H1 : healthy b1).
  { subst b1.
    destruct ((0 <? eff_shield effects)%Z && bool_decide (currentPlayer b = P1))
      eqn:E; [|exact H].
    apply andb_true_iff in E as [E _]. apply Z.ltb_lt in E.
    destruct H as (Hp & He & Hm). unfold healthy. simpl.
    pose proof (countPower_nonneg shield lane). repeat split; lia. }
  set (b2 := if (0 <? eff_heal effects)%Z && bool_decide (currentPlayer b1 = P1)
             then _ else b1).
  assert (H2 : healthy b2).
  { subst b2.
    destruct ((0 <? eff_heal effects)%Z && bool_decide (currentPlayer b1 = P1))
      eqn:E; [|exact H1].
    apply andb_true_iff in E as [E _]. apply Z.ltb_lt in E.
    destruct H1 as (Hp & He & Hm). unfold healthy. simpl.
    pose proof (countPower_nonneg heal lane). repeat split; lia. }
  set (b3 := if (0 <? eff_meteor effects)%Z then _ else b2).
  assert (H3 : healthy b3).
  { subst b3. destruct (0 <? eff_meteor effects)%Z; [|exact H2].
    destruct (currentPlayer b2); apply dealDamage_healthy; exact H2. }
  exact H3.
Qed.

Lemma applyEvent_healthy rm b e : healthy b → healthy (applyEvent rm b e).
Proof.
  destruct e; simpl.
  - apply processCombat_healthy.
  - apply processSpecialEffects_healthy.
  - apply dealDamage_healthy.
Qed.

Lemma events_healthy rm events b :
  healthy b → healthy (fold_left (applyEvent rm) events b).
Proof.
  revert b. induction events as [|e events IH]; intros b H; simpl; [exact H|].
  apply IH. apply applyEvent_healthy. exact H.
Qed.
End HealthFacts.

(** C10. [dealDamage] sets the target's pool to [max(0, health - amount)],
    whatever the amount, and touches nothing else of the health state; so
    from a board whose pools (and the player's maximum, which the heal effect
    compares against) are not negative, every sequence of combat
    resolutions, lane special effects (shield, heal, meteor) and direct
    damage leaves both [playerHealth] and [enemyHealth] at zero or above. *)
Theorem health_is_never_negative :
  ∀ (relicManager : RelicManager) (b : Board),
    (∀ amount,
       playerHealth (Board.dealDamage P1 amount b) = Z.max 0 (playerHealth b - amount)
       ∧ enemyHealth (Board.dealDamage P1 amount b) = enemyHealth b
       ∧ enemyHealth (Board.dealDamage P2 amount b) = Z.max 0 (enemyHealth b - amount)
       ∧ playerHealth (Board.dealDamage P2 amount b) = playerHealth b
       ∧ (0 ≤ playerHealth (Board.dealDamage P1 amount b))%Z
       ∧ (0 ≤ enemyHealth (Board.dealDamage P2 amount b))%Z)
    ∧ ((0 ≤ playerHealth b)%Z → (0 ≤ enemyHealth b)%Z → (0 ≤ playerMaxHealth b)%Z →
       ∀ events : list HealthEvent,
         let b' := fold_left (applyEvent relicManager) events b in
         (0 ≤ playerHealth b')%Z ∧ (0 ≤ enemyHealth b')%Z).
Proof.
  intros rm b. split.
  - intros amount. simpl. repeat split; lia.
  - intros Hp He Hm events b'.
    destruct (events_healthy rm events b) as (H1 & H2 & _);
      [unfold healthy; auto|]. auto.
Qed.

(** Damage beyond the remaining health stops at zero: three meteors against
    an enemy at two, then a combat pass in which the enemy's two-letter lane
    hits a player at one. *)
Example health_clamped_on_example :
  let b' := fold_left (applyEvent RelicManager.relicManager)
                      [EvSpecialEffects 0; EvCombat] lowHealthBoard in
  (playerHealth b', enemyHealth b') = (0%Z, 0%Z).
Proof. vm_compute. reflexivity. Qed.

(** ** Combat *)

Section CombatFacts.
Import Board.

Lemma calculateDamage_owned lane p :
  owner lane = Some p → Lane.calculateDamage lane = length (Lane.laneTiles lane).
Proof.
  intros H. unfold Lane.calculateDamage, Lane.getEffectiveOwner.
  destruct (temporaryOwner lane); [reflexivity|]. rewrite H. reflexivity.
Qed.

Lemma positive_count n : (0 <? Z.of_nat n)%Z = negb (n =? 0).
Proof. destruct n; reflexivity. Qed.

Lemma combatLane_spec rm acc lane :
  combatLane rm acc lane
  = ((acc.1 + (if scoringLane P1 lane then specLaneDamage rm P1 lane else 0))%Z,
     (acc.2 + (if scoringLane P2 lane then unscaledLaneDamage rm P2 lane else 0))%Z).
Proof.
  unfold combatLane, scoringLane, specLaneDamage, unscaledLaneDamage.
  destruct acc as [pd ed]. simpl fst. simpl snd.
  destruct (owner lane) as [[|]|] eqn:Ho.
  - rewrite (calculateDamage_owned lane P1 Ho), positive_count.
    repeat case_bool_decide; try congruence; simpl;
      destruct (length (Lane.laneTiles lane) =? 0); simpl; f_equal; lia.
  - rewrite (calculateDamage_owned lane P2 Ho), positive_count.
    repeat case_bool_decide; try congruence; simpl;
      destruct (length (Lane.laneTiles lane) =? 0); simpl; f_equal; lia.
  - repeat case_bool_decide; try congruence. simpl. f_equal; lia.
Qed.

Lemma combat_fold rm ls acc :
  fold_left (combatLane rm) ls acc
  = ((acc.1 + sideDamage (specLaneDamage rm P1) P1 ls)%Z,
     (acc.2 + sideDamage (unscaledLaneDamage rm P2) P2 ls)%Z).
Proof.
  revert acc. induction ls as [|lane ls IH]; intros [pd ed]; simpl.
  - f_equal; lia.
  - rewrite IH, combatLane_spec. simpl. f_equal; lia.
Qed.

Lemma combatTotals_spec rm b :
  combatTotals rm b
  = (sideDamage (specLaneDamage rm P1) P1 (lanes b),
     sideDamage (unscaledLaneDamage rm P2) P2 (lanes b)).
Proof. unfold combatTotals. rewrite combat_fold. reflexivity. Qed.

Lemma processCombat_spec rm b :
  processCombat rm b
  = applyTotals (sideDamage (specLaneDamage rm P1) P1 (lanes b))
                (sideDamage (unscaledLaneDamage rm P2) P2 (lanes b)) b.
Proof.
  unfold processCombat. rewrite combatTotals_spec. unfold applyTotals.
  destruct (0 <? sideDamage (specLaneDamage rm P1) P1 (lanes b))%Z;
    destruct (0 <? sideDamage (unscaledLaneDamage rm P2) P2 (lanes b))%Z;
    destruct b; reflexivity.
Qed.


End CombatFacts.

(** Outside the states the game reaches: [activateRelic] accepts an
    enemy-only weakness for player 1 when called directly, and the enemy
    branch of [processCombat] has no vulnerability factor.  With "Bug Words"
    on the player's side and the enemy owning the lane ANT, the formula with
    the opposing vulnerability gives 6 but the loop totals 3 and the player
    goes from 30 to 27. *)
Lemma enemy_lane_ignores_player_vulnerability :
  scoringLane P2 (laneWith 0 P2 tilesANT) = true
  ∧ (RelicManager.activateRelic "Bug Words" P1 RelicManager.relicManager).1 = true
  ∧ specLaneDamage bugManager P2 (laneWith 0 P2 tilesANT) = 6%Z
  ∧ Board.combatTotals bugManager bugBoard = (0%Z, 3%Z)
  ∧ playerHealth bugBoard = 30%Z
  ∧ playerHealth (Board.processCombat bugManager bugBoard) = 27%Z.
Proof. vm_compute. repeat split; reflexivity. Qed.

(** For any registry and any active relics: the player's side is scored
    with the enemy's vulnerability factor, the enemy's side without one. *)
Lemma processCombat_totals :
  ∀ (relicManager : RelicManager) (b : Board),
    let playerDamage := sideDamage (specLaneDamage relicManager P1) P1 (lanes b) in
    let enemyDamage := sideDamage (unscaledLaneDamage relicManager P2) P2 (lanes b) in
    Board.combatTotals relicManager b = (playerDamage, enemyDamage)
    ∧ Board.processCombat relicManager b = applyTotals playerDamage enemyDamage b.
Proof.
  intros rm b playerDamage enemyDamage.
  split; [apply combatTotals_spec|apply processCombat_spec].
Qed.

(** Scenario 4: Alpha doubles ANT, the enemy has no weakness to it, and the
    enemy pool goes from 30 to 24. *)
Example alpha_ant_deals_6 :
  RelicManager.getMultResult getWordScoreMult alphaManager P1 "ANT" = 2%Q
  ∧ Board.combatTotals alphaManager alphaBoard = (6%Z, 0%Z)
  ∧ enemyHealth (Board.processCombat alphaManager alphaBoard) = 24%Z.
Proof. vm_compute. repeat split; reflexivity. Qed.

(** ** Mulligan *)

Section MulliganFacts.
Import Board.

Lemma same_refl b : sameButHealthAndLanes b b.
Proof. unfold sameButHealthAndLanes. auto 10. Qed.

Lemma same_trans b1 b2 b3 :
  sameButHealthAndLanes b1 b2 → sameButHealthAndLanes b2 b3 →
  sameButHealthAndLanes b1 b3.
Proof.
  unfold sameButHealthAndLanes.
  intros (A1 & A2 & A3 & A4 & A5 & A6 & A7 & A8 & A9)
         (B1 & B2 & B3 & B4 & B5 & B6 & B7 & B8 & B9).
  repeat split; congruence.
Qed.

Lemma same_setPlayerHealth h m b : sameButHealthAndLanes b (setPlayerHealth h m b).
Proof. unfold sameButHealthAndLanes. simpl. auto 10. Qed.

Lemma same_dealDamage target amount b :
  sameButHealthAndLanes b (dealDamage target amount b).
Proof. unfold sameButHealthAndLanes. destruct target; simpl; auto 10. Qed.

Lemma same_setLanes ls b :
  length ls = length (lanes b) → sameButHealthAndLanes b (setLanes ls b).
Proof. unfold sameButHealthAndLanes. simpl. auto 10. Qed.

Lemma processSpecialEffects_frame i b :
  sameButHealthAndLanes b (processSpecialEffects i b).
Proof.
  unfold processSpecialEffects.
  destruct (lanes b !! i) as [lane|]; [|apply same_refl].
  set (effects := Lane.getSpecialEffects lane).
  set (b1 := if (0 <? eff_shield effects)%Z && bool_decide (currentPlayer b = P1)
             then _ else b).
  assert (H1 : sameButHealthAndLanes b b1).
  { subst b1.
    destruct ((0 <? eff_shield effects)%Z && bool_decide (currentPlayer b = P1));
      [apply same_setPlayerHealth|apply same_refl]. }
  set (b2 := if (0 <? eff_heal effects)%Z && bool_decide (currentPlayer b1 = P1)
             then _ else b1).
  assert (H2 : sameButHealthAndLanes b1 b2).
  { subst b2.
    destruct ((0 <? eff_heal effects)%Z && bool_decide (currentPlayer b1 = P1));
      [apply same_setPlayerHealth|apply same_refl]. }
  set (b3 := if (0 <? eff_meteor effects)%Z then _ else b2).
  assert (H3 : sameButHealthAndLanes b2 b3).
  { subst b3. destruct (0 <? eff_meteor effects)%Z; [|apply same_refl].
    destruct (currentPlayer b2); apply same_dealDamage. }
  eapply same_trans; [exact H1|]. eapply same_trans; [exact H2|].
  eapply same_trans; [exact H3|]. apply same_setLanes. apply length_insert.
Qed.

Lemma acceptLane_frame b i : sameButHealthAndLanes b (acceptLane b i).
Proof.
  unfold acceptLane. destruct (lanes b !! i) as [lane|]; [|apply same_refl].
  destruct (Lane.hasNewTiles lane).
  - eapply same_trans; [apply same_setLanes; apply length_insert|].
    eapply same_trans; [apply processSpecialEffects_frame|].
    apply same_setLanes. apply length_alter.
  - apply same_setLanes. apply length_alter.
Qed.

Lemma acceptLanes_frame indices b :
  sameButHealthAndLanes b (fold_left acceptLane indices b).
Proof.
  revert b. induction indices as [|i indices IH]; intros b; simpl; [apply same_refl|].
  eapply same_trans; [apply acceptLane_frame|apply IH].
Qed.

Lemma mulligan_other_player rm full rng b :
  currentPlayer b ≠ P1 → mulligan rm full rng b = b.
Proof.
  intros H. unfold mulligan. rewrite bool_decide_eq_true_2 by exact H. reflexivity.
Qed.

Lemma mulligan_player_1 rm full rng b :
  currentPlayer b = P1 →
  let hand := fillRack rm rng (TileContainer.clear (playerRack b)).2
                       (TileSet.returnTiles (tiles (playerRack b)) (playerTileSet b))
                       P1 in
  mulligan rm full rng b
  = setMulligan (if full then mulliganCount b else mulliganCount b - 1)%Z
                (if full then hasUsedMulligan b else true)
                (setPlayerHand hand.1 hand.2 b).
Proof.
  intros H hand. unfold mulligan.
  rewrite bool_decide_eq_false_2 by (rewrite H; intros Hne; apply Hne; reflexivity).
  unfold TileContainer.clear. cbn [fst snd]. subst hand.
  unfold TileContainer.clear. cbn [fst snd].
  destruct (fillRack _ _ _ _ _) as [rack2 ts2]. destruct full; reflexivity.
Qed.

Lemma mulligan_hand rm rng b :
  let hand := fillRack rm rng (TileContainer.clear (playerRack b)).2
                       (TileSet.returnTiles (tiles (playerRack b)) (playerTileSet b))
                       P1 in
  length (tiles hand.1)
  = Nat.min (maxTiles (playerRack b))
            (length (tiles (playerRack b)) + length (remainingTiles (playerTileSet b)))
  ∧ length (tiles hand.1) + length (remainingTiles hand.2)
    = length (tiles (playerRack b)) + length (remainingTiles (playerTileSet b))
  ∧ maxTiles hand.1 = maxTiles (playerRack b)
  ∧ persistentTiles hand.2 = persistentTiles (playerTileSet b).
Proof.
  intros hand. subst hand.
  set (rack1 := (TileContainer.clear (playerRack b)).2).
  set (ts1 := TileSet.returnTiles (tiles (playerRack b)) (playerTileSet b)).
  assert (Hw : withinCapacity rack1) by (unfold withinCapacity; simpl; lia).
  pose proof (fillRack_length rm rng rack1 ts1 P1 Hw) as Hlen.
  destruct (fillRack_spec rm rng rack1 ts1 P1) as [(Hm & _ & Hsum & _ & _) _].
  subst ts1. rewrite returnTiles_count in *. subst rack1. simpl in *.
  split; [rewrite Hlen; lia|]. split; [lia|]. split; [exact Hm|].
  rewrite fillRack_persistent. apply returnTiles_persistent.
Qed.
End MulliganFacts.

(** C8, as stated, fails when the opponent is the side to move: [mulligan]
    then returns at its first line.  Called in the normal mode on such a
    board it leaves the allowance at 3 instead of 2, does not mark the flag,
    and returns and redraws nobody's hand. *)
Lemma mulligan_ignored_when_opponent_moves :
  let b' := Board.mulligan RelicManager.relicManager false (λ n, n) opponentToMove in
  currentPlayer opponentToMove = P2
  ∧ b' = opponentToMove
  ∧ mulliganCount b' = 3%Z
  ∧ mulliganCount b' ≠ (mulliganCount opponentToMove - 1)%Z
  ∧ hasUsedMulligan b' = false.
Proof. vm_compute. repeat split; try reflexivity. discriminate. Qed.

(** C8, amended. [mulligan] acts only when player 1 is the side to move and
    is a no-op otherwise.  When it acts, in both modes the whole player hand
    goes back to the player's pool and the hand is refilled from that pool up
    to capacity or until the pool is exhausted (a full hand whenever hand
    plus pool hold at least the capacity); the normal mode lowers the
    allowance by exactly one and sets the turn's mulligan flag, the forced
    mode leaves both as they were; health, lanes, phase, side to move and the
    opponent's rack and pool are untouched.  The forced mode is what
    [endTurn] runs when the turn is accepted with player 1's hand still
    full, and the hand is full again afterwards. *)
Theorem mulligan_allowance_and_frame :
  ∀ (relicManager : RelicManager) (dictionary : DictionarySystem)
    (rng : nat → nat) (b : Board),
    (currentPlayer b ≠ P1 →
     ∀ full, Board.mulligan relicManager full rng b = b)
    ∧ (currentPlayer b = P1 →
       ∀ full,
         let b' := Board.mulligan relicManager full rng b in
         let returned := TileSet.returnTiles (tiles (playerRack b)) (playerTileSet b) in
         remainingTiles returned
         = remainingTiles (playerTileSet b) ++ map tileData (tiles (playerRack b))
         ∧ (playerRack b', playerTileSet b')
           = Board.fillRack relicManager rng (TileContainer.clear (playerRack b)).2
                            returned P1
         ∧ length (tiles (playerRack b'))
           = Nat.min (maxTiles (playerRack b))
                     (length (tiles (playerRack b))
                      + length (remainingTiles (playerTileSet b)))
         ∧ length (tiles (playerRack b')) + length (remainingTiles (playerTileSet b'))
           = length (tiles (playerRack b)) + length (remainingTiles (playerTileSet b))
         ∧ mulliganCount b' = (if full then mulliganCount b else mulliganCount b - 1)%Z
         ∧ hasUsedMulligan b' = (if full then hasUsedMulligan b else true)
         ∧ b' = Board.setMulligan (mulliganCount b') (hasUsedMulligan b')
                  (Board.setPlayerHand (playerRack b') (playerTileSet b') b))
    ∧ (state b = playing →
       Board.validateAllWords dictionary b = [] →
       TileContainer.isFull (playerRack b) = true →
       currentPlayer b = P1 →
       let accepted := fold_left Board.acceptLane (seq 0 (length (lanes b))) b in
       let r := Board.endTurn relicManager dictionary rng b in
       r = (true, [], Board.setState end_turn
                        (Board.mulligan relicManager true rng accepted))
       ∧ mulliganCount r.2 = mulliganCount b
       ∧ hasUsedMulligan r.2 = hasUsedMulligan b
       ∧ TileContainer.isFull (playerRack r.2) = true).
Proof.
  intros rm dict rng b.
  split; [intros Hne full; apply mulligan_other_player; exact Hne|].
  split.
  - intros Hp full b' returned. subst b' returned.
    rewrite (mulligan_player_1 rm full rng b Hp). cbn zeta.
    destruct (mulligan_hand rm rng b) as (Hlen & Hsum & _ & _). cbn zeta in *.
    destruct (Board.fillRack _ _ _ _ _) as [rack2 ts2]. simpl in *.
    split; [apply returnTiles_remaining|]. repeat split; auto.
  - intros Hs Hv Hfull Hp accepted r.
    destruct (acceptLanes_frame (seq 0 (length (lanes b))) b)
      as (Fp & _ & Fc & Fu & Fr & Ft & _).
    fold accepted in Fp, Fc, Fu, Fr, Ft.
    assert (Hr : r = (true, [], Board.setState end_turn
                                  (Board.mulligan rm true rng accepted))).
    { subst r. unfold Board.endTurn.
      rewrite bool_decide_eq_false_2 by (rewrite Hs; intros Hne; apply Hne; reflexivity).
      rewrite Hv. simpl. fold accepted. rewrite Fr, Hfull, Fp.
      rewrite bool_decide_eq_true_2 by exact Hp. reflexivity. }
    split; [exact Hr|]. rewrite Hr. cbn [snd].
    rewrite (mulligan_player_1 rm true rng accepted) by congruence. cbn zeta.
    destruct (mulligan_hand rm rng accepted) as (Hlen & _ & Hm & _). cbn zeta in *.
    destruct (Board.fillRack _ _ _ _ _) as [rack2 ts2]. simpl in *.
    split; [exact Fc|]. split; [exact Fu|].
    apply isFull_true. apply isFull_true in Hfull. rewrite Fr in *. lia.
Qed.

(** With the player to move, a hand of seven and a pool of twenty: the normal
    mode costs one of the three mulligans and sets the flag, the forced mode
    costs nothing, and both redraw seven tiles. *)
Example mulligan_on_example :
  mulliganView playerToMove = (3%Z, false, 7, 20)
  ∧ mulliganView (Board.mulligan RelicManager.relicManager false (λ n, n) playerToMove)
    = (2%Z, true, 7, 20)
  ∧ mulliganView (Board.mulligan RelicManager.relicManager true (λ n, n) playerToMove)
    = (3%Z, false, 7, 20).
Proof. vm_compute. repeat split; reflexivity. Qed.

(** ** Turn validation *)

Section ValidationFacts.
Import Board.

Lemma laneInvalid_offending dict p lane :
  laneInvalid dict p lane = true ↔ offending dict p lane.
Proof.
  unfold laneInvalid, offending, Lane.hasNewTiles.
  destruct (startTurnTileCount lane <? length (Lane.laneTiles lane)) eqn:En; simpl.
  - apply Nat.ltb_lt in En.
    destruct (String.length (Lane.getWord lane) <? CONFIG.MIN_WORD_LENGTH) eqn:El.
    + apply Nat.ltb_lt in El. split; auto.
    + apply Nat.ltb_ge in El. rewrite negb_true_iff. split.
      * auto.
      * intros [_ [Hl|Hw]]; [lia|exact Hw].
  - apply Nat.ltb_ge in En. split; [discriminate|]. intros [Hl _]. lia.
Qed.

Lemma validateFrom_spec dict p ls k i :
  i ∈ validateFrom dict p k ls
  ↔ ∃ j lane, i = k + j ∧ ls !! j = Some lane ∧ laneInvalid dict p lane = true.
Proof.
  revert k. induction ls as [|lane ls IH]; intros k; simpl.
  - split; [intros H; inversion H|]. intros (j & l & _ & Hl & _). discriminate.
  - split.
    + intros H. destruct (laneInvalid dict p lane) eqn:Ei.
      * apply elem_of_cons in H as [->|H].
        -- exists 0, lane. split; [lia|]. auto.
        -- apply IH in H as (j & l & -> & Hl & Hinv).
           exists (S j), l. split; [lia|]. auto.
      * apply IH in H as (j & l & -> & Hl & Hinv).
        exists (S j), l. split; [lia|]. auto.
    + intros (j & l & -> & Hl & Hinv). destruct j as [|j]; simpl in Hl.
      * injection Hl as ->. rewrite Hinv. rewrite Nat.add_0_r. apply list_elem_of_here.
      * assert (k + S j ∈ validateFrom dict p (S k) ls).
        { apply IH. exists j, l. split; [lia|]. auto. }
        destruct (laneInvalid dict p lane); [apply list_elem_of_further|]; assumption.
Qed.

Lemma validateFrom_sorted dict p ls k :
  StronglySorted lt (validateFrom dict p k ls).
Proof.
  revert k. induction ls as [|lane ls IH]; intros k; simpl; [constructor|].
  destruct (laneInvalid dict p lane); [|apply IH].
  constructor; [apply IH|]. apply Forall_forall. intros i Hi.
  apply validateFrom_spec in Hi as (j & _ & -> & _). lia.
Qed.
End ValidationFacts.

(** C2. In the [playing] phase, if some lane that gained tiles since its
    turn-start snapshot holds a word shorter than 2 letters or unknown to the
    acting side's dictionary, [endTurn] returns [false], hands to the shake
    signal exactly the indices of the offending lanes (each once, in
    ascending order), and leaves the board as it was: no owner changes, the
    hand and pool are untouched and the phase is still [playing], so that
    submitting again gives the same answer. *)
Theorem endTurn_rejects_invalid_lanes :
  ∀ (relicManager : RelicManager) (dictionary : DictionarySystem)
    (rng : nat → nat) (b : Board),
    state b = playing →
    (∃ i lane, lanes b !! i = Some lane
               ∧ offending dictionary (currentPlayer b) lane) →
    ∃ invalidLanes,
      Board.endTurn relicManager dictionary rng b = (false, invalidLanes, b)
      ∧ (∀ i, i ∈ invalidLanes
              ↔ ∃ lane, lanes b !! i = Some lane
                        ∧ offending dictionary (currentPlayer b) lane)
      ∧ StronglySorted lt invalidLanes
      ∧ map owner (lanes (Board.endTurn relicManager dictionary rng b).2)
        = map owner (lanes b)
      ∧ playerRack (Board.endTurn relicManager dictionary rng b).2 = playerRack b
      ∧ playerTileSet (Board.endTurn relicManager dictionary rng b).2
        = playerTileSet b
      ∧ state (Board.endTurn relicManager dictionary rng b).2 = playing
      ∧ Board.endTurn relicManager dictionary rng
                      (Board.endTurn relicManager dictionary rng b).2
        = Board.endTurn relicManager dictionary rng b.
Proof.
  intros rm dict rng b Hs (i0 & lane0 & Hl0 & Hoff0).
  assert (Hspec : ∀ i, i ∈ Board.validateAllWords dict b
                       ↔ ∃ lane, lanes b !! i = Some lane
                                 ∧ offending dict (currentPlayer b) lane).
  { intros i. unfold Board.validateAllWords. rewrite validateFrom_spec. split.
    - intros (j & lane & -> & Hl & Hinv). exists lane. split; [exact Hl|].
      apply laneInvalid_offending. exact Hinv.
    - intros (lane & Hl & Hoff). exists i, lane. split; [reflexivity|].
      split; [exact Hl|]. apply laneInvalid_offending. exact Hoff. }
  assert (Hne : (0 <? length (Board.validateAllWords dict b)) = true).
  { apply Nat.ltb_lt.
    assert (Hin : i0 ∈ Board.validateAllWords dict b) by (apply Hspec; eauto).
    destruct (Board.validateAllWords dict b); [inversion Hin|simpl; lia]. }
  assert (He : Board.endTurn rm dict rng b
               = (false, Board.validateAllWords dict b, b)).
  { unfold Board.endTurn.
    rewrite bool_decide_eq_false_2 by (rewrite Hs; intros Hn; apply Hn; reflexivity).
    cbn zeta. rewrite Hne. reflexivity. }
  exists (Board.validateAllWords dict b). rewrite He. cbn [snd].
  split; [reflexivity|]. split; [exact Hspec|].
  split; [apply validateFrom_sorted|]. repeat split; auto.
Qed.

Lemma endTurn_rejects_invalid_lanes_witness :
  ∃ invalidLanes,
    Board.endTurn RelicManager.relicManager dictCat (λ n, n) badSubmit
    = (false, invalidLanes, badSubmit)
    ∧ (∀ i, i ∈ invalidLanes
            ↔ ∃ lane, lanes badSubmit !! i = Some lane
                      ∧ offending dictCat (currentPlayer badSubmit) lane)
    ∧ StronglySorted lt invalidLanes
    ∧ map owner (lanes (Board.endTurn RelicManager.relicManager dictCat (λ n, n)
                                      badSubmit).2)
      = map owner (lanes badSubmit)
    ∧ playerRack (Board.endTurn RelicManager.relicManager dictCat (λ n, n)
                                badSubmit).2 = playerRack badSubmit
    ∧ playerTileSet (Board.endTurn RelicManager.relicManager dictCat (λ n, n)
                                   badSubmit).2 = playerTileSet badSubmit
    ∧ state (Board.endTurn RelicManager.relicManager dictCat (λ n, n) badSubmit).2
      = playing
    ∧ Board.endTurn RelicManager.relicManager dictCat (λ n, n)
                    (Board.endTurn RelicManager.relicManager dictCat (λ n, n)
                                   badSubmit).2
      = Board.endTurn RelicManager.relicManager dictCat (λ n, n) badSubmit.
Proof.
  apply (endTurn_rejects_invalid_lanes RelicManager.relicManager dictCat
                                       (λ n, n) badSubmit).
  - reflexivity.
  - exists 0. eexists. split; [reflexivity|].
    split; [vm_compute; lia|]. right. vm_compute. reflexivity.
Defined.

(** On that board only lane 0 is reported: CAT in lane 1 is a word, and
    lane 2 gained nothing this turn. *)
Example endTurn_reports_lane_0 :
  Board.endTurn RelicManager.relicManager dictCat (λ n, n) badSubmit
  = (false, [0], badSubmit).
Proof. vm_compute. reflexivity. Qed.

(** ** The opponent's word search *)

Section SearchFacts.
Import AI.

Lemma occurrences_cons c x xs :
  occurrences c (x :: xs)
  = if decide (x = c) then S (occurrences c xs) else occurrences c xs.
Proof.
  unfold occurrences. simpl. destruct (ascii_dec x c); case_decide; congruence.
Qed.

Lemma fold_countLetter xs (m : gmap ascii nat) c :
  fold_left Dictionary.countLetter xs m !! c
  = if occurrences c xs =? 0 then m !! c
    else Some (default 0 (m !! c) + occurrences c xs).
Proof.
  revert m. induction xs as [|x xs IH]; intros m; [reflexivity|].
  cbn [fold_left]. rewrite IH, occurrences_cons. unfold Dictionary.countLetter.
  case_decide as Hx.
  - subst x. rewrite lookup_insert_eq. simpl.
    destruct (occurrences c xs =? 0) eqn:E.
    + apply Nat.eqb_eq in E. rewrite E. reflexivity.
    + f_equal. lia.
  - rewrite lookup_insert_ne by exact Hx. reflexivity.
Qed.

Lemma counts_of_letters xs c :
  fold_left Dictionary.countLetter xs ∅ !! c
  = if occurrences c xs =? 0 then None else Some (occurrences c xs).
Proof. rewrite fold_countLetter, lookup_empty. reflexivity. Qed.




Lemma chars_strToLowerCase w :
  chars (strToLowerCase w) = map toLowerCase (chars w).
Proof. unfold strToLowerCase. apply chars_join. Qed.



Lemma counts_default (n : nat) :
  default 0 (if n =? 0 then None else Some n) = n.
Proof. destruct n; reflexivity. Qed.

(** A loop over [Object.entries(m)] that returns [false] at the first entry
    whose count exceeds the count in [other]. *)
Lemma entries_forall (m other : gmap ascii nat) :
  forallb (λ '(l, count), negb (default 0 (other !! l) <? count)) (map_to_list m)
  = true
  ↔ ∀ l count, m !! l = Some count → count ≤ default 0 (other !! l).
Proof.
  rewrite forallb_forall. split.
  - intros H l count Hl.
    specialize (H (l, count)). simpl in H.
    assert (Hin : In (l, count) (map_to_list m)).
    { apply list_elem_of_In. apply elem_of_map_to_list. exact Hl. }
    specialize (H Hin). apply negb_true_iff, Nat.ltb_ge in H. exact H.
  - intros H [l count] Hin. apply list_elem_of_In, elem_of_map_to_list in Hin.
    apply negb_true_iff, Nat.ltb_ge. apply H. exact Hin.
Qed.



End SearchFacts.

Section SearchLoop.
Import AI.
Variable dictionary : DictionarySystem.
Variables allLetters requiredLetters : list ascii.


End SearchLoop.





(** With the lane AT and the letters T, A, L, E: "at" is not longer than the
    lane, "tea" and "eat" are shorter than "late", and "late" comes before
    "tale"; at difficulty 4 only the first entry is searched and nothing is
    found. *)
Example findBestWord_on_example :
  AI.findBestWord dictWords 5 ["T"; "A"; "L"; "E"]%char ["A"; "T"]%char
  = Some "late"%string
  ∧ AI.findBestWord dictWords 4 ["T"; "A"; "L"; "E"]%char ["A"; "T"]%char
    = None
  ∧ AI.findBestWord dictWords 5 ["T"; "A"; "L"; "E"]%char [] = Some "late"%string
  ∧ AI.findBestWord dictWords 5 ["X"; "Q"]%char [] = None.
Proof. vm_compute. repeat split; reflexivity. Qed.

(** * Further properties of the code *)

(** ** Shuffling *)

Lemma insert_swap_head {A} (l : list A) j a y :
  l !! j = Some y → y :: <[j := a]> l ≡ₚ a :: l.
Proof.
  revert j. induction l as [|x l IH]; intros [|j] H; simpl in *; try discriminate.
  - injection H as ->. apply Permutation_swap.
  - rewrite Permutation_swap. rewrite (IH j H). apply Permutation_swap.
Qed.

Lemma insert_insert_Permutation {A} (l : list A) :
  ∀ i j x y, l !! i = Some x → l !! j = Some y →
             <[j := x]> (<[i := y]> l) ≡ₚ l.
Proof.
  induction l as [|a l IH]; intros [|i] [|j] x y Hi Hj; simpl in *;
    try discriminate.
  - injection Hi as ->. injection Hj as ->. reflexivity.
  - injection Hi as ->. apply insert_swap_head. exact Hj.
  - injection Hj as ->. apply insert_swap_head. exact Hi.
  - constructor. apply IH; assumption.
Qed.

Lemma swap_Permutation {A} i j (l : list A) : swap i j l ≡ₚ l.
Proof.
  unfold swap. destruct (l !! i) as [x|] eqn:Hi; [|reflexivity].
  destruct (l !! j) as [y|] eqn:Hj; [|reflexivity].
  apply insert_insert_Permutation; assumption.
Qed.

Lemma shuffleFrom_Permutation {A} i rng (l : list A) : shuffleFrom i rng l ≡ₚ l.
Proof.
  revert rng l. induction i as [|i IH]; intros rng l; simpl; [reflexivity|].
  rewrite IH. apply swap_Permutation.
Qed.

Lemma shuffleArray_Permutation {A} rng (l : list A) : shuffleArray rng l ≡ₚ l.
Proof. apply shuffleFrom_Permutation. Qed.

(** ** The tile pool, continued *)

Section TileSetMore.
Import TileSet.

Lemma new_persistentTiles rng : persistentTiles (new rng) = initialTiles.
Proof. reflexivity. Qed.

Lemma initial_tiles_spec :
  ∀ rng,
    length (persistentTiles (new rng)) = 98
    ∧ Forall (λ d, upperLetter d ∧ td_power d = None) (persistentTiles (new rng)).
Proof.
  intros rng. unfold new, initializePersistentCollection, reset, shuffle. simpl.
  split; [reflexivity|]. repeat constructor.
Qed.

Lemma tileData_createTileFromData d :
  upperLetter d →
  {| td_letter := letter (createTileFromData d);
     td_power := getPowerForTileType (type (createTileFromData d)) |} = d.
Proof.
  unfold upperLetter, createTileFromData. destruct d as [l [[| |]|]]; simpl;
    intros ->; reflexivity.
Qed.

Lemma addPoweredTiles_spec l ts :
  persistentTiles (addPoweredTiles l ts)
  = persistentTiles ts
    ++ map (λ '(c, p), {| td_letter := toUpperCase c; td_power := Some p |}) l
  ∧ remainingTiles (addPoweredTiles l ts) = remainingTiles ts.
Proof.
  unfold addPoweredTiles. revert ts.
  induction l as [|[c p] l IH]; intros ts; simpl.
  - rewrite app_nil_r. auto.
  - destruct (IH {| persistentTiles :=
                      persistentTiles ts
                      ++ [{| td_letter := toUpperCase c; td_power := Some p |}];
                    remainingTiles := remainingTiles ts |}) as [H1 H2].
    rewrite H1, H2. simpl. rewrite <- app_assoc. auto.
Qed.

Lemma breakdown_fold l s h m :
  let '(s', h', m') :=
    fold_left
      (λ '(s, h, m) d,
         match td_power d with
         | Some shield => (s + 1, h, m)
         | Some heal => (s, h + 1, m)
         | Some meteor => (s, h, m + 1)
         | None => (s, h, m)
         end) l (s, h, m) in
  s' + h' + m' = s + h + m + length (filter (λ d, isPowered d = true) l).
Proof.
  revert s h m. induction l as [|d l IH]; intros s h m; simpl; [lia|].
  destruct (td_power d) as [[| |]|] eqn:E.
  - specialize (IH (s + 1) h m). destruct (fold_left _ l _) as [[s' h'] m'].
    rewrite filter_cons_True by (unfold isPowered; rewrite E; reflexivity).
    simpl. lia.
  - specialize (IH s (h + 1) m). destruct (fold_left _ l _) as [[s' h'] m'].
    rewrite filter_cons_True by (unfold isPowered; rewrite E; reflexivity).
    simpl. lia.
  - specialize (IH s h (m + 1)). destruct (fold_left _ l _) as [[s' h'] m'].
    rewrite filter_cons_True by (unfold isPowered; rewrite E; reflexivity).
    simpl. lia.
  - specialize (IH s h m). destruct (fold_left _ l _) as [[s' h'] m'].
    rewrite filter_cons_False by (unfold isPowered; rewrite E; discriminate).
    lia.
Qed.

Lemma existsb_findIndex {A} (p : A → bool) l :
  existsb p l = true ↔ is_Some (findIndex p l).
Proof.
  induction l as [|a l IH]; simpl.
  - split; [discriminate|]. intros [? ?]. discriminate.
  - destruct (p a); simpl; [split; eauto|].
    rewrite IH. destruct (findIndex p l); simpl; split; intros [? ?];
      (discriminate || eauto).
Qed.
End TileSetMore.

(** X1. [shuffle] only reorders the working copy and [reset] deals exactly
    the persistent collection into it: both are permutations, and neither
    touches the persistent collection.  A new tile set holds the 98 plain
    upper-case tiles of the letter distribution, all of them in the working
    copy: for every letter of [CONFIG.LETTER_DISTRIBUTION] the number of
    tiles with its upper-case form is the number given there (9 A, 2 B,
    2 C, 4 D, 12 E, ... , 2 Y, 1 Z), in the persistent collection and in
    the working copy alike, and these are all the tiles. *)
Theorem reset_deals_persistent_tiles :
  ∀ (rng : nat → nat) (ts : TileSet),
    remainingTiles (TileSet.shuffle rng ts) ≡ₚ remainingTiles ts
    ∧ persistentTiles (TileSet.shuffle rng ts) = persistentTiles ts
    ∧ remainingTiles (TileSet.reset rng ts) ≡ₚ persistentTiles ts
    ∧ persistentTiles (TileSet.reset rng ts) = persistentTiles ts
    ∧ TileSet.getRemainingCount (TileSet.reset rng ts) = TileSet.getTotalCount ts
    ∧ TileSet.getTotalCount (TileSet.new rng) = 98
    ∧ remainingTiles (TileSet.new rng) ≡ₚ persistentTiles (TileSet.new rng)
    ∧ Forall (λ d, upperLetter d ∧ td_power d = None)
             (remainingTiles (TileSet.new rng))
    ∧ Forall (λ '(l, count),
                letterCount (toUpperCase l) (persistentTiles (TileSet.new rng)) = count
                ∧ letterCount (toUpperCase l) (remainingTiles (TileSet.new rng)) = count)
             TileSet.LETTER_DISTRIBUTION
    ∧ map (λ c, letterCount c (remainingTiles (TileSet.new rng)))
          (chars "ABCDEFGHIJKLMNOPQRSTUVWXYZ")
      = [9; 2; 2; 4; 12; 2; 3; 2; 9; 1; 1; 4; 2; 6; 8; 2; 1; 6; 4; 6; 4; 2; 2; 1; 2; 1]
    ∧ (∀ c, letterCount c (remainingTiles (TileSet.new rng)) ≠ 0 →
            c ∈ chars "ABCDEFGHIJKLMNOPQRSTUVWXYZ").
Proof.
  intros rng ts.
  assert (Hs : ∀ ts0, remainingTiles (TileSet.shuffle rng ts0) ≡ₚ remainingTiles ts0).
  { intros ts0. unfold TileSet.shuffle. simpl. apply shuffleArray_Permutation. }
  assert (Hr : ∀ ts0, remainingTiles (TileSet.reset rng ts0) ≡ₚ persistentTiles ts0).
  { intros ts0. unfold TileSet.reset. rewrite Hs. reflexivity. }
  split; [apply Hs|]. split; [reflexivity|]. split; [apply Hr|].
  split; [reflexivity|].
  split; [unfold TileSet.getRemainingCount, TileSet.getTotalCount; rewrite Hr; reflexivity|].
  destruct (initial_tiles_spec rng) as [Hn Hall].
  split; [exact Hn|].
  assert (Hp : remainingTiles (TileSet.new rng) ≡ₚ persistentTiles (TileSet.new rng)).
  { unfold TileSet.new, TileSet.initializePersistentCollection. rewrite Hr. reflexivity. }
  split; [exact Hp|]. split; [rewrite Hp; exact Hall|].
  assert (Hcount : ∀ c, letterCount c (remainingTiles (TileSet.new rng))
                        = letterCount c (persistentTiles (TileSet.new rng))).
  { intros c. unfold letterCount. rewrite Hp. reflexivity. }
  rewrite (new_persistentTiles rng) in Hcount.
  split; [|split].
  - rewrite (new_persistentTiles rng).
    apply Forall_forall. intros [l count] Hin. rewrite Hcount.
    assert (Hpers : Forall (λ '(l, count), letterCount (toUpperCase l) initialTiles = count)
                           TileSet.LETTER_DISTRIBUTION).
    { unfold TileSet.LETTER_DISTRIBUTION.
      repeat (apply Forall_cons_2; [vm_compute; reflexivity|]). apply Forall_nil_2. }
    pose proof (proj1 (Forall_forall _ _) Hpers (l, count) Hin) as H. simpl in H. auto.
  - cbn [map chars]. rewrite !Hcount. vm_compute. reflexivity.
  - intros c. rewrite Hcount. intros Hc.
    destruct (decide (c ∈ chars "ABCDEFGHIJKLMNOPQRSTUVWXYZ")) as [|Hout]; [assumption|].
    exfalso. apply Hc. clear Hc. unfold letterCount.
    assert (Hall' : forallb (λ d, bool_decide (td_letter d
                                               ∈ chars "ABCDEFGHIJKLMNOPQRSTUVWXYZ"))
                            initialTiles = true) by (vm_compute; reflexivity).
    rewrite forallb_forall in Hall'. clear Hcount.
    induction initialTiles as [|d l IH]; [reflexivity|].
    rewrite filter_cons_False.
    + apply IH. intros x Hx. apply Hall'. right. exact Hx.
    + intros Hd. apply Hout. rewrite <- Hd.
      apply (bool_decide_eq_true_1 _ (Hall' d (or_introl eq_refl))).
Qed.

(** X2. Drawing a tile and returning it restores the working copy up to
    order: for a pool of upper-case letters, the entry that left comes back
    with the same letter and the same power (a plain tile as a plain letter),
    the persistent collection is untouched and the letters stay upper
    case. *)
Theorem draw_then_return_restores_pool :
  ∀ (l : option ascii) (r : nat) (ts ts' : TileSet) (t : Tile),
    Forall upperLetter (remainingTiles ts) →
    TileSet.drawTile l r ts = (Some t, ts') →
    remainingTiles (TileSet.returnTile t ts') ≡ₚ remainingTiles ts
    ∧ persistentTiles (TileSet.returnTile t ts') = persistentTiles ts
    ∧ Forall upperLetter (remainingTiles (TileSet.returnTile t ts'))
    ∧ TileSet.getPowerForTileType (type t) ∈ map td_power (remainingTiles ts).
Proof.
  intros l r ts ts' t Hup Hd.
  destruct (drawTile_cases l r ts) as [Hn|(pre & d & post & Hs & Hd')];
    [congruence|].
  rewrite Hd' in Hd. injection Hd as <- <-.
  assert (Hud : upperLetter d).
  { rewrite Hs in Hup. apply Forall_app in Hup as [_ Hup].
    apply Forall_cons in Hup as [Hud _]. exact Hud. }
  assert (Hp : remainingTiles (TileSet.returnTile (TileSet.createTileFromData d)
                                 (TileSet.setRemaining (pre ++ post) ts))
               = (pre ++ post) ++ [d]).
  { unfold TileSet.returnTile. simpl. rewrite (tileData_createTileFromData d Hud).
    reflexivity. }
  rewrite Hp, Hs. split.
  - rewrite <- app_assoc. apply Permutation_app_head.
    rewrite <- Permutation_cons_append. reflexivity.
  - split; [reflexivity|]. split.
    + rewrite Hs in Hup. apply Forall_app in Hup as [H1 H2].
      apply Forall_cons in H2 as [_ H2].
      repeat (apply Forall_app; split); auto.
    + pose proof (tileData_createTileFromData d Hud) as He.
      apply (f_equal td_power) in He. simpl in He. rewrite He.
      rewrite map_app. simpl. apply elem_of_app. right. apply list_elem_of_here.
Qed.

Lemma draw_then_return_restores_pool_witness :
  remainingTiles (TileSet.returnTile (mkTile "A" MAIN)
                    (TileSet.setRemaining [mkTileData "T" None; mkTileData "A" None]
                                          (plainPool "TAA")))
  ≡ₚ remainingTiles (plainPool "TAA")
  ∧ persistentTiles (TileSet.returnTile (mkTile "A" MAIN)
                       (TileSet.setRemaining [mkTileData "T" None; mkTileData "A" None]
                                             (plainPool "TAA")))
    = persistentTiles (plainPool "TAA")
  ∧ Forall upperLetter
           (remainingTiles (TileSet.returnTile (mkTile "A" MAIN)
                              (TileSet.setRemaining
                                 [mkTileData "T" None; mkTileData "A" None]
                                 (plainPool "TAA"))))
  ∧ TileSet.getPowerForTileType (type (mkTile "A" MAIN))
    ∈ map td_power (remainingTiles (plainPool "TAA")).
Proof.
  apply (draw_then_return_restores_pool (Some "a"%char) 0 (plainPool "TAA")).
  - repeat constructor.
  - reflexivity.
Defined.

(** X3. [canDrawLetter(letter)] answers [true] exactly when [drawTile(letter)]
    would hand out a tile, and that tile then carries the letter in upper
    case; when it answers [false] the draw returns [null] and the pool is
    unchanged. *)
Theorem canDrawLetter_iff_drawTile_succeeds :
  ∀ (l : ascii) (r : nat) (ts : TileSet),
    (TileSet.canDrawLetter l ts = true
     ↔ ∃ t ts', TileSet.drawTile (Some l) r ts = (Some t, ts')
                ∧ letter t = toUpperCase l)
    ∧ (TileSet.canDrawLetter l ts = false
       ↔ TileSet.drawTile (Some l) r ts = (None, ts)).
Proof.
  intros l r ts.
  assert (Hiff : TileSet.canDrawLetter l ts = true
                 ↔ ∃ t ts', TileSet.drawTile (Some l) r ts = (Some t, ts')
                            ∧ letter t = toUpperCase l).
  { unfold TileSet.canDrawLetter. rewrite existsb_findIndex. split.
    - intros [i Hi]. unfold TileSet.drawTile.
      destruct (remainingTiles ts) as [|d0 rest] eqn:E; [discriminate|].
      rewrite Hi. destruct (findIndex_Some _ _ _ Hi) as (d & Hd & Hp & _).
      rewrite Hd. simpl. eexists _, _. split; [reflexivity|].
      rewrite letter_createTileFromData. unfold TileSet.matchesLetter in Hp.
      apply bool_decide_eq_true in Hp. exact Hp.
    - intros (t & ts' & Hd & _). unfold TileSet.drawTile in Hd.
      destruct (remainingTiles ts) as [|d0 rest] eqn:E; [discriminate|].
      destruct (TileSet.findIndex (TileSet.matchesLetter l) (d0 :: rest));
        [eauto|discriminate]. }
  split; [exact Hiff|].
  destruct (TileSet.canDrawLetter l ts) eqn:Ec.
  - split; [discriminate|]. intros Hn.
    destruct (proj1 Hiff eq_refl) as (t & ts' & Hd & _). congruence.
  - split; [|reflexivity]. intros _.
    destruct (drawTile_cases (Some l) r ts) as [Hn|(pre & d & post & Hs & Hd)];
      [exact Hn|].
    assert (Ht : false = true); [|discriminate].
    apply Hiff. eexists _, _. split; [exact Hd|].
    eapply drawTile_Some_letter. exact Hd.
Qed.

(** X4. [addPoweredTiles] appends one powered upper-case entry per reward to
    the persistent collection, which therefore only grows, and leaves the
    working copy alone until the next [reset], which deals the enlarged
    collection; the powered count grows by the number of rewards and always
    equals the sum of the three entries of the breakdown. *)
Theorem addPoweredTiles_grows_persistent_only :
  ∀ (rewards : list (ascii * Power)) (rng : nat → nat) (ts : TileSet),
    let ts' := TileSet.addPoweredTiles rewards ts in
    persistentTiles ts `prefix_of` persistentTiles ts'
    ∧ TileSet.getTotalCount ts' = TileSet.getTotalCount ts + length rewards
    ∧ TileSet.getPoweredTileCount ts'
      = TileSet.getPoweredTileCount ts + length rewards
    ∧ remainingTiles ts' = remainingTiles ts
    ∧ TileSet.getRemainingCount (TileSet.reset rng ts')
      = TileSet.getTotalCount ts + length rewards
    ∧ (Forall upperLetter (persistentTiles ts) →
       Forall upperLetter (persistentTiles ts'))
    ∧ (let '(s, h, m) := TileSet.getPoweredTileBreakdown ts' in
       s + h + m = TileSet.getPoweredTileCount ts').
Proof.
  intros rewards rng ts ts'. subst ts'.
  destruct (addPoweredTiles_spec rewards ts) as [Hp Hr].
  assert (Hlen : TileSet.getTotalCount (TileSet.addPoweredTiles rewards ts)
                 = TileSet.getTotalCount ts + length rewards).
  { unfold TileSet.getTotalCount. rewrite Hp, length_app, length_map. reflexivity. }
  split; [rewrite Hp; apply prefix_app_r; reflexivity|].
  split; [exact Hlen|].
  split.
  { unfold TileSet.getPoweredTileCount. rewrite Hp, filter_app, length_app.
    f_equal. clear. induction rewards as [|[c p] rewards IH]; simpl; [reflexivity|].
    rewrite IH. reflexivity. }
  split; [exact Hr|].
  split.
  { unfold TileSet.getRemainingCount, TileSet.reset, TileSet.shuffle. simpl.
    rewrite shuffleArray_Permutation. exact Hlen. }
  split.
  { intros Hup. rewrite Hp. apply Forall_app. split; [exact Hup|].
    apply Forall_forall. intros d Hd. apply list_elem_of_fmap in Hd as ([c p] & -> & _).
    unfold upperLetter. simpl. apply toUpperCase_idemp. }
  unfold TileSet.getPoweredTileBreakdown, TileSet.getPoweredTileCount.
  pose proof (breakdown_fold (persistentTiles (TileSet.addPoweredTiles rewards ts)) 0 0 0) as H.
  destruct (fold_left _ _ _) as [[s h] m]. simpl in H. exact H.
Qed.

(** X5. [getRandomUnupgradedTiles(count)] offers letters of distinct unpowered
    entries of the persistent collection: the result is a sub-multiset of
    their upper-cased letters, of length [min(count, number of unpowered
    entries)], and never contains the letter of a powered entry unless a
    plain entry has it too. *)
Theorem getRandomUnupgradedTiles_picks_plain_letters :
  ∀ (rng : nat → nat) (count : nat) (ts : TileSet),
    let plain := filter (λ d, TileSet.isPowered d = false) (persistentTiles ts) in
    let offered := TileSet.getRandomUnupgradedTiles rng count ts in
    offered ⊆+ map (λ d, toUpperCase (td_letter d)) plain
    ∧ length offered = Nat.min count (length plain)
    ∧ ∀ c, c ∈ offered →
           ∃ d, d ∈ persistentTiles ts ∧ td_power d = None
                ∧ toUpperCase (td_letter d) = c.
Proof.
  intros rng count ts plain offered. subst offered.
  unfold TileSet.getRandomUnupgradedTiles. fold plain.
  set (letters := map (λ d, toUpperCase (td_letter d)) plain).
  assert (Hsub : take count (shuffleArray rng letters) ⊆+ letters).
  { rewrite <- (shuffleArray_Permutation rng letters) at 2.
    apply sublist_submseteq. apply sublist_take. }
  split; [exact Hsub|]. split.
  - rewrite length_take. rewrite shuffleArray_Permutation.
    subst letters. rewrite length_map. reflexivity.
  - intros c Hc. eapply elem_of_submseteq in Hc; [|exact Hsub].
    subst letters. apply list_elem_of_fmap in Hc as (d & -> & Hd).
    subst plain. apply list_elem_of_filter in Hd as [Hp Hd].
    exists d. split; [exact Hd|]. split; [|reflexivity].
    unfold TileSet.isPowered in Hp. destruct (td_power d); [discriminate|reflexivity].
Qed.

(** ** The dictionary *)

Section DictionaryFacts.

Lemma toLowerCase_idemp c : toLowerCase (toLowerCase c) = toLowerCase c.
Proof. destruct c as [[] [] [] [] [] [] [] []]; reflexivity. Qed.

Lemma join_chars s : join (chars s) = s.
Proof. induction s as [|c s IH]; simpl; congruence. Qed.

Lemma strToLowerCase_idemp w : strToLowerCase (strToLowerCase w) = strToLowerCase w.
Proof.
  unfold strToLowerCase. rewrite chars_join. f_equal.
  rewrite map_map. apply map_ext. intros c. apply toLowerCase_idemp.
Qed.

Lemma Dictionary_getLetterCounts_lookup w c :
  Dictionary.getLetterCounts w !! c
  = if occurrences c (lettersAZ (chars w)) =? 0 then None
    else Some (occurrences c (lettersAZ (chars w))).
Proof.
  unfold Dictionary.getLetterCounts, lettersAZ. rewrite chars_strToLowerCase.
  rewrite <- counts_of_letters. generalize (∅ : gmap ascii nat).
  induction (map toLowerCase (chars w)) as [|x xs IH]; intros m; simpl; [reflexivity|].
  destruct (Relics.isAZ x) eqn:E.
  - rewrite filter_cons_True by exact E. simpl. apply IH.
  - rewrite filter_cons_False by (rewrite E; discriminate). apply IH.
Qed.

Lemma countsCovered_spec (small big : gmap ascii nat) :
  Dictionary.countsCovered small big = true
  ↔ ∀ l count, small !! l = Some count → count ≤ default 0 (big !! l).
Proof. apply entries_forall. Qed.

Lemma find_existsb {A} (p : A → bool) l :
  is_Some (find p l) ↔ existsb p l = true.
Proof.
  induction l as [|a l IH]; simpl.
  - split; [intros [? ?]; discriminate|discriminate].
  - destruct (p a); simpl; [split; eauto|exact IH].
Qed.

Lemma find_Some_elem {A} (p : A → bool) l x :
  find p l = Some x → x ∈ l ∧ p x = true.
Proof.
  intros H. apply find_some in H as [H1 H2]. split; [|exact H2].
  apply list_elem_of_In. exact H1.
Qed.

Lemma findValidWordsLoop_spec es available required minLength maxResults results :
  length results ≤ maxResults →
  Dictionary.findValidWordsLoop es available required minLength maxResults results
  = take maxResults
         (results ++ filter (λ e, validEntry available required minLength e = true) es).
Proof.
  revert results. induction es as [|e es IH]; intros results Hlen; simpl.
  - rewrite app_nil_r. rewrite take_ge by lia. reflexivity.
  - unfold validEntry at 1.
    destruct (String.length (word e) <? minLength) eqn:El; simpl.
    { rewrite filter_cons_False by (unfold validEntry; rewrite El; discriminate).
      apply IH. exact Hlen. }
    destruct (maxResults <=? length results) eqn:Em.
    { apply Nat.leb_le in Em. rewrite take_app_le by lia.
      rewrite take_ge by lia. reflexivity. }
    apply Nat.leb_gt in Em.
    destruct (Dictionary.countsCovered required (letters e)) eqn:Er; simpl.
    2:{ rewrite filter_cons_False
          by (unfold validEntry; rewrite El, Er; discriminate).
        apply IH. exact Hlen. }
    destruct (Dictionary.countsCovered (letters e) available) eqn:Ea.
    + rewrite filter_cons_True by (unfold validEntry; rewrite El, Er, Ea; reflexivity).
      rewrite IH by (rewrite length_app; simpl; lia).
      rewrite <- app_assoc. reflexivity.
    + rewrite filter_cons_False
        by (unfold validEntry; rewrite El, Er, Ea; discriminate).
      apply IH. exact Hlen.
Qed.
End DictionaryFacts.

Section DictionaryTheorems.
Variable d : DictionarySystem.

Lemma existsb_lower_app (x : string) (es es' : list Entry) :
  existsb (λ e, bool_decide (strToLowerCase (word e) = strToLowerCase x)) (es ++ es')
  = existsb (λ e, bool_decide (strToLowerCase (word e) = strToLowerCase x)) es
    || existsb (λ e, bool_decide (strToLowerCase (word e) = strToLowerCase x)) es'.
Proof. apply existsb_app. Qed.

Lemma existsb_makeEntry (x : string) (ws : list string) :
  existsb (λ e, bool_decide (strToLowerCase (word e) = strToLowerCase x))
          (map Dictionary.makeEntry ws) = true
  ↔ strToLowerCase x ∈ map strToLowerCase ws.
Proof.
  rewrite existsb_exists. split.
  - intros [e [Hin He]]. apply in_map_iff in Hin as [w [<- Hw]].
    apply bool_decide_eq_true in He. simpl in He.
    rewrite strToLowerCase_idemp in He. rewrite <- He.
    apply list_elem_of_In, in_map. exact Hw.
  - intros Hin. apply list_elem_of_In, in_map_iff in Hin as [w [Hw Hin]].
    exists (Dictionary.makeEntry w). split; [apply in_map; exact Hin|].
    apply bool_decide_eq_true. simpl. rewrite strToLowerCase_idemp. exact Hw.
Qed.

(** X6. Words added for a player are found for that player whatever the
    case of the query, and for nobody else: after [addPlayerWords(p, ws)],
    [wordExists(x, p)] holds exactly when it held before or [x] equals one
    of [ws] up to case; the answers for the other player and for a query
    without a player are unchanged; [clearPlayerWords(p)] leaves player [p]
    with the main dictionary only; the main dictionary keeps its size. *)
Theorem player_words_are_per_player (p : Player) (ws : list string) (x : string) :
  (Dictionary.wordExists (Dictionary.addPlayerWords p ws d) x (Some p) = true
   ↔ Dictionary.wordExists d x (Some p) = true
     ∨ strToLowerCase x ∈ map strToLowerCase ws)
  ∧ (∀ q, q ≠ p →
       Dictionary.wordExists (Dictionary.addPlayerWords p ws d) x (Some q)
       = Dictionary.wordExists d x (Some q))
  ∧ Dictionary.wordExists (Dictionary.addPlayerWords p ws d) x None
    = Dictionary.wordExists d x None
  ∧ Dictionary.wordExists
      (Dictionary.clearPlayerWords p (Dictionary.addPlayerWords p ws d)) x (Some p)
    = Dictionary.wordExists d x None
  ∧ Dictionary.getSize (Dictionary.addPlayerWords p ws d) = Dictionary.getSize d.
Proof.
  repeat split.
  - unfold Dictionary.wordExists. cbn [Dictionary.addPlayerWords playerWords mainDictionary].
    destruct (decide (p = p)) as [_|Hne]; [|congruence].
    rewrite existsb_lower_app. rewrite !orb_true_iff, existsb_makeEntry. tauto.
  - unfold Dictionary.wordExists. cbn [Dictionary.addPlayerWords playerWords mainDictionary].
    destruct (decide (p = p)) as [_|Hne]; [|congruence].
    rewrite existsb_lower_app. rewrite !orb_true_iff, existsb_makeEntry. tauto.
  - intros q Hq. unfold Dictionary.wordExists.
    cbn [Dictionary.addPlayerWords playerWords mainDictionary].
    destruct (decide (q = p)) as [Heq|_]; [congruence|reflexivity].
  - unfold Dictionary.wordExists.
    cbn [Dictionary.clearPlayerWords Dictionary.addPlayerWords playerWords mainDictionary].
    destruct (decide (p = p)) as [_|Hne]; [|congruence]. reflexivity.
Qed.

(** X7. [getWordEntry] and [wordExists] agree: an entry is returned exactly
    when the word exists for that player. With a player given, the entry is
    the first match in [getPlayerDictionary], so a player's own word wins
    over the main entry of the same spelling; the entry returned matches
    the query up to case. *)
Theorem getWordEntry_agrees_with_wordExists (w : string) (playerNumber : option Player) :
  (is_Some (Dictionary.getWordEntry d w playerNumber)
   ↔ Dictionary.wordExists d w playerNumber = true)
  ∧ (∀ p, playerNumber = Some p →
       Dictionary.getWordEntry d w playerNumber
       = find (λ e, bool_decide (strToLowerCase (word e) = strToLowerCase w))
              (Dictionary.getPlayerDictionary d p))
  ∧ (∀ e, Dictionary.getWordEntry d w playerNumber = Some e →
       strToLowerCase (word e) = strToLowerCase w
       ∧ (e ∈ mainDictionary d
          ∨ ∃ p, playerNumber = Some p ∧ e ∈ playerWords d p)).
Proof.
  assert (Hmain :
    bool_decide (strToLowerCase w
                 ∈ map (λ e, strToLowerCase (word e)) (mainDictionary d)) = true
    ↔ is_Some (find (λ e, bool_decide (strToLowerCase (word e) = strToLowerCase w))
                    (mainDictionary d))).
  { rewrite find_existsb, bool_decide_eq_true, existsb_exists. split.
    - intros Hin. apply list_elem_of_In, in_map_iff in Hin as [e [He Hin]].
      exists e. split; [exact Hin|]. apply bool_decide_eq_true. exact He.
    - intros [e [Hin He]]. apply bool_decide_eq_true in He. rewrite <- He.
      apply list_elem_of_In. apply (in_map (λ e, strToLowerCase (word e))). exact Hin. }
  split; [|split].
  - unfold Dictionary.getWordEntry, Dictionary.wordExists.
    destruct playerNumber as [p|].
    + destruct (find _ (playerWords d p)) as [e|] eqn:Ef.
      * assert (Hs : is_Some (find (λ e, bool_decide (strToLowerCase (word e)
                                                      = strToLowerCase w))
                                   (playerWords d p))) by (rewrite Ef; eauto).
        apply find_existsb in Hs. rewrite Hs. simpl. split; eauto.
      * assert (Hn : existsb (λ e, bool_decide (strToLowerCase (word e)
                                                = strToLowerCase w))
                             (playerWords d p) = false).
        { destruct (existsb _ (playerWords d p)) eqn:Ee; [|reflexivity].
          apply find_existsb in Ee. rewrite Ef in Ee. destruct Ee; discriminate. }
        rewrite Hn. simpl. symmetry. exact Hmain.
    + simpl. symmetry. exact Hmain.
  - intros p ->. unfold Dictionary.getWordEntry, Dictionary.getPlayerDictionary.
    induction (playerWords d p) as [|e es IH]; simpl.
    + reflexivity.
    + destruct (bool_decide (strToLowerCase (word e) = strToLowerCase w));
        [reflexivity|exact IH].
  - intros e He. unfold Dictionary.getWordEntry in He.
    destruct playerNumber as [p|].
    + destruct (find _ (playerWords d p)) as [e'|] eqn:Ef.
      * injection He as <-. apply find_Some_elem in Ef as [Hin Hm].
        apply bool_decide_eq_true in Hm. split; [exact Hm|]. right. eauto.
      * apply find_Some_elem in He as [Hin Hm].
        apply bool_decide_eq_true in Hm. split; [exact Hm|]. left. exact Hin.
    + apply find_Some_elem in He as [Hin Hm].
      apply bool_decide_eq_true in Hm. split; [exact Hm|]. left. exact Hin.
Qed.

(** X8. [canFormWord(word, availableLetters)] holds exactly when every
    letter a-z occurs in the word at most as often as among the available
    letters, both taken in lower case; characters outside a-z, on either
    side, are ignored. *)
Theorem canFormWord_iff_letters_available (w : string) (availableLetters : list ascii) :
  Dictionary.canFormWord w availableLetters = true
  ↔ ∀ c, occurrences c (lettersAZ (chars w))
         ≤ occurrences c (lettersAZ availableLetters).
Proof.
  unfold Dictionary.canFormWord. rewrite countsCovered_spec. split.
  - intros H c. destruct (occurrences c (lettersAZ (chars w))) as [|n] eqn:E; [lia|].
    specialize (H c (S n)).
    rewrite !Dictionary_getLetterCounts_lookup, chars_join, E, counts_default in H.
    apply H. reflexivity.
  - intros H l count Hl.
    rewrite !Dictionary_getLetterCounts_lookup, chars_join, counts_default in *.
    destruct (occurrences l (lettersAZ (chars w)) =? 0); [discriminate|].
    injection Hl as <-. apply H.
Qed.

(** X9. [findValidWords] returns the first [maxResults] entries of the main
    dictionary, in dictionary order, that are at least [minLength] long,
    contain the required letters and can be formed from the available
    ones. So it never returns more than [maxResults] entries, only entries
    of the main dictionary (never a player's words), and when fewer than
    [maxResults] come back no matching entry was left out. *)
Theorem findValidWords_first_matches
        (availableLetters requiredLetters : list ascii) (minLength maxResults : nat) :
  let valid := λ e, validEntry (Dictionary.getLetterCounts (join availableLetters))
                               (Dictionary.getLetterCounts (join requiredLetters))
                               minLength e = true in
  let results := Dictionary.findValidWords d availableLetters requiredLetters
                                           minLength maxResults in
  results = take maxResults (filter valid (mainDictionary d))
  ∧ length results ≤ maxResults
  ∧ results `sublist_of` mainDictionary d
  ∧ (∀ e, e ∈ results → minLength ≤ String.length (word e))
  ∧ (length results < maxResults →
     ∀ e, e ∈ mainDictionary d → valid e → e ∈ results).
Proof.
  intros valid results.
  assert (Heq : results = take maxResults (filter valid (mainDictionary d))).
  { unfold results, Dictionary.findValidWords.
    rewrite findValidWordsLoop_spec by (simpl; lia). reflexivity. }
  split; [exact Heq|]. rewrite Heq. repeat split.
  - rewrite length_take. lia.
  - etrans; [apply sublist_take|]. apply sublist_filter.
  - intros e He. apply elem_of_take in He as [i [Hi _]].
    apply list_elem_of_lookup_2, list_elem_of_filter in Hi as [Hv _].
    unfold valid, validEntry in Hv.
    apply andb_true_iff in Hv as [Hv _]. apply andb_true_iff in Hv as [Hv _].
    apply negb_true_iff, Nat.ltb_ge in Hv. exact Hv.
  - intros Hlt e He Hv. rewrite length_take in Hlt.
    rewrite take_ge by lia. apply list_elem_of_filter. split; assumption.
Qed.
End DictionaryTheorems.

(** ** The relic manager *)

Section RelicFacts.

Lemma alphabetLoop_ge prev rest maxSeq currentSeq :
  maxSeq ≤ Relics.alphabetLoop prev rest maxSeq currentSeq.
Proof.
  revert prev maxSeq currentSeq.
  induction rest as [|c rest IH]; intros prev maxSeq currentSeq; simpl; [lia|].
  destruct (_ =? _).
  - etrans; [|apply IH]. lia.
  - apply IH.
Qed.

Lemma foldr_max_ge (n : nat) (l : list nat) : n ≤ foldr Nat.max n l.
Proof. induction l as [|x l IH]; simpl; lia. Qed.

Lemma inject_nat_ge_1 (n : nat) : 1 ≤ n → (1 <= inject_Z (Z.of_nat n))%Q.
Proof.
  intros H. change 1%Q with (inject_Z 1). rewrite <- Zle_Qle. lia.
Qed.

Lemma base_neverWeakens n wl : neverWeakens (Relics.base n wl).
Proof. intros w. simpl. repeat split; discriminate. Qed.

Lemma weakness_neverWeakens n wl : neverWeakens (Relics.weakness n wl).
Proof.
  intros w. simpl. repeat split; try discriminate.
  destruct (Relics.isWordInList _ _); discriminate.
Qed.

Lemma withScoreMult_neverWeakens f r :
  (∀ w, (1 <= f w)%Q) → neverWeakens r → neverWeakens (Relics.withScoreMult f r).
Proof.
  intros Hf Hr w. destruct (Hr w) as (_ & Ha & Hv). simpl. repeat split; auto.
Qed.

Lemma registered_neverWeaken : Forall neverWeakens Relics.registered.
Proof.
  unfold Relics.registered. repeat apply Forall_cons_2; try apply Forall_nil_2;
    try apply base_neverWeakens; try apply weakness_neverWeakens;
    try (apply withScoreMult_neverWeakens; [|apply base_neverWeakens]; intros w).
  - destruct (Relics.startsWith _ _); discriminate.
  - destruct (Relics.startsWith _ _); discriminate.
  - intros w. simpl. repeat split; discriminate.
  - destruct (existsb _ _); discriminate.
  - destruct (chars (strToLowerCase w)) as [|c rest]; [discriminate|].
    apply inject_nat_ge_1. apply alphabetLoop_ge.
  - destruct (chars (strToLowerCase w)) as [|c rest]; [discriminate|].
    destruct (Relics.abcLoop _ _); discriminate.
  - cbv zeta. case_bool_decide; discriminate.
  - intros w. simpl. repeat split; try discriminate.
    destruct (Relics.isWordInList _ _); discriminate.
  - cbv zeta. apply inject_nat_ge_1. apply foldr_max_ge.
Qed.

Lemma registerRelic_fold_lookup (l : list Relic) (rm : RelicManager) n r :
  relics (fold_left (λ rm r, RelicManager.registerRelic r rm) l rm) !! n = Some r →
  r ∈ l ∨ relics rm !! n = Some r.
Proof.
  revert rm. induction l as [|x l IH]; intros rm H; simpl in H; [right; exact H|].
  apply IH in H as [H|H].
  - left. apply list_elem_of_further. exact H.
  - simpl in H. destruct (decide (name x = n)) as [<-|Hne].
    + rewrite lookup_insert_eq in H. injection H as <-. left. apply list_elem_of_here.
    + rewrite lookup_insert_ne in H by exact Hne. right. exact H.
Qed.

Lemma registry_lookup n r :
  relics RelicManager.relicManager !! n = Some r → r ∈ Relics.registered.
Proof.
  intros H. apply registerRelic_fold_lookup in H as [H|H]; [exact H|].
  simpl in H. rewrite lookup_empty in H. discriminate.
Qed.

Lemma getActiveRelics_neverWeaken rm p :
  relics rm = relics RelicManager.relicManager →
  Forall neverWeakens (RelicManager.getActiveRelics rm p).
Proof.
  intros Hreg. apply Forall_forall. intros r Hr.
  unfold RelicManager.getActiveRelics in Hr.
  apply list_elem_of_omap in Hr as [n [_ Hn]]. rewrite Hreg in Hn.
  apply registry_lookup in Hn.
  exact (proj1 (Forall_forall _ _) registered_neverWeaken r Hn).
Qed.

Lemma mult_fold_ge_1 (m : Relic → string → Q) w (l : list Relic) (acc : Q) :
  Forall (λ r, (1 <= m r w)%Q) l → (1 <= acc)%Q →
  (1 <= fold_left (λ result r, result * m r w) l acc)%Q.
Proof.
  intros H. revert acc. induction H as [|r l Hr Hl IH]; intros acc Hacc; simpl.
  - exact Hacc.
  - apply IH. nra.
Qed.

Lemma add_fold_ge_0 (m : Relic → string → Q) w (l : list Relic) (acc : Q) :
  Forall (λ r, (0 <= m r w)%Q) l → (0 <= acc)%Q →
  (0 <= fold_left (λ result r, result + m r w) l acc)%Q.
Proof.
  intros H. revert acc. induction H as [|r l Hr Hl IH]; intros acc Hacc; simpl.
  - exact Hacc.
  - apply IH. lra.
Qed.

Lemma scored_at_least (x m a v : Q) :
  (0 <= x)%Q → (1 <= m)%Q → (0 <= a)%Q → (1 <= v)%Q →
  (x <= (x * m + a) * v)%Q.
Proof.
  intros Hx Hm Ha Hv.
  assert (H1 : (x <= x * m + a)%Q) by nra.
  assert (H2 : (x * m + a <= (x * m + a) * v)%Q) by nra.
  lra.
Qed.

Lemma floor_ge (z : Z) (q : Q) : (inject_Z z <= q)%Q → (z <= Qfloor q)%Z.
Proof.
  intros H. rewrite <- (Qfloor_Z z). apply Qfloor_resp_le. exact H.
Qed.
End RelicFacts.

Section RelicTheorems.






(** X11. With the relics registered at load, whichever of them are active
    on either side, a lane never scores less than its tile count in
    [processCombat]: a lane owned by the player adds at least its number of
    tiles to the player's damage and nothing to the enemy's, a lane owned
    by the enemy the other way round, and a lane without owner adds
    nothing. No registered relic can lower a word's damage. *)
Theorem registered_relics_never_reduce_damage
        (rm : RelicManager) (lane : Lane) (playerDamage enemyDamage : Z) :
  relics rm = relics RelicManager.relicManager →
  let tileCount := Z.of_nat (length (Lane.laneTiles lane)) in
  let totals := Board.combatLane rm (playerDamage, enemyDamage) lane in
  match owner lane with
  | Some P1 => (playerDamage + tileCount <= totals.1)%Z ∧ totals.2 = enemyDamage
  | Some P2 => totals.1 = playerDamage ∧ (enemyDamage + tileCount <= totals.2)%Z
  | None => totals = (playerDamage, enemyDamage)
  end.
Proof.
  intros Hreg tileCount totals. subst totals tileCount.
  rewrite combatLane_spec. cbn [fst snd]. unfold scoringLane.
  assert (Hbounds : ∀ p w,
    (1 <= RelicManager.getMultResult getWordScoreMult rm p w)%Q
    ∧ (0 <= RelicManager.getAdditiveResult getWordScoreAdditive rm p w)%Q
    ∧ (1 <= RelicManager.getMultResult getWordVulnerabilityMult rm p w)%Q).
  { intros p w. pose proof (getActiveRelics_neverWeaken rm p Hreg) as Hall.
    unfold RelicManager.getMultResult, RelicManager.getAdditiveResult.
    repeat split.
    - apply mult_fold_ge_1; [|discriminate].
      eapply Forall_impl; [exact Hall|]. intros r Hr. apply (Hr w).
    - apply add_fold_ge_0; [|discriminate].
      eapply Forall_impl; [exact Hall|]. intros r Hr. apply (Hr w).
    - apply mult_fold_ge_1; [|discriminate].
      eapply Forall_impl; [exact Hall|]. intros r Hr. apply (Hr w). }
  assert (Hn : (0 <= inject_Z (Z.of_nat (length (Lane.laneTiles lane))))%Q).
  { change 0%Q with (inject_Z 0). rewrite <- Zle_Qle. lia. }
  destruct (owner lane) as [[|]|] eqn:Ho.
  - rewrite bool_decide_eq_true_2 by reflexivity.
    rewrite bool_decide_eq_false_2 by discriminate. cbn [andb].
    split; [|lia].
    destruct (length (Lane.laneTiles lane) =? 0) eqn:E; cbn [negb].
    + apply Nat.eqb_eq in E. rewrite E. simpl. lia.
    + unfold specLaneDamage. cbn [opponent].
      destruct (Hbounds P1 (Lane.getWord lane)) as (Hm & Ha & _).
      destruct (Hbounds P2 (Lane.getWord lane)) as (_ & _ & Hv).
      apply Z.add_le_mono_l. apply floor_ge.
      apply (scored_at_least _ _ _ _ Hn Hm Ha Hv).
  - rewrite bool_decide_eq_false_2 by discriminate.
    rewrite bool_decide_eq_true_2 by reflexivity. cbn [andb].
    split; [lia|].
    destruct (length (Lane.laneTiles lane) =? 0) eqn:E; cbn [negb].
    + apply Nat.eqb_eq in E. rewrite E. simpl. lia.
    + unfold unscaledLaneDamage.
      destruct (Hbounds P2 (Lane.getWord lane)) as (Hm & Ha & _).
      apply Z.add_le_mono_l. apply floor_ge.
      pose proof (scored_at_least _ _ _ 1 Hn Hm Ha ltac:(discriminate)) as H.
      rewrite Qmult_1_r in H. exact H.
  - rewrite !bool_decide_eq_false_2 by discriminate. cbn [andb].
    f_equal; lia.
Qed.

(** The bound at work: the Alpha relic doubles ANT, above the three tiles
    of the lane. *)
Lemma registered_relics_never_reduce_damage_witness :
  relics alphaManager = relics RelicManager.relicManager
  ∧ (0 + 3 <= (Board.combatLane alphaManager (0, 0) (laneWith 0 P1 tilesANT)).1)%Z.
Proof.
  split; [reflexivity|].
  exact (proj1 (registered_relics_never_reduce_damage
                  alphaManager (laneWith 0 P1 tilesANT) 0 0 eq_refl)).
Defined.
End RelicTheorems.

(** ** Combat with the relics of the game *)

Section CombatWithLoadedRelics.






End CombatWithLoadedRelics.

Section RelicOffers.

Lemma registerRelic_keyedByName r rm :
  keyedByName rm → keyedByName (RelicManager.registerRelic r rm).
Proof.
  intros H n r' Hl. simpl in Hl.
  destruct (decide (name r = n)) as [<-|Hne].
  - rewrite lookup_insert_eq in Hl. injection Hl as <-. reflexivity.
  - rewrite lookup_insert_ne in Hl by exact Hne. apply (H n r' Hl).
Qed.

Lemma registerRelic_fold_keyedByName (l : list Relic) rm :
  keyedByName rm →
  keyedByName (fold_left (λ rm r, RelicManager.registerRelic r rm) l rm).
Proof.
  revert rm. induction l as [|r l IH]; intros rm H; simpl; [exact H|].
  apply IH. apply registerRelic_keyedByName. exact H.
Qed.

Lemma relicManager_keyedByName : keyedByName RelicManager.relicManager.
Proof.
  apply registerRelic_fold_keyedByName. intros n r H. simpl in H.
  rewrite lookup_empty in H. discriminate.
Qed.

Lemma elem_of_values rm r :
  r ∈ RelicManager.values rm ↔ ∃ n, relics rm !! n = Some r.
Proof.
  unfold RelicManager.values. split.
  - intros H. apply list_elem_of_fmap in H as ([n r'] & -> & H).
    apply elem_of_map_to_list in H. exists n. exact H.
  - intros [n H]. apply list_elem_of_fmap. exists (n, r). split; [reflexivity|].
    apply elem_of_map_to_list. exact H.
Qed.

Lemma offered_inactive count p rng rm r :
  r ∈ RelicManager.getRandomInactiveRelics count p rng rm →
  r ∈ RelicManager.values rm ∧ assignedOnly r = false ∧ name r ∉ activeRelics rm p.
Proof.
  unfold RelicManager.getRandomInactiveRelics. intros H.
  apply elem_of_take in H as [i [H _]]. apply list_elem_of_lookup_2 in H.
  rewrite shuffleArray_Permutation in H.
  apply list_elem_of_filter in H as [[Ha Hn] Hv]. auto.
Qed.


(** X13. An offer can always be taken: when the registry stores each relic
    under its own name (as [registerRelic] does), [activateRelic] of the
    name of an offered relic succeeds, the relic is then among the
    player's active relics, and it is never offered to that player
    again. *)
Theorem offered_relic_can_be_activated
        (count : nat) (p : Player) (rng : nat → nat) (rm : RelicManager)
        (i : nat) (r : Relic) :
  keyedByName rm →
  RelicManager.getRandomInactiveRelics count p rng rm !! i = Some r →
  let result := RelicManager.activateRelic (name r) p rm in
  result.1 = true
  ∧ r ∈ RelicManager.getActiveRelics result.2 p
  ∧ ∀ count' rng', r ∉ RelicManager.getRandomInactiveRelics count' p rng' result.2.
Proof.
  intros Hkey Hoff result. apply list_elem_of_lookup_2 in Hoff.
  apply offered_inactive in Hoff as (Hv & Ha & Hn).
  apply elem_of_values in Hv as [n Hl].
  pose proof (Hkey n r Hl) as Hname. subst n.
  assert (Hres : result = (true, RelicManager.setActive p (activeRelics rm p ++ [name r]) rm)).
  { unfold result, RelicManager.activateRelic, RelicManager.getRelic,
      RelicManager.markActive. rewrite Hl.
    rewrite bool_decide_eq_false_2 by exact Hn. reflexivity. }
  rewrite Hres. cbn [fst snd].
  assert (Hact : name r ∈ activeRelics
                   (RelicManager.setActive p (activeRelics rm p ++ [name r]) rm) p).
  { cbn [RelicManager.setActive activeRelics].
    destruct (decide (p = p)) as [_|Hne]; [|congruence].
    apply elem_of_app. right. apply list_elem_of_here. }
  split; [reflexivity|]. split.
  - unfold RelicManager.getActiveRelics. apply list_elem_of_omap.
    exists (name r). split; [exact Hact|]. exact Hl.
  - intros count' rng' H. apply offered_inactive in H as (_ & _ & H).
    apply H. exact Hact.
Qed.

(** Taking the first of three offers from the registry as loaded. *)
Lemma offered_relic_can_be_activated_witness :
  ∃ r, RelicManager.getRandomInactiveRelics 3 P1 (λ _, 0) RelicManager.relicManager !! 0
       = Some r
       ∧ (RelicManager.activateRelic (name r) P1 RelicManager.relicManager).1 = true.
Proof.
  eexists. split.
  - vm_compute. reflexivity.
  - refine (proj1 (offered_relic_can_be_activated
                     3 P1 (λ _, 0) RelicManager.relicManager 0 _
                     relicManager_keyedByName _)).
    vm_compute. reflexivity.
Defined.
End RelicOffers.

(** ** The end of a turn *)

Section EndTurnSuccess.

Lemma alter_lookup {A} (f : A → A) (l : list A) i x :
  l !! i = Some x → alter f i l = <[i := f x]> l.
Proof.
  revert i. induction l as [|y l IH]; intros [|i] H; simpl in *; try discriminate.
  - injection H as ->. reflexivity.
  - f_equal. apply IH. exact H.
Qed.

Lemma setContainer_same lane :
  Lane.setContainer
    (TileContainer.setTiles (Lane.laneTiles lane) (container lane)) lane = lane.
Proof. destruct lane as [[ts m g] i o t v lk s]. reflexivity. Qed.

Lemma setLanes_same b : Board.setLanes (lanes b) b = b.
Proof. destruct b. reflexivity. Qed.

Lemma steel_has_no_power (ts : list Tile) p :
  Forall (λ t, type t = STEEL) ts →
  filter (λ t, getPower t = Some p) ts = [].
Proof.
  induction 1 as [|t ts Ht Hts IH]; [reflexivity|].
  rewrite filter_cons_False; [exact IH|].
  unfold getPower. rewrite Ht. discriminate.
Qed.

Lemma steel_stays (ts : list Tile) :
  Forall (λ t, type t = STEEL) ts →
  map (λ t, if bool_decide (type t ≠ STEEL) then setType MAIN t else t) ts = ts.
Proof.
  induction 1 as [|t ts Ht Hts IH]; [reflexivity|]. simpl.
  rewrite IH. rewrite bool_decide_eq_false_2 by (intros H; apply H; exact Ht).
  reflexivity.
Qed.

(** A lane made of steel tiles triggers nothing. *)
Lemma processSpecialEffects_steel i b lane :
  lanes b !! i = Some lane →
  Forall (λ t, type t = STEEL) (Lane.laneTiles lane) →
  Board.processSpecialEffects i b = b.
Proof.
  intros Hl Hs. unfold Board.processSpecialEffects. rewrite Hl.
  unfold Lane.getSpecialEffects, Lane.countPower. cbn [eff_shield eff_heal eff_meteor].
  rewrite !(steel_has_no_power _ _ Hs).
  change (0 <? Z.of_nat (length (@nil Tile)))%Z with false. cbn [andb].
  rewrite (steel_stays _ Hs), setContainer_same.
  rewrite (list_insert_id _ _ _ Hl). apply setLanes_same.
Qed.

Lemma setOwner_steel p lane :
  Forall (λ t, type t = STEEL) (Lane.laneTiles (Lane.setOwner p lane)).
Proof.
  unfold Lane.setOwner, Lane.laneTiles. simpl.
  apply Forall_forall. intros t Ht. apply list_elem_of_fmap in Ht as (t' & -> & _).
  reflexivity.
Qed.

Lemma acceptLane_spec b i lane :
  lanes b !! i = Some lane →
  Board.acceptLane b i
  = Board.setLanes (<[i := accepted (currentPlayer b) lane]> (lanes b)) b.
Proof.
  intros Hl. unfold Board.acceptLane, accepted. rewrite Hl.
  assert (Hi : i < length (lanes b)) by (apply lookup_lt_Some in Hl; exact Hl).
  destruct (Lane.hasNewTiles lane).
  - set (lane1 := Lane.setOwner (Some (currentPlayer b)) lane).
    set (b1 := Board.setLanes (<[i := lane1]> (lanes b)) b).
    assert (Hl1 : lanes b1 !! i = Some lane1).
    { unfold b1. simpl. apply list_lookup_insert_eq. exact Hi. }
    rewrite (processSpecialEffects_steel i b1 lane1 Hl1 (setOwner_steel _ _)).
    rewrite (alter_lookup _ _ _ _ Hl1). unfold b1. simpl.
    rewrite list_insert_insert_eq. reflexivity.
  - rewrite (alter_lookup _ _ _ _ Hl). reflexivity.
Qed.

Lemma acceptLanes_spec (todo done : list Lane) b :
  lanes b = done ++ todo →
  fold_left Board.acceptLane (seq (length done) (length todo)) b
  = Board.setLanes (done ++ map (accepted (currentPlayer b)) todo) b.
Proof.
  revert done b. induction todo as [|x todo IH]; intros done b Hb.
  - simpl. rewrite <- Hb. symmetry. apply setLanes_same.
  - cbn [length seq fold_left].
    assert (Hx : lanes b !! length done = Some x).
    { rewrite Hb. rewrite lookup_app_r by lia. rewrite Nat.sub_diag. reflexivity. }
    rewrite (acceptLane_spec b _ x Hx).
    set (b1 := Board.setLanes _ b).
    assert (Hb1 : lanes b1 = (done ++ [accepted (currentPlayer b) x]) ++ todo).
    { unfold b1. simpl. rewrite Hb.
      rewrite insert_app_r_alt by lia. rewrite Nat.sub_diag. simpl.
      rewrite <- app_assoc. reflexivity. }
    specialize (IH (done ++ [accepted (currentPlayer b) x]) b1 Hb1).
    rewrite length_app in IH. simpl in IH. rewrite Nat.add_1_r in IH.
    rewrite IH. unfold b1. simpl. rewrite <- app_assoc. reflexivity.
Qed.

Lemma letters_setType ty (ts : list Tile) :
  map letter (map (setType ty) ts) = map letter ts.
Proof. rewrite map_map. apply map_ext. intros t. reflexivity. Qed.

Lemma accepted_spec p lane :
  temporaryOwner (accepted p lane) = None
  ∧ Lane.getWord (accepted p lane) = Lane.getWord lane
  ∧ (Lane.hasNewTiles lane = true →
       owner (accepted p lane) = Some p
       ∧ Forall (λ t, type t = STEEL) (Lane.laneTiles (accepted p lane)))
  ∧ (Lane.hasNewTiles lane = false →
       owner (accepted p lane) = owner lane
       ∧ Lane.laneTiles (accepted p lane) = Lane.laneTiles lane).
Proof.
  unfold accepted. destruct (Lane.hasNewTiles lane).
  - repeat split; try discriminate.
    + unfold Lane.getWord, Lane.laneTiles. simpl. rewrite letters_setType. reflexivity.
    + apply (setOwner_steel (Some p) lane).
  - repeat split; discriminate.
Qed.
End EndTurnSuccess.

(** X14. A successful [endTurn]: in state 'playing' with no invalid lane
    it returns [true], shakes nothing and moves to 'end_turn'. Every lane
    that gained tiles becomes the acting side's, all its tiles steel; the
    other lanes keep owner and tiles; no lane keeps a provisional owner and
    no word changes. Because [setOwner] turns the tiles to steel before
    [processSpecialEffects] looks at them, no shield, heal or meteor fires
    here: all four health values are as before. The player's rack is
    refilled to [min(capacity, rack + pool)]; mulligan allowance, acting
    side and the enemy's rack and pool are untouched. *)
Theorem endTurn_accepts_valid_lanes
        (rm : RelicManager) (dict : DictionarySystem) (rng : nat → nat) (b : Board) :
  state b = playing →
  Board.validateAllWords dict b = [] →
  let b' := (Board.endTurn rm dict rng b).2 in
  (Board.endTurn rm dict rng b).1 = (true, [])
  ∧ state b' = end_turn
  ∧ lanes b' = map (accepted (currentPlayer b)) (lanes b)
  ∧ (∀ i lane, lanes b !! i = Some lane →
       ∃ lane', lanes b' !! i = Some lane'
         ∧ temporaryOwner lane' = None
         ∧ Lane.getWord lane' = Lane.getWord lane
         ∧ (Lane.hasNewTiles lane = true →
              owner lane' = Some (currentPlayer b)
              ∧ Forall (λ t, type t = STEEL) (Lane.laneTiles lane'))
         ∧ (Lane.hasNewTiles lane = false →
              owner lane' = owner lane
              ∧ Lane.laneTiles lane' = Lane.laneTiles lane))
  ∧ (playerHealth b', playerMaxHealth b', enemyHealth b', enemyMaxHealth b')
    = (playerHealth b, playerMaxHealth b, enemyHealth b, enemyMaxHealth b)
  ∧ (currentPlayer b', mulliganCount b', hasUsedMulligan b', enemyRack b', enemyTileSet b')
    = (currentPlayer b, mulliganCount b, hasUsedMulligan b, enemyRack b, enemyTileSet b)
  ∧ (withinCapacity (playerRack b) →
       length (tiles (playerRack b'))
       = Nat.min (maxTiles (playerRack b))
                 (length (tiles (playerRack b))
                  + length (remainingTiles (playerTileSet b)))).
Proof.
  intros Hs Hv b'. subst b'. unfold Board.endTurn.
  rewrite bool_decide_eq_false_2 by (rewrite Hs; intros H; apply H; reflexivity).
  rewrite Hv. cbn [length Nat.ltb Nat.leb].
  pose proof (acceptLanes_spec (lanes b) [] b eq_refl) as Hacc.
  cbn [length app] in Hacc. rewrite Hacc. clear Hacc.
  set (b1 := Board.setLanes (map (accepted (currentPlayer b)) (lanes b)) b).
  set (b2 := if TileContainer.isFull (playerRack b1)
                && bool_decide (currentPlayer b1 = P1)
             then _ else _).
  cbn [fst snd].
  assert (H2 : lanes b2 = lanes b1
               ∧ (playerHealth b2, playerMaxHealth b2, enemyHealth b2, enemyMaxHealth b2)
                 = (playerHealth b, playerMaxHealth b, enemyHealth b, enemyMaxHealth b)
               ∧ (currentPlayer b2, mulliganCount b2, hasUsedMulligan b2,
                  enemyRack b2, enemyTileSet b2)
                 = (currentPlayer b, mulliganCount b, hasUsedMulligan b,
                    enemyRack b, enemyTileSet b)
               ∧ (withinCapacity (playerRack b) →
                    length (tiles (playerRack b2))
                    = Nat.min (maxTiles (playerRack b))
                              (length (tiles (playerRack b))
                               + length (remainingTiles (playerTileSet b))))).
  { subst b2.
    destruct (TileContainer.isFull (playerRack b1)
              && bool_decide (currentPlayer b1 = P1)) eqn:E.
    - apply andb_true_iff in E as [_ E]. apply bool_decide_eq_true in E.
      rewrite (mulligan_player_1 rm true rng b1 E). cbn zeta.
      pose proof (mulligan_hand rm rng b1) as (Hlen & _). cbn zeta in Hlen.
      destruct (Board.fillRack rm rng _ _ P1) as [rack ts].
      cbn [fst snd] in *. unfold b1 in *. simpl in *. auto.
    - pose proof (fillRack_length rm rng (playerRack b1) (playerTileSet b1) P1) as Hlen.
      destruct (Board.fillRack rm rng (playerRack b1) (playerTileSet b1) P1)
        as [rack ts].
      cbn [fst snd] in *. unfold b1 in *. simpl in *. auto. }
  destruct H2 as (Hl2 & Hh2 & Hf2 & Hr2).
  split; [reflexivity|]. split; [reflexivity|].
  assert (Hlanes : lanes (Board.setState end_turn b2)
                   = map (accepted (currentPlayer b)) (lanes b)).
  { simpl. rewrite Hl2. reflexivity. }
  split; [exact Hlanes|]. split.
  - intros i lane Hi. exists (accepted (currentPlayer b) lane). split.
    + rewrite Hlanes. rewrite list_lookup_fmap, Hi. reflexivity.
    + apply accepted_spec.
  - simpl. auto.
Qed.

(** The flower and the gold tile of CAT are accepted without healing or
    damage. *)
Lemma endTurn_accepts_valid_lanes_witness :
  state goodSubmit = playing
  ∧ Board.validateAllWords dictCat goodSubmit = []
  ∧ (playerHealth (Board.endTurn RelicManager.relicManager dictCat (λ _, 0) goodSubmit).2,
     enemyHealth (Board.endTurn RelicManager.relicManager dictCat (λ _, 0) goodSubmit).2)
    = (20%Z, 15%Z).
Proof.
  split; [reflexivity|]. split; [vm_compute; reflexivity|].
  pose proof (endTurn_accepts_valid_lanes
                RelicManager.relicManager dictCat (λ _, 0) goodSubmit
                eq_refl eq_refl) as H.
  cbv zeta in H. destruct H as (_ & _ & _ & _ & Hh & _).
  apply (f_equal (λ q : Z * Z * Z * Z, (q.1.1.1, q.1.2))) in Hh. exact Hh.
Defined.

(** ** Tile powers *)

Section SpecialEffects.

Lemma plain_has_no_power (ts : list Tile) p :
  Forall (λ t, type t = STEEL ∨ type t = MAIN) ts →
  filter (λ t, getPower t = Some p) ts = [].
Proof.
  induction 1 as [|t ts Ht Hts IH]; [reflexivity|].
  rewrite filter_cons_False; [exact IH|].
  unfold getPower. destruct Ht as [-> | ->]; discriminate.
Qed.

Lemma plain_stays (ts : list Tile) :
  Forall (λ t, type t = STEEL ∨ type t = MAIN) ts →
  map (λ t, if bool_decide (type t ≠ STEEL) then setType MAIN t else t) ts = ts.
Proof.
  induction 1 as [|t ts Ht Hts IH]; [reflexivity|]. simpl. rewrite IH. f_equal.
  destruct t as [l ty]. simpl in Ht. destruct Ht as [-> | ->].
  - rewrite bool_decide_eq_false_2 by (intros H; apply H; reflexivity). reflexivity.
  - rewrite bool_decide_eq_true_2 by discriminate. reflexivity.
Qed.

Lemma spent_plain (ts : list Tile) :
  Forall (λ t, type t = STEEL ∨ type t = MAIN)
         (map (λ t, if bool_decide (type t ≠ STEEL) then setType MAIN t else t) ts).
Proof.
  apply Forall_forall. intros t Ht. apply list_elem_of_fmap in Ht as (t' & -> & _).
  case_bool_decide as H; [right; reflexivity|].
  left. destruct (decide (type t' = STEEL)); [assumption|contradiction].
Qed.

Lemma spent_letters (ts : list Tile) :
  map letter (map (λ t, if bool_decide (type t ≠ STEEL) then setType MAIN t else t) ts)
  = map letter ts.
Proof.
  rewrite map_map. apply map_ext. intros t. case_bool_decide; reflexivity.
Qed.

(** A lane without powered tiles triggers nothing. *)
Lemma processSpecialEffects_plain i b lane :
  lanes b !! i = Some lane →
  Forall (λ t, type t = STEEL ∨ type t = MAIN) (Lane.laneTiles lane) →
  Board.processSpecialEffects i b = b.
Proof.
  intros Hl Hs. unfold Board.processSpecialEffects. rewrite Hl.
  unfold Lane.getSpecialEffects, Lane.countPower. cbn [eff_shield eff_heal eff_meteor].
  rewrite !(plain_has_no_power _ _ Hs).
  change (0 <? Z.of_nat (length (@nil Tile)))%Z with false. cbn [andb].
  rewrite (plain_stays _ Hs), setContainer_same.
  rewrite (list_insert_id _ _ _ Hl). apply setLanes_same.
Qed.

Lemma processSpecialEffects_lanes i b lane :
  lanes b !! i = Some lane →
  lanes (Board.processSpecialEffects i b)
  = <[i := Lane.setContainer
             (TileContainer.setTiles
                (map (λ t, if bool_decide (type t ≠ STEEL) then setType MAIN t else t)
                     (Lane.laneTiles lane))
                (container lane)) lane]> (lanes b).
Proof.
  intros Hl. unfold Board.processSpecialEffects. rewrite Hl. cbn [lanes Board.setLanes].
  f_equal.
  destruct ((0 <? eff_shield (Lane.getSpecialEffects lane))%Z
            && bool_decide (currentPlayer b = P1));
    cbn [currentPlayer Board.setPlayerHealth playerHealth playerMaxHealth];
    destruct ((0 <? eff_heal (Lane.getSpecialEffects lane))%Z
              && bool_decide (currentPlayer b = P1));
    cbn [currentPlayer Board.setPlayerHealth playerHealth playerMaxHealth];
    destruct (0 <? eff_meteor (Lane.getSpecialEffects lane))%Z;
    destruct (currentPlayer b); reflexivity.
Qed.

(** X15. [processSpecialEffects] spends the powers of a lane. Afterwards
    the lane has the same letters and owner but no powered tile (every tile
    that was not steel is a plain one), so running it again changes
    nothing. On the enemy's turn shields and heals are ignored: only a
    meteor acts, on the player's health, which stops at 0. On the player's
    turn a shield raises health and maximum together, a heal stops at the
    maximum, a meteor hits the enemy: a health within the maximum never
    drops and stays within the maximum. *)
Theorem processSpecialEffects_spends_powers (i : nat) (b : Board) (lane : Lane) :
  lanes b !! i = Some lane →
  let effects := Lane.getSpecialEffects lane in
  let b' := Board.processSpecialEffects i b in
  (∃ lane', lanes b' !! i = Some lane'
     ∧ Lane.getWord lane' = Lane.getWord lane
     ∧ owner lane' = owner lane
     ∧ Forall (λ t, type t = STEEL ∨ type t = MAIN) (Lane.laneTiles lane')
     ∧ Lane.getSpecialEffects lane' = {| eff_shield := 0; eff_heal := 0; eff_meteor := 0 |})
  ∧ Board.processSpecialEffects i b' = b'
  ∧ (currentPlayer b = P2 →
       playerMaxHealth b' = playerMaxHealth b
       ∧ enemyHealth b' = enemyHealth b
       ∧ playerHealth b'
         = if (0 <? eff_meteor effects)%Z
           then Z.max 0 (playerHealth b - eff_meteor effects)
           else playerHealth b)
  ∧ (currentPlayer b = P1 →
       playerMaxHealth b' = (playerMaxHealth b + eff_shield effects)%Z
       ∧ ((playerHealth b <= playerMaxHealth b)%Z →
          (playerHealth b <= playerHealth b' <= playerMaxHealth b')%Z)
       ∧ enemyHealth b'
         = if (0 <? eff_meteor effects)%Z
           then Z.max 0 (enemyHealth b - eff_meteor effects)
           else enemyHealth b).
Proof.
  intros Hl effects b'.
  assert (Hi : i < length (lanes b)) by (apply lookup_lt_Some in Hl; exact Hl).
  pose proof (processSpecialEffects_lanes i b lane Hl) as Hlanes. fold b' in Hlanes.
  set (lane' := Lane.setContainer _ lane) in Hlanes.
  assert (Hl' : lanes b' !! i = Some lane').
  { rewrite Hlanes. apply list_lookup_insert_eq. exact Hi. }
  assert (Hplain : Forall (λ t, type t = STEEL ∨ type t = MAIN) (Lane.laneTiles lane')).
  { unfold lane', Lane.laneTiles. simpl. apply spent_plain. }
  split; [|split; [|split]].
  - exists lane'. split; [exact Hl'|]. split; [|split; [|split]].
    + unfold lane', Lane.getWord, Lane.laneTiles. simpl. rewrite spent_letters. reflexivity.
    + reflexivity.
    + exact Hplain.
    + unfold Lane.getSpecialEffects, Lane.countPower.
      rewrite !(plain_has_no_power _ _ Hplain). reflexivity.
  - apply (processSpecialEffects_plain i b' lane' Hl' Hplain).
  - intros Hp. subst b'. unfold Board.processSpecialEffects. rewrite Hl. fold effects.
    destruct b as [cp st ph pm eh em mc hm pt et ls pr er]. simpl in Hp. subst cp.
    destruct (0 <? eff_shield effects)%Z, (0 <? eff_heal effects)%Z,
      (0 <? eff_meteor effects)%Z; simpl; auto.
  - intros Hp. subst b'. unfold Board.processSpecialEffects. rewrite Hl. fold effects.
    pose proof (countPower_nonneg shield lane) as Hs.
    pose proof (countPower_nonneg heal lane) as Hh.
    change (Lane.countPower shield lane) with (eff_shield effects) in Hs.
    change (Lane.countPower heal lane) with (eff_heal effects) in Hh.
    destruct b as [cp st ph pm eh em mc hm pt et ls pr er]. simpl in Hp. subst cp.
    destruct (0 <? eff_shield effects)%Z eqn:Es, (0 <? eff_heal effects)%Z eqn:Eh,
      (0 <? eff_meteor effects)%Z eqn:Em;
      try apply Z.ltb_lt in Es; try apply Z.ltb_ge in Es;
      try apply Z.ltb_lt in Eh; try apply Z.ltb_ge in Eh;
      subst effects; simpl in *;
      (split; [lia|]; split; [intros Hle; lia|]; first [reflexivity|lia]).
Qed.

(** The lane ZAPS of three gold tiles and an ice tile, on the player's
    turn. *)
Lemma processSpecialEffects_spends_powers_witness :
  lanes lowHealthBoard !! 0 = Some (default (Lane.new 0) (lanes lowHealthBoard !! 0))
  ∧ Board.processSpecialEffects 0 (Board.processSpecialEffects 0 lowHealthBoard)
    = Board.processSpecialEffects 0 lowHealthBoard.
Proof.
  split; [reflexivity|].
  exact (proj1 (proj2 (processSpecialEffects_spends_powers
                         0 lowHealthBoard _ eq_refl))).
Defined.
End SpecialEffects.
